(** * Gaussian diffusion engine of Diffusion-SVC-Inference

    A shallow embedding of [diffusion/diffusion.py] and the properties of its
    schedule, forward process, samplers and entry point.

    Numbers.  The program computes on IEEE floating-point tensors; the
    embedding computes on the real numbers ([R]), so every statement below is
    about the exact arithmetic the code approximates.  Where the two differ on
    a degenerate input (division by zero, square root or logarithm of a
    negative number, mean of an empty tensor) the code yields [nan] or an
    infinity, which the reals do not have: the statements carry a hypothesis
    that keeps the input away from it.  The normaliser is modelled a second
    time on IEEE 754 binary32 numbers ([norm_spec_f32], [denorm_spec_f32]),
    to measure what rounding does to its round trip.

    Tensors.  A state tensor of shape [B, 1, M, L] is a list of [B] samples,
    each a list of [M] rows of [L] reals; the singleton channel axis is kept
    implicit, so [x[:,0,:,:]] and [y[:,None,:,:]] are the identity.  A tensor
    of shape [B, L, F] (conditioning, spectrogram) has the same
    representation.  Binary operations broadcast the way torch does, axis by
    axis: equal sizes are zipped, a size-1 axis is repeated, anything else is
    a [RuntimeError]. *)

From Stdlib Require Import String.
From Stdlib Require Import Floats.SpecFloat QArith Qabs.
From Stdlib Require Import Reals Lra Lia List ZArith Bool.
Import ListNotations.

Open Scope R_scope.

(** ** Python exceptions and fallible computations *)

Inductive pyerror : Type :=
| ValueError
| KeyError
| IndexError
| TypeError
| RuntimeError
| NotImplementedError.

Inductive result (A : Type) : Type :=
| Ok (a : A)
| Err (e : pyerror).

Arguments Ok {A} a.
Arguments Err {A} e.

Definition bind {A B : Type} (r : result A) (k : A -> result B) : result B :=
  match r with
  | Ok a => k a
  | Err e => Err e
  end.

Notation "x <- c ;; k" := (bind c (fun x => k))
  (at level 61, c at next level, right associativity).
Notation "' p <- c ;; k" := (bind c (fun x => let p := x in k))
  (at level 61, p pattern, c at next level, right associativity).

Fixpoint mapM {A B : Type} (f : A -> result B) (l : list A) : result (list B) :=
  match l with
  | [] => Ok []
  | a :: l' => b <- f a ;; bs <- mapM f l' ;; Ok (b :: bs)
  end.

(** Element-wise combination of two lists of equal length. *)
Fixpoint zip_with {A B C : Type} (f : A -> B -> result C)
         (xs : list A) (ys : list B) : result (list C) :=
  match xs, ys with
  | [], [] => Ok []
  | x :: xs', y :: ys' => c <- f x y ;; cs <- zip_with f xs' ys' ;; Ok (c :: cs)
  | _, _ => Err RuntimeError
  end.

(** One axis of broadcasting: equal sizes are zipped, a size-1 operand is
    repeated along the other one, other sizes do not broadcast. *)
Definition bzip {A B C : Type} (f : A -> B -> result C)
           (xs : list A) (ys : list B) : result (list C) :=
  if (length xs =? length ys)%nat then zip_with f xs ys
  else match xs, ys with
       | [x], _ => mapM (fun y => f x y) ys
       | _, [y] => mapM (fun x => f x y) xs
       | _, _ => Err RuntimeError
       end.

(** Total zip, used to state closed forms. *)
Fixpoint map2 {A B C : Type} (f : A -> B -> C) (xs : list A) (ys : list B) : list C :=
  match xs, ys with
  | x :: xs', y :: ys' => f x y :: map2 f xs' ys'
  | _, _ => []
  end.

(** ** numpy arrays of rank one *)

Definition ndarray := list R.

(** numpy reports operands that do not broadcast as a [ValueError]. *)
Definition np_op (f : R -> R -> R) (a b : ndarray) : result ndarray :=
  match bzip (fun u v => Ok (f u v)) a b with
  | Ok c => Ok c
  | Err _ => Err ValueError
  end.

Definition arange (n : nat) : ndarray := map INR (seq 0 n).

(** [y[-1] = v] on a non-empty array. *)
Definition set_last (y : ndarray) (v : R) : ndarray := removelast y ++ [v].

(** [np.linspace(start, stop, num)] with [endpoint=True]. *)
Definition linspace (start stop : R) (num : Z) : result ndarray :=
  if (num <? 0)%Z then Err ValueError
  else
    let div := (num - 1)%Z in
    let delta := stop - start in
    let y := arange (Z.to_nat num) in
    let y := if (0 <? div)%Z
             then map (fun v => v * (delta / IZR div)) y
             else map (fun v => v * delta) y in
    let y := map (fun v => v + start) y in
    Ok (if (1 <? num)%Z then set_last y stop else y).

(** [np.cumprod(a, axis=0)]. *)
Fixpoint cumprod_from (acc : R) (a : ndarray) : ndarray :=
  match a with
  | [] => []
  | v :: a' => (acc * v) :: cumprod_from (acc * v) a'
  end.

Definition cumprod (a : ndarray) : ndarray := cumprod_from 1 a.

Definition clip (lo hi : R) (a : ndarray) : ndarray :=
  map (fun v => Rmin (Rmax v lo) hi) a.

(** ** Beta schedules *)

Definition linear_beta_schedule (timesteps : Z) (max_beta : R) : result ndarray :=
  linspace 1e-4 max_beta timesteps.

(** The divisions of the cosine schedule are by [steps], by [1 + s], by the
    first cumulative alpha and by every cumulative alpha but the last.  numpy
    answers a division by zero with [nan] or an infinity; over the reals the
    function below agrees with the code where these divisors are not zero,
    which is so for [0 <= timesteps] and [0 <= s]
    ([cosine_beta_schedule_divisors]). *)
Definition cosine_beta_schedule (timesteps : Z) (s : R) : result ndarray :=
  let steps := (timesteps + 1)%Z in
  x <- linspace 0 (IZR steps) steps ;;
  let alphas_cumprod :=
    map (fun v => (cos ((v / IZR steps + s) / (1 + s) * PI * 0.5)) ^ 2) x in
  match alphas_cumprod with
  | [] => Err IndexError
  | a0 :: _ =>
      let alphas_cumprod := map (fun v => v / a0) alphas_cumprod in
      ratio <- np_op Rdiv (tl alphas_cumprod) (removelast alphas_cumprod) ;;
      Ok (clip 0 0.999 (map (fun v => 1 - v) ratio))
  end.

(** A schedule function is called with the timestep count and its keyword
    arguments; a keyword it does not declare is a [TypeError]. *)
Definition kwargs := list (string * R).
Definition schedule_fn := Z -> kwargs -> result ndarray.

Definition call_with_kw (name : string) (dflt : R)
           (f : Z -> R -> result ndarray) : schedule_fn :=
  fun timesteps kw =>
    match kw with
    | [] => f timesteps dflt
    | [(k, v)] => if String.eqb k name then f timesteps v else Err TypeError
    | _ => Err TypeError
    end.

Definition pydict (V : Type) := list (string * V).

Fixpoint getitem {V : Type} (d : pydict V) (key : string) : result V :=
  match d with
  | [] => Err KeyError
  | (k, v) :: d' => if String.eqb k key then Ok v else getitem d' key
  end.

Fixpoint setitem {V : Type} (d : pydict V) (key : string) (v : V) : pydict V :=
  match d with
  | [] => [(key, v)]
  | (k, w) :: d' => if String.eqb k key then (k, v) :: d' else (k, w) :: setitem d' key v
  end.

Definition beta_schedule : pydict schedule_fn :=
  [ ("cosine"%string, call_with_kw "s" 0.008 cosine_beta_schedule);
    ("linear"%string, call_with_kw "max_beta" 0.02 linear_beta_schedule) ].

(** ** Tensors *)

Definition row := list R.
Definition sample := list row.
Definition tensor := list sample.

Definition tensor_op (f : R -> R -> R) (x y : tensor) : result tensor :=
  bzip (bzip (bzip (fun u v => Ok (f u v)))) x y.

Definition tadd := tensor_op Rplus.
Definition tsub := tensor_op Rminus.
Definition tmul := tensor_op Rmult.
Definition tdiv := tensor_op Rdiv.

(** A Python scalar combined with a tensor, and unary tensor methods. *)
Definition tmap (f : R -> R) (x : tensor) : tensor := map (map (map f)) x.

Definition tsqrt := tmap sqrt.
Definition texp := tmap exp.
Definition clamp (lo hi : R) := tmap (fun v => Rmin (Rmax v lo) hi).

Definition same_shape (x y : tensor) : Prop :=
  Forall2 (Forall2 (fun r1 r2 : row => length r1 = length r2)) x y.

(** A timestep handed to the denoiser: a tensor of longs or a Python int. *)
Inductive timestep : Type :=
| TTensor (ts : list Z)
| TInt (z : Z).

(** [a.gather(-1, t)] on a table of rank one: every index must lie in the
    table. *)
Definition gather1 (a : list R) (i : Z) : result R :=
  if (i <? 0)%Z then Err RuntimeError
  else match nth_error a (Z.to_nat i) with
       | Some v => Ok v
       | None => Err RuntimeError
       end.

(** The column of per-sample scalars, shape [b, 1, 1, 1]. *)
Definition column (vs : list R) : tensor := map (fun v => [[v]]) vs.

Definition extract (a : list R) (t : list Z) : result tensor :=
  vs <- mapM (gather1 a) t ;;
  Ok (column vs).

(** [torch.cat([x[:,0,:,:], cond], dim=-2)]: the rows of the conditioning are
    appended to the rows of the state, sample by sample. *)
Definition seq_len (s : sample) : option nat :=
  match s with
  | [] => None
  | r :: _ => Some (length r)
  end.

Definition cat_sample (xs cs : sample) : result sample :=
  match seq_len xs, seq_len cs with
  | Some a, Some b => if (a =? b)%nat then Ok (xs ++ cs) else Err RuntimeError
  | _, _ => Ok (xs ++ cs)
  end.

Definition cat (x cond : tensor) : result tensor := zip_with cat_sample x cond.

(** [m.transpose(1, 2)], sample by sample. *)
Fixpoint transpose_sample (m : sample) : sample :=
  match m with
  | [] => []
  | r :: m' =>
      match m' with
      | [] => map (fun v => [v]) r
      | _ => map2 cons r (transpose_sample m')
      end
  end.

Definition transpose (x : tensor) : tensor := map transpose_sample x.

(** ** The engine *)

Definition denoiser := tensor -> timestep -> option tensor -> tensor.

Record GaussianDiffusion : Type := {
  denoise_fn : denoiser;
  out_dims : Z;
  num_timesteps : Z;
  k_step : Z;
  betas : list R;
  alphas_cumprod : list R;
  alphas_cumprod_prev : list R;
  sqrt_alphas_cumprod : list R;
  sqrt_one_minus_alphas_cumprod : list R;
  log_one_minus_alphas_cumprod : list R;
  sqrt_recip_alphas_cumprod : list R;
  sqrt_recipm1_alphas_cumprod : list R;
  posterior_variance : list R;
  posterior_log_variance_clipped : list R;
  posterior_mean_coef1 : list R;
  posterior_mean_coef2 : list R;
  spec_min : tensor;
  spec_max : tensor
}.

(** [torch.FloatTensor([v])[None, None, :out_dims]]. *)
Definition spec_bound (v : R) (out_dims : Z) : tensor :=
  [[ if (1 <=? out_dims)%Z then [v] else [] ]].

(** [GaussianDiffusion.__init__], with the schedule registry it looks up. *)
Definition init_with (registry : pydict schedule_fn)
           (denoise_fn : denoiser) (out_dims timesteps k_step : Z)
           (max_beta spec_min spec_max : R) : result GaussianDiffusion :=
  schedule <- getitem registry "linear" ;;
  betas <- schedule timesteps [("max_beta"%string, max_beta)] ;;
  let alphas := map (fun b => 1 - b) betas in
  let alphas_cumprod := cumprod alphas in
  let alphas_cumprod_prev := 1 :: removelast alphas_cumprod in
  let timesteps := Z.of_nat (length betas) in
  let one_minus_prev := map (fun a => 1 - a) alphas_cumprod_prev in
  let one_minus := map (fun a => 1 - a) alphas_cumprod in
  pv_num <- np_op Rmult betas one_minus_prev ;;
  posterior_variance <- np_op Rdiv pv_num one_minus ;;
  c1_num <- np_op Rmult betas (map sqrt alphas_cumprod_prev) ;;
  coef1 <- np_op Rdiv c1_num one_minus ;;
  c2_num <- np_op Rmult one_minus_prev (map sqrt alphas) ;;
  coef2 <- np_op Rdiv c2_num one_minus ;;
  Ok {| denoise_fn := denoise_fn;
        out_dims := out_dims;
        num_timesteps := timesteps;
        k_step := k_step;
        betas := betas;
        alphas_cumprod := alphas_cumprod;
        alphas_cumprod_prev := alphas_cumprod_prev;
        sqrt_alphas_cumprod := map sqrt alphas_cumprod;
        sqrt_one_minus_alphas_cumprod := map sqrt one_minus;
        log_one_minus_alphas_cumprod := map ln one_minus;
        sqrt_recip_alphas_cumprod := map (fun a => sqrt (1 / a)) alphas_cumprod;
        sqrt_recipm1_alphas_cumprod := map (fun a => sqrt (1 / a - 1)) alphas_cumprod;
        posterior_variance := posterior_variance;
        posterior_log_variance_clipped :=
          map (fun v => ln (Rmax v 1e-20)) posterior_variance;
        posterior_mean_coef1 := coef1;
        posterior_mean_coef2 := coef2;
        spec_min := spec_bound spec_min out_dims;
        spec_max := spec_bound spec_max out_dims |}.

Definition init := init_with beta_schedule.

(** The state an engine mutates while it runs: the deque [self.noise_list],
    and the calls made to the denoiser so far (a ghost record, oldest first).
    A freshly constructed engine starts from [fresh_state]. *)
Record oracle_call : Type := {
  call_input : tensor;
  call_t : timestep;
  call_reference : option tensor
}.

Record mstate : Type := {
  calls : list oracle_call;
  noise_list : list tensor
}.

Definition fresh_state : mstate := {| calls := []; noise_list := [] |}.

(** [deque(maxlen=n).append(v)]: the new entry goes to the right end, and a
    deque grown past its bound drops its leftmost entry. *)
Definition deque_append {A : Type} (maxlen : nat) (d : list A) (v : A) : list A :=
  let d' := d ++ [v] in
  if (maxlen <? length d')%nat then tl d' else d'.

(** [d[-k]] for [k >= 1]. *)
Definition index_back {A : Type} (d : list A) (k : nat) : result A :=
  match nth_error (rev d) (k - 1) with
  | Some v => Ok v
  | None => Err IndexError
  end.

(** Computations that may raise, call the denoiser and touch the deque.  A
    raised exception leaves the state as it was when it was raised. *)
Definition M (A : Type) : Type := mstate -> result A * mstate.

Definition ret {A : Type} (a : A) : M A := fun s => (Ok a, s).

Definition raise {A : Type} (e : pyerror) : M A := fun s => (Err e, s).

Definition lift {A : Type} (r : result A) : M A := fun s => (r, s).

Definition bindM {A B : Type} (m : M A) (k : A -> M B) : M B :=
  fun s =>
    match m s with
    | (Ok a, s') => k a s'
    | (Err e, s') => (Err e, s')
    end.

Notation "x <~ c ;; k" := (bindM c (fun x => k))
  (at level 61, c at next level, right associativity).
Notation "' p <~ c ;; k" := (bindM c (fun x => let p := x in k))
  (at level 61, p pattern, c at next level, right associativity).

Definition call_denoise (self : GaussianDiffusion)
           (input : tensor) (t : timestep) (reference_mel : option tensor) : M tensor :=
  fun s =>
    (Ok (denoise_fn self input t reference_mel),
     {| calls := calls s ++ [ {| call_input := input;
                                 call_t := t;
                                 call_reference := reference_mel |} ];
        noise_list := noise_list s |}).

Definition get_noise_list : M (list tensor) := fun s => (Ok (noise_list s), s).

Definition set_noise_list (d : list tensor) : M unit :=
  fun s => (Ok tt, {| calls := calls s; noise_list := d |}).

Fixpoint for_each {A S : Type} (items : list A) (body : A -> S -> M S) (x : S) : M S :=
  match items with
  | [] => ret x
  | i :: items' => x' <~ body i x ;; for_each items' body x'
  end.

(** ** Forward process *)

Definition default {A : Type} (val : option A) (d : A) : A :=
  match val with
  | Some v => v
  | None => d
  end.

(** [fresh] is the draw [torch.randn_like(x_start)] makes when no noise is
    supplied. *)
Definition q_sample (self : GaussianDiffusion) (x_start : tensor) (t : list Z)
           (noise : option tensor) (fresh : tensor) : result tensor :=
  let noise := default noise fresh in
  c1 <- extract (sqrt_alphas_cumprod self) t ;;
  m1 <- tmul c1 x_start ;;
  c2 <- extract (sqrt_one_minus_alphas_cumprod self) t ;;
  m2 <- tmul c2 noise ;;
  tadd m1 m2.

Definition predict_start_from_noise (self : GaussianDiffusion) (x_t : tensor)
           (t : list Z) (noise : tensor) : result tensor :=
  c1 <- extract (sqrt_recip_alphas_cumprod self) t ;;
  m1 <- tmul c1 x_t ;;
  c2 <- extract (sqrt_recipm1_alphas_cumprod self) t ;;
  m2 <- tmul c2 noise ;;
  tsub m1 m2.

Definition q_posterior (self : GaussianDiffusion) (x_start x_t : tensor) (t : list Z)
  : result (tensor * tensor * tensor) :=
  c1 <- extract (posterior_mean_coef1 self) t ;;
  m1 <- tmul c1 x_start ;;
  c2 <- extract (posterior_mean_coef2 self) t ;;
  m2 <- tmul c2 x_t ;;
  posterior_mean <- tadd m1 m2 ;;
  posterior_variance <- extract (posterior_variance self) t ;;
  posterior_log_variance_clipped <- extract (posterior_log_variance_clipped self) t ;;
  Ok (posterior_mean, posterior_variance, posterior_log_variance_clipped).

(** ** Reverse samplers *)

Definition p_mean_variance (self : GaussianDiffusion) (x : tensor) (t : list Z)
           (cond : tensor) (reference_mel : option tensor)
  : M (tensor * tensor * tensor) :=
  denoise_input <~ lift (cat x cond) ;;
  noise_pred <~ call_denoise self denoise_input (TTensor t) reference_mel ;;
  x_recon <~ lift (predict_start_from_noise self x t noise_pred) ;;
  let x_recon := clamp (-1) 1 x_recon in
  lift (q_posterior self x_recon x t).

(** [noise_like(shape, device, repeat)]: [z] is the draw of [torch.randn],
    of shape [shape], or [(1, *shape[1:])] when it is repeated. *)
Definition noise_like (batch : nat) (repeat_noise : bool) (z : tensor) : tensor :=
  if repeat_noise
  then match z with
       | [s] => List.repeat s batch
       | _ => z
       end
  else z.

(** [(1 - (t == 0).float()).reshape(b, 1, 1, 1)]. *)
Definition nonzero_mask (b : nat) (t : list Z) : result tensor :=
  if (length t =? b)%nat
  then Ok (column (map (fun ti => 1 - (if (ti =? 0)%Z then 1 else 0)) t))
  else Err RuntimeError.

Definition p_sample (self : GaussianDiffusion) (x : tensor) (t : list Z)
           (cond : tensor) (reference_mel : option tensor)
           (repeat_noise : bool) (z : tensor) : M tensor :=
  let b := length x in
  ' (model_mean, _, model_log_variance) <~
      p_mean_variance self x t cond reference_mel ;;
  let noise := noise_like b repeat_noise z in
  mask <~ lift (nonzero_mask b t) ;;
  lift (m1 <- tmul mask (texp (tmap (fun v => 0.5 * v) model_log_variance)) ;;
        m2 <- tmul m1 noise ;;
        tadd model_mean m2).

(** [torch.max(t - interval, torch.zeros_like(t))]. *)
Definition prev_timestep (t : list Z) (interval : Z) : list Z :=
  map (fun ti => Z.max (ti - interval) 0) t.

(** The update of [p_sample_ddim] once [a_t], [a_prev] and the noise
    prediction are known. *)
Definition ddim_rule (a_t a_prev x noise_pred : tensor) : result tensor :=
  xs <- tdiv x (tsqrt a_t) ;;
  r_prev <- tdiv (tmap (fun v => 1 - v) a_prev) a_prev ;;
  r_t <- tdiv (tmap (fun v => 1 - v) a_t) a_t ;;
  d <- tsub (tsqrt r_prev) (tsqrt r_t) ;;
  dn <- tmul d noise_pred ;;
  s <- tadd xs dn ;;
  tmul (tsqrt a_prev) s.

Definition p_sample_ddim (self : GaussianDiffusion) (x : tensor) (t : list Z)
           (interval : Z) (cond : tensor) (reference_mel : option tensor) : M tensor :=
  a_t <~ lift (extract (alphas_cumprod self) t) ;;
  a_prev <~ lift (extract (alphas_cumprod self) (prev_timestep t interval)) ;;
  denoise_input <~ lift (cat x cond) ;;
  noise_pred <~ call_denoise self denoise_input (TTensor t) reference_mel ;;
  lift (ddim_rule a_t a_prev x noise_pred).

(** The helper local to [p_sample_plms]; it closes over [self] and
    [interval]. *)
Definition get_x_pred (self : GaussianDiffusion) (interval : Z)
           (x noise_t : tensor) (t : list Z) : result tensor :=
  a_t <- extract (alphas_cumprod self) t ;;
  a_prev <- extract (alphas_cumprod self) (prev_timestep t interval) ;;
  let a_t_sq := tsqrt a_t in
  let a_prev_sq := tsqrt a_prev in
  da <- tsub a_prev a_t ;;
  s1 <- tadd a_t_sq a_prev_sq ;;
  p1 <- tmul a_t_sq s1 ;;
  c1x <- tmul (tmap (fun v => 1 / v) p1) x ;;
  q1 <- tmul (tmap (fun v => 1 - v) a_prev) a_t ;;
  q2 <- tmul (tmap (fun v => 1 - v) a_t) a_prev ;;
  s2 <- tadd (tsqrt q1) (tsqrt q2) ;;
  p2 <- tmul a_t_sq s2 ;;
  c2n <- tmul (tmap (fun v => 1 / v) p2) noise_t ;;
  inner <- tsub c1x c2n ;;
  x_delta <- tmul da inner ;;
  tadd x x_delta.

(** Python's builtin [max(v, k)] on a tensor [v] and an int [k]: it returns
    [k] when [k > v] is true and [v] otherwise, and the truth value of
    [k > v] exists for a tensor of exactly one element only. *)
Definition py_max (v : list Z) (k : Z) : result timestep :=
  match v with
  | [e] => Ok (if (e <? k)%Z then TInt k else TTensor v)
  | _ => Err RuntimeError
  end.

Definition p_sample_plms (self : GaussianDiffusion) (x : tensor) (t : list Z)
           (interval : Z) (cond : tensor) (reference_mel : option tensor) : M tensor :=
  denoise_input <~ lift (cat x cond) ;;
  noise_list <~ get_noise_list ;;
  noise_pred <~ call_denoise self denoise_input (TTensor t) reference_mel ;;
  noise_pred_prime <~
    match length noise_list with
    | O =>
        x_pred <~ lift (get_x_pred self interval x noise_pred t) ;;
        denoise_input <~ lift (cat x_pred cond) ;;
        t_next <~ lift (py_max (map (fun ti => ti - interval)%Z t) 0) ;;
        noise_pred_prev <~ call_denoise self denoise_input t_next reference_mel ;;
        s <~ lift (tadd noise_pred noise_pred_prev) ;;
        ret (tmap (fun v => v / 2) s)
    | 1%nat =>
        lift (n1 <- index_back noise_list 1 ;;
              s <- tsub (tmap (fun v => 3 * v) noise_pred) n1 ;;
              Ok (tmap (fun v => v / 2) s))
    | 2%nat =>
        lift (n1 <- index_back noise_list 1 ;;
              s1 <- tsub (tmap (fun v => 23 * v) noise_pred) (tmap (fun v => 16 * v) n1) ;;
              n2 <- index_back noise_list 2 ;;
              s2 <- tadd s1 (tmap (fun v => 5 * v) n2) ;;
              Ok (tmap (fun v => v / 12) s2))
    | _ =>
        lift (n1 <- index_back noise_list 1 ;;
              s1 <- tsub (tmap (fun v => 55 * v) noise_pred) (tmap (fun v => 59 * v) n1) ;;
              n2 <- index_back noise_list 2 ;;
              s2 <- tadd s1 (tmap (fun v => 37 * v) n2) ;;
              n3 <- index_back noise_list 3 ;;
              s3 <- tsub s2 (tmap (fun v => 9 * v) n3) ;;
              Ok (tmap (fun v => v / 24) s3))
    end ;;
  x_prev <~ lift (get_x_pred self interval x noise_pred_prime t) ;;
  _ <~ set_noise_list (deque_append 4 noise_list noise_pred) ;;
  ret x_prev.

(** ** Normalisation of spectrograms *)

Definition norm_spec (self : GaussianDiffusion) (x : tensor) : result tensor :=
  d <- tsub x (spec_min self) ;;
  w <- tsub (spec_max self) (spec_min self) ;;
  q <- tdiv d w ;;
  Ok (tmap (fun v => v * 2 - 1) q).

Definition denorm_spec (self : GaussianDiffusion) (x : tensor) : result tensor :=
  w <- tsub (spec_max self) (spec_min self) ;;
  m <- tmul (tmap (fun v => (v + 1) / 2) x) w ;;
  tadd m (spec_min self).

(** ** Training loss *)

(** [x.mean()] over all the entries of a tensor that has some.  The mean of a
    tensor without entries is [nan] in torch; the statements about the loss
    assume a tensor with an entry at least. *)
Definition tensor_mean (x : tensor) : R :=
  let flat := concat (concat x) in
  fold_right Rplus 0 flat / INR (length flat).

Definition p_losses (self : GaussianDiffusion) (x_start : tensor) (t : list Z)
           (cond : tensor) (reference_mel : option tensor)
           (noise : option tensor) (fresh : tensor) (loss_type : string) : M R :=
  let noise := default noise fresh in
  x_noisy <~ lift (q_sample self x_start t (Some noise) fresh) ;;
  denoise_input <~ lift (cat x_noisy cond) ;;
  x_recon <~ call_denoise self denoise_input (TTensor t) reference_mel ;;
  if String.eqb loss_type "l1" then
    d <~ lift (tsub noise x_recon) ;;
    ret (tensor_mean (tmap Rabs d))
  else if String.eqb loss_type "l2" then
    d <~ lift (tsub noise x_recon) ;;
    ret (tensor_mean (tmap (fun v => v ^ 2) d))
  else raise NotImplementedError.

(** ** The entry point *)

(** [range(0, stop, step)] for a positive [step]. *)
Definition py_range (stop step : Z) : list Z :=
  map (fun k => (Z.of_nat k * step)%Z)
      (seq 0 (Z.to_nat ((stop + step - 1) / step))).

(** [l[:t]]. *)
Definition slice_to {A : Type} (l : list A) (t : Z) : list A :=
  if (t <? 0)%Z then firstn (length l - Z.to_nat (- t)) l
  else firstn (Z.to_nat t) l.

(** [import tqdm] binds the name [tqdm] to the module.  [tqdm.tqdm(it, ...)]
    is the progress bar, which yields the items of [it] in order; [tqdm(it,
    ...)] is a call of the module object, which is not callable. *)
Definition tqdm_tqdm {A : Type} (iterable : list A) : list A := iterable.

Definition tqdm_module_call {A : Type} (iterable : list A) : result (list A) :=
  Err TypeError.

(** The random draws of one call, in the order the call makes them. *)
Record draws : Type := {
  randn_init : tensor;
  randn_step : Z -> tensor;
  randint : list Z
}.

(** The solvers of [dpm_solver_pytorch] and [uni_pc], which are imported
    lazily and run on the first [t] betas, the state, the step budget, the
    conditioning and the reference. *)
Definition solver := list R -> tensor -> Z -> tensor -> option tensor -> M tensor.

Record solvers : Type := {
  dpm_solver_sample : solver;
  uni_pc_sample : solver
}.

Inductive output : Type :=
| Loss (l : R)
| Spec (x : tensor).

(** The initial state of an inference call: the start timestep and the
    tensor the sampler starts from. *)
Definition forward_start (self : GaussianDiffusion) (rng : draws)
           (gt_spec : option tensor) (k_step_arg : option Z) : result (Z * tensor) :=
  match gt_spec, k_step_arg with
  | Some gt, Some k =>
      let t := k in
      ns <- norm_spec self gt ;;
      let ns := transpose ns in
      x <- q_sample self ns [(t - 1)%Z] None (randn_init rng) ;;
      Ok (t, x)
  | _, _ => Ok (k_step self, randn_init rng)
  end.

(** The sampling loop an inference call dispatches to. *)
Definition forward_sample (self : GaussianDiffusion) (ext : solvers) (rng : draws)
           (b : nat) (cond : tensor) (reference_mel : option tensor)
           (infer_speedup : Z) (method : option string) (use_tqdm : bool)
           (t : Z) (x : tensor) : M tensor :=
  match method with
  | Some m =>
      if (1 <? infer_speedup)%Z then
        if String.eqb m "dpm-solver" then
          dpm_solver_sample ext (slice_to (betas self) t) x (t / infer_speedup)%Z
                            cond reference_mel
        else if String.eqb m "unipc" then
          uni_pc_sample ext (slice_to (betas self) t) x (t / infer_speedup)%Z
                        cond reference_mel
        else if String.eqb m "pndm" then
          _ <~ set_noise_list [] ;;
          let steps := rev (py_range t infer_speedup) in
          for_each (if use_tqdm then tqdm_tqdm steps else steps)
                   (fun i x => p_sample_plms self x (List.repeat i b) infer_speedup
                                             cond reference_mel)
                   x
        else if String.eqb m "ddim" then
          let steps := rev (py_range t infer_speedup) in
          for_each (if use_tqdm then tqdm_tqdm steps else steps)
                   (fun i x => p_sample_ddim self x (List.repeat i b) infer_speedup
                                             cond reference_mel)
                   x
        else raise NotImplementedError
      else
        let steps := rev (py_range t 1) in
        steps <~ (if use_tqdm then lift (tqdm_module_call steps) else ret steps) ;;
        for_each steps
                 (fun i x => p_sample self x (List.repeat i b) cond reference_mel
                                      false (randn_step rng i))
                 x
  | None =>
      let steps := rev (py_range t 1) in
      steps <~ (if use_tqdm then lift (tqdm_module_call steps) else ret steps) ;;
      for_each steps
               (fun i x => p_sample self x (List.repeat i b) cond reference_mel
                                    false (randn_step rng i))
               x
  end.

Definition forward (self : GaussianDiffusion) (ext : solvers) (rng : draws)
           (condition : tensor) (reference_mel : option tensor)
           (gt_spec : option tensor) (infer : bool) (infer_speedup : Z)
           (method : option string) (k_step_arg : option Z) (use_tqdm : bool)
  : M output :=
  let cond := transpose condition in
  let b := length condition in
  if negb infer then
    match gt_spec with
    | None => raise TypeError
    | Some gt =>
        spec <~ lift (norm_spec self gt) ;;
        let t_max := match k_step_arg with
                     | None => k_step self
                     | Some k => k
                     end in
        if (t_max <=? 0)%Z then raise RuntimeError
        else
          let t := randint rng in
          let norm_spec := transpose spec in
          l <~ p_losses self norm_spec t cond reference_mel None (randn_init rng) "l2" ;;
          ret (Loss l)
    end
  else
    ' (t, x) <~ lift (forward_start self rng gt_spec k_step_arg) ;;
    x <~ forward_sample self ext rng b cond reference_mel infer_speedup method
                        use_tqdm t x ;;
    let x := transpose x in
    y <~ lift (denorm_spec self x) ;;
    ret (Spec y).

(** ** Predicates used in the statements *)

(** [b] runs from [lo] to [hi], both included, by equal steps. *)
Definition evenly_spaced (lo hi : R) (b : list R) : Prop :=
  nth 0 b 0 = lo
  /\ nth (length b - 1) b 0 = hi
  /\ forall i, (S i < length b)%nat ->
               nth (S i) b 0 - nth i b 0 = (hi - lo) / INR (length b - 1).


(** Closed forms.  [pointwise F ks z] applies [F k] to every entry of the
    sample that stands next to [k]; [tzip] pairs the entries of two tensors
    of one shape; [broadcast_to n l] is [l] with a size-1 axis repeated [n]
    times. *)
Definition pointwise {K E : Type} (F : K -> E -> R)
           (ks : list K) (z : list (list (list E))) : tensor :=
  map2 (fun k s => map (map (F k)) s) ks z.

Definition tzip (x y : tensor) : list (list (list (R * R))) :=
  map2 (map2 (@combine R R)) x y.

Definition broadcast_to {A : Type} (n : nat) (l : list A) : list A :=
  if (length l =? n)%nat then l
  else match l with
       | [a] => List.repeat a n
       | _ => l
       end.

(** The table entry a valid timestep selects. *)
Definition lookup (a : list R) (i : Z) : R := nth (Z.to_nat i) a 0.

Definition in_table (a : list R) (i : Z) : Prop :=
  (0 <= i < Z.of_nat (length a))%Z.

Definition strictly_increasing (b : list R) : Prop :=
  forall i, (S i < length b)%nat -> nth i b 0 < nth (S i) b 0.

(** ** Further definitions of the forward process *)


(** Every entry of a tensor lies in [lo, hi]. *)
Definition entries_in (lo hi : R) (x : tensor) : Prop :=
  Forall (Forall (Forall (fun v => lo <= v <= hi))) x.

Definition strictly_decreasing (b : list R) : Prop :=
  forall i, (S i < length b)%nat -> nth (S i) b 0 < nth i b 0.

(** ** Single precision *)

(** The tensors of the engine hold IEEE 754 binary32 numbers: 24 bits of
    precision, exponents below 128, every operation rounded to nearest, ties
    to even. *)
Definition float32 := spec_float.

Definition f32_add : float32 -> float32 -> float32 := SFadd 24 128.
Definition f32_sub : float32 -> float32 -> float32 := SFsub 24 128.
Definition f32_mul : float32 -> float32 -> float32 := SFmul 24 128.
Definition f32_div : float32 -> float32 -> float32 := SFdiv 24 128.
Definition f32_leb : float32 -> float32 -> bool := SFleb.

(** A Python integer that meets a [float32] tensor in an operation. *)
Definition f32_of_Z (n : Z) : float32 := binary_normalize 24 128 n 0 false.

(** The number a finite [float32] stands for. *)
Definition f32_value (x : float32) : option Q :=
  match x with
  | S754_zero _ => Some 0%Q
  | S754_finite s m e =>
      Some ((if s then -1 else 1) * inject_Z (Zpos m) * Qpower 2 e)%Q
  | _ => None
  end.

(** One entry of [norm_spec] and one of [denorm_spec], each operation of
    lines 276 and 279 rounded. *)
Definition norm_spec_f32 (spec_min spec_max x : float32) : float32 :=
  f32_sub (f32_mul (f32_div (f32_sub x spec_min) (f32_sub spec_max spec_min))
                   (f32_of_Z 2))
          (f32_of_Z 1).

Definition denorm_spec_f32 (spec_min spec_max x : float32) : float32 :=
  f32_add (f32_mul (f32_div (f32_add x (f32_of_Z 1)) (f32_of_Z 2))
                   (f32_sub spec_max spec_min))
          spec_min.

(** * Properties *)

(** ** Lists, results and broadcasting *)

Lemma mapM_total {A B : Type} (g : A -> B) (l : list A) :
  mapM (fun a => Ok (g a)) l = Ok (map g l).
Proof.
  induction l as [|a l IH]; simpl; [reflexivity|].
  rewrite IH. reflexivity.
Qed.

Lemma mapM_ext_ok {A B : Type} (f : A -> result B) (g : A -> B) (l : list A) :
  Forall (fun a => f a = Ok (g a)) l -> mapM f l = Ok (map g l).
Proof.
  induction 1 as [|a l Ha _ IH]; simpl; [reflexivity|].
  rewrite Ha, IH. reflexivity.
Qed.

Lemma zip_with_ext_ok {A B C : Type} (f : A -> B -> result C) (g : A -> B -> C)
      (xs : list A) (ys : list B) :
  Forall2 (fun x y => f x y = Ok (g x y)) xs ys ->
  zip_with f xs ys = Ok (map2 g xs ys).
Proof.
  induction 1 as [|x y xs ys Hxy _ IH]; simpl; [reflexivity|].
  rewrite Hxy, IH. reflexivity.
Qed.

Lemma zip_with_total {A B C : Type} (g : A -> B -> C) (xs : list A) (ys : list B) :
  length xs = length ys ->
  zip_with (fun x y => Ok (g x y)) xs ys = Ok (map2 g xs ys).
Proof.
  revert ys. induction xs as [|x xs IH]; intros [|y ys] H; simpl in *;
    try discriminate; [reflexivity|].
  rewrite IH by lia. reflexivity.
Qed.

Lemma bzip_same_length {A B C : Type} (f : A -> B -> result C)
      (xs : list A) (ys : list B) :
  length xs = length ys -> bzip f xs ys = zip_with f xs ys.
Proof.
  intros H. unfold bzip. rewrite H, Nat.eqb_refl. reflexivity.
Qed.

Lemma bzip_singleton_l {A B C : Type} (f : A -> B -> result C) (x : A) (ys : list B) :
  bzip f [x] ys = mapM (fun y => f x y) ys.
Proof.
  unfold bzip. destruct ys as [|y [|y' ys]]; simpl;
    try reflexivity; destruct (f x y); reflexivity.
Qed.

Lemma bzip_singleton_r {A B C : Type} (f : A -> B -> result C) (xs : list A) (y : B) :
  bzip f xs [y] = mapM (fun x => f x y) xs.
Proof.
  unfold bzip. destruct xs as [|x [|x' xs]]; simpl;
    try reflexivity; destruct (f x y); reflexivity.
Qed.

Lemma length_map2 {A B C : Type} (f : A -> B -> C) (xs : list A) (ys : list B) :
  length (map2 f xs ys) = Nat.min (length xs) (length ys).
Proof.
  revert ys. induction xs as [|x xs IH]; intros [|y ys]; simpl; auto.
Qed.

Lemma length_map2_same {A B C : Type} (f : A -> B -> C) (xs : list A) (ys : list B) :
  length xs = length ys -> length (map2 f xs ys) = length xs.
Proof.
  intros H. rewrite length_map2. lia.
Qed.

Lemma nth_map2 {A B C : Type} (f : A -> B -> C) (xs : list A) (ys : list B)
      (i : nat) (da : A) (db : B) (dc : C) :
  (i < length xs)%nat -> (i < length ys)%nat ->
  nth i (map2 f xs ys) dc = f (nth i xs da) (nth i ys db).
Proof.
  revert ys i. induction xs as [|x xs IH]; intros [|y ys] [|i] Hx Hy; simpl in *;
    try lia; [reflexivity|].
  apply IH; lia.
Qed.

Lemma nth_map_lt {A B : Type} (f : A -> B) (l : list A) (i : nat) (d : A) (d' : B) :
  (i < length l)%nat -> nth i (map f l) d' = f (nth i l d).
Proof.
  intros H. rewrite (nth_indep _ d' (f d)) by (rewrite length_map; exact H).
  apply map_nth.
Qed.

(** ** The linear schedule *)

Lemma length_arange (n : nat) : length (arange n) = n.
Proof.
  unfold arange. rewrite length_map, length_seq. reflexivity.
Qed.

Lemma nth_arange (n i : nat) : (i < n)%nat -> nth i (arange n) 0 = INR i.
Proof.
  intros H. unfold arange.
  change 0 with (INR 0). rewrite map_nth, seq_nth by assumption.
  reflexivity.
Qed.

Lemma length_set_last (y : ndarray) (v : R) :
  y <> [] -> length (set_last y v) = length y.
Proof.
  intros H. unfold set_last. rewrite length_app, removelast_firstn_len, length_firstn.
  destruct y; [congruence|]. simpl. lia.
Qed.

Lemma nth_set_last (y : ndarray) (v : R) (i : nat) :
  (i < length y)%nat ->
  nth i (set_last y v) 0 = if (S i =? length y)%nat then v else nth i y 0.
Proof.
  intros H. unfold set_last.
  assert (Hlen : length (removelast y) = pred (length y)).
  { rewrite removelast_firstn_len, length_firstn. lia. }
  destruct (Nat.eqb_spec (S i) (length y)) as [E|N].
  - rewrite app_nth2 by lia. rewrite Hlen.
    replace (i - pred (length y))%nat with 0%nat by lia. reflexivity.
  - rewrite app_nth1 by lia.
    rewrite removelast_firstn_len, nth_firstn.
    destruct (Nat.ltb_spec i (pred (length y))); [reflexivity|lia].
Qed.

(** With two samples or more, [linspace] is the arithmetic progression from
    [start] with step [(stop - start) / (num - 1)]; overwriting the last
    sample by [stop] does not change it over the reals. *)
Lemma linspace_progression (start stop : R) (num : Z) :
  (2 <= num)%Z ->
  exists y, linspace start stop num = Ok y
            /\ length y = Z.to_nat num
            /\ forall i, (i < Z.to_nat num)%nat ->
                         nth i y 0 = start + INR i * ((stop - start) / IZR (num - 1)).
Proof.
  intros Hnum. unfold linspace.
  destruct (Z.ltb_spec num 0) as [?|_]; [lia|].
  destruct (Z.ltb_spec 0 (num - 1)) as [_|?]; [|lia].
  destruct (Z.ltb_spec 1 num) as [_|?]; [|lia].
  set (step := (stop - start) / IZR (num - 1)).
  set (y := map (fun v => v + start) (map (fun v => v * step) (arange (Z.to_nat num)))).
  assert (Hy : length y = Z.to_nat num).
  { unfold y. rewrite !length_map. apply length_arange. }
  assert (Hne : y <> []).
  { intros E. rewrite E in Hy. simpl in Hy. lia. }
  exists (set_last y stop). split; [reflexivity|]. split.
  - rewrite length_set_last by assumption. exact Hy.
  - intros i Hi. rewrite nth_set_last by lia.
    destruct (Nat.eqb_spec (S i) (length y)) as [E|N].
    + assert (Hi' : INR i = IZR (num - 1)).
      { rewrite INR_IZR_INZ. f_equal. lia. }
      rewrite Hi'. unfold step. field.
      apply not_0_IZR. lia.
    + unfold y.
      rewrite (nth_map_lt (fun v => v + start) _ _ 0) by (rewrite length_map, length_arange; lia).
      rewrite (nth_map_lt (fun v => v * step) _ _ 0) by (rewrite length_arange; lia).
      rewrite nth_arange by assumption. lra.
Qed.

Lemma linspace_negative (start stop : R) (num : Z) :
  (num < 0)%Z -> linspace start stop num = Err ValueError.
Proof.
  intros H. unfold linspace.
  destruct (Z.ltb_spec num 0); [reflexivity|lia].
Qed.

Lemma linspace_nonnegative_ok (start stop : R) (num : Z) :
  (0 <= num)%Z -> exists y, linspace start stop num = Ok y.
Proof.
  intros H. unfold linspace.
  destruct (Z.ltb_spec num 0); [lia|]. eexists. reflexivity.
Qed.

(** One sample: [linspace] returns [start] alone and never reaches [stop]. *)
Lemma linear_beta_schedule_one (max_beta : R) :
  linear_beta_schedule 1 max_beta = Ok [INR 0 * (max_beta - 1e-4) + 1e-4].
Proof. reflexivity. Qed.

(** C6, as stated, fails for a schedule of one timestep: the only value is
    1e-4, so the values do not run up to [max_beta = 0.02]. *)
Lemma linear_beta_schedule_one_not_evenly_spaced :
  exists b, linear_beta_schedule 1 0.02 = Ok b
            /\ length b = 1%nat
            /\ ~ evenly_spaced 1e-4 0.02 b.
Proof.
  eexists. split; [apply linear_beta_schedule_one|]. split; [reflexivity|].
  intros (_ & Hlast & _). simpl in Hlast. lra.
Qed.

(** C6 (amended): with two timesteps or more, [linear_beta_schedule] returns
    exactly [T] evenly spaced values from 1e-4 to [max_beta], both included,
    and they increase strictly when [max_beta] is above 1e-4. *)
Theorem linear_beta_schedule_evenly_spaced (T : Z) (max_beta : R) :
  (2 <= T)%Z ->
  exists b, linear_beta_schedule T max_beta = Ok b
            /\ Z.of_nat (length b) = T
            /\ evenly_spaced 1e-4 max_beta b
            /\ (1e-4 < max_beta -> strictly_increasing b).
Proof.
  intros HT. unfold linear_beta_schedule.
  destruct (linspace_progression 1e-4 max_beta T HT) as (b & Hb & Hlen & Hnth).
  exists b. split; [exact Hb|].
  assert (HINR : INR (length b - 1) = IZR (T - 1)).
  { rewrite INR_IZR_INZ. f_equal. lia. }
  assert (Hpos : 0 < IZR (T - 1)) by (apply IZR_lt; lia).
  split; [lia|]. split; [|intros Hmax i Hi].
  - split; [|split].
    + rewrite Hnth by lia. simpl. lra.
    + rewrite Hnth by lia. rewrite HINR. field. lra.
    + intros i Hi. rewrite !Hnth by lia. rewrite HINR, S_INR. field. lra.
  - rewrite !Hnth by lia. rewrite S_INR.
    assert (0 < (max_beta - 1e-4) / IZR (T - 1)).
    { apply Rdiv_lt_0_compat; lra. }
    lra.
Qed.

(** The scenario of C6: T = 1000 and max_beta = 0.02. *)
Lemma linear_beta_schedule_1000 :
  (2 <= 1000)%Z
  /\ exists b, linear_beta_schedule 1000 0.02 = Ok b
               /\ length b = 1000%nat
               /\ nth 0 b 0 = 1e-4
               /\ nth 999 b 0 = 0.02
               /\ strictly_increasing b.
Proof.
  split; [lia|].
  destruct (linear_beta_schedule_evenly_spaced 1000 0.02 ltac:(lia))
    as (b & Hb & Hlen & (H0 & Hlast & _) & Hinc).
  assert (Hl : length b = 1000%nat) by lia.
  exists b. split; [exact Hb|]. split; [exact Hl|]. split; [exact H0|].
  split; [|apply Hinc; lra].
  rewrite Hl in Hlast. exact Hlast.
Defined.

(** ** Construction of the engine *)

Lemma linear_beta_schedule_negative (T : Z) (max_beta : R) :
  (T < 0)%Z -> linear_beta_schedule T max_beta = Err ValueError.
Proof. apply linspace_negative. Qed.

Lemma cosine_beta_schedule_negative (T : Z) (s : R) :
  (T < 0)%Z -> exists e, cosine_beta_schedule T s = Err e.
Proof.
  intros HT. unfold cosine_beta_schedule.
  destruct (Z.eq_dec T (-1)) as [->|Hne].
  - exists IndexError. reflexivity.
  - exists ValueError. rewrite linspace_negative by lia. reflexivity.
Qed.

Lemma getitem_beta_schedule_linear :
  getitem beta_schedule "linear" = Ok (call_with_kw "max_beta" 0.02 linear_beta_schedule).
Proof. reflexivity. Qed.

Lemma getitem_beta_schedule_unknown (family : string) :
  family <> "linear"%string -> family <> "cosine"%string ->
  getitem beta_schedule family = Err KeyError.
Proof.
  intros Hl Hc. unfold beta_schedule. cbn [getitem].
  destruct (String.eqb_spec "cosine" family) as [E|_]; [congruence|].
  destruct (String.eqb_spec "linear" family) as [E|_]; [congruence|].
  reflexivity.
Qed.

(** The constructor starts by calling the linear schedule on its own
    [timesteps] and [max_beta]. *)
Lemma init_calls_linear (d : denoiser) (o T k : Z) (mb smin smax : R) (e : pyerror) :
  linear_beta_schedule T mb = Err e -> init d o T k mb smin smax = Err e.
Proof.
  intros H. unfold init, init_with. rewrite getitem_beta_schedule_linear.
  simpl. rewrite H. reflexivity.
Qed.

(** C4, as stated, fails for T = 0: the constructor builds an engine (with
    empty tables and no timestep) instead of raising. *)
Lemma init_zero_timesteps_succeeds :
  exists g, init (fun _ _ _ => []) 128 0 1000 0.02 (-12) 2 = Ok g
            /\ num_timesteps g = 0%Z
            /\ betas g = [].
Proof.
  eexists. split; [reflexivity|]. split; reflexivity.
Qed.

(** C4 (amended): a negative timestep count is refused when the schedule is
    built, by numpy's [ValueError] for the linear schedule and the engine
    built on it, and by some exception for the cosine schedule; a family that
    is neither [linear] nor [cosine] is a [KeyError] of the registry. *)
Theorem invalid_schedule_is_refused :
  (forall T mb, (T < 0)%Z -> linear_beta_schedule T mb = Err ValueError)
  /\ (forall T s, (T < 0)%Z -> exists e, cosine_beta_schedule T s = Err e)
  /\ (forall d o T k mb smin smax,
         (T < 0)%Z -> init d o T k mb smin smax = Err ValueError)
  /\ (forall family,
         family <> "linear"%string -> family <> "cosine"%string ->
         getitem beta_schedule family = Err KeyError).
Proof.
  split; [exact linear_beta_schedule_negative|].
  split; [exact cosine_beta_schedule_negative|].
  split; [|exact getitem_beta_schedule_unknown].
  intros d o T k mb smin smax HT.
  apply init_calls_linear, linear_beta_schedule_negative, HT.
Qed.

Lemma invalid_schedule_is_refused_witness :
  linear_beta_schedule (-1) 0.02 = Err ValueError
  /\ (exists e, cosine_beta_schedule (-1) 0.008 = Err e)
  /\ init (fun _ _ _ => []) 128 (-1) 1000 0.02 (-12) 2 = Err ValueError
  /\ getitem beta_schedule "quadratic" = Err KeyError.
Proof.
  destruct invalid_schedule_is_refused as (Hl & Hc & Hi & Hk).
  split; [apply Hl; lia|].
  split; [apply Hc; lia|].
  split; [apply Hi; lia|].
  apply Hk; discriminate.
Defined.

Lemma np_op_same_length (f : R -> R -> R) (a b : ndarray) :
  length a = length b -> np_op f a b = Ok (map2 f a b).
Proof.
  intros H. unfold np_op.
  rewrite bzip_same_length, zip_with_total by assumption. reflexivity.
Qed.

Lemma length_cumprod_from (acc : R) (a : ndarray) :
  length (cumprod_from acc a) = length a.
Proof.
  revert acc. induction a as [|v a IH]; intros acc; simpl; [reflexivity|].
  rewrite IH. reflexivity.
Qed.

Lemma length_cumprod (a : ndarray) : length (cumprod a) = length a.
Proof. apply length_cumprod_from. Qed.

Lemma length_removelast {A : Type} (l : list A) :
  length (removelast l) = pred (length l).
Proof.
  rewrite removelast_firstn_len, length_firstn. lia.
Qed.

(** A non-negative timestep count always builds an engine. *)
Lemma init_ok (d : denoiser) (o T k : Z) (mb smin smax : R) :
  (0 <= T)%Z -> exists g, init d o T k mb smin smax = Ok g.
Proof.
  intros HT. unfold init, init_with. rewrite getitem_beta_schedule_linear.
  cbn [bind call_with_kw]. rewrite String.eqb_refl.
  destruct (linspace_nonnegative_ok 1e-4 mb T HT) as (b & Hb).
  unfold linear_beta_schedule. rewrite Hb. cbn [bind].
  destruct b as [|b0 b]; [eexists; reflexivity|].
  set (bs := b0 :: b).
  set (ac := cumprod (map (fun v => 1 - v) bs)).
  assert (Hac : length ac = length bs).
  { unfold ac. rewrite length_cumprod, length_map. reflexivity. }
  assert (Hprev : length (1 :: removelast ac) = length bs).
  { cbn [length]. rewrite length_removelast, Hac. reflexivity. }
  repeat (rewrite np_op_same_length;
          [cbn [bind]
          |repeat first [rewrite length_map | rewrite length_map2]; lia]).
  eexists. reflexivity.
Qed.

(** Replacing the registered cosine schedule by any other function changes
    nothing for the constructor. *)
Lemma init_ignores_cosine (cosine' : schedule_fn)
      (d : denoiser) (o T k : Z) (mb smin smax : R) :
  init_with (setitem beta_schedule "cosine" cosine') d o T k mb smin smax
  = init d o T k mb smin smax.
Proof. reflexivity. Qed.

(** What the constructor stores, in terms of the beta table it computed. *)
Lemma init_tables (d : denoiser) (o T k : Z) (mb smin smax : R)
      (g : GaussianDiffusion) :
  init d o T k mb smin smax = Ok g ->
  linear_beta_schedule T mb = Ok (betas g)
  /\ num_timesteps g = Z.of_nat (length (betas g))
  /\ alphas_cumprod g = cumprod (map (fun b => 1 - b) (betas g))
  /\ alphas_cumprod_prev g = 1 :: removelast (alphas_cumprod g)
  /\ sqrt_alphas_cumprod g = map sqrt (alphas_cumprod g)
  /\ sqrt_one_minus_alphas_cumprod g = map sqrt (map (fun a => 1 - a) (alphas_cumprod g))
  /\ log_one_minus_alphas_cumprod g = map ln (map (fun a => 1 - a) (alphas_cumprod g))
  /\ sqrt_recip_alphas_cumprod g = map (fun a => sqrt (1 / a)) (alphas_cumprod g)
  /\ sqrt_recipm1_alphas_cumprod g = map (fun a => sqrt (1 / a - 1)) (alphas_cumprod g)
  /\ (pv_num <- np_op Rmult (betas g) (map (fun a => 1 - a) (alphas_cumprod_prev g)) ;;
      np_op Rdiv pv_num (map (fun a => 1 - a) (alphas_cumprod g)))
     = Ok (posterior_variance g)
  /\ posterior_log_variance_clipped g
     = map (fun v => ln (Rmax v 1e-20)) (posterior_variance g)
  /\ (c1_num <- np_op Rmult (betas g) (map sqrt (alphas_cumprod_prev g)) ;;
      np_op Rdiv c1_num (map (fun a => 1 - a) (alphas_cumprod g)))
     = Ok (posterior_mean_coef1 g)
  /\ (c2_num <- np_op Rmult (map (fun a => 1 - a) (alphas_cumprod_prev g))
                      (map sqrt (map (fun b => 1 - b) (betas g))) ;;
      np_op Rdiv c2_num (map (fun a => 1 - a) (alphas_cumprod g)))
     = Ok (posterior_mean_coef2 g).
Proof.
  intros H. unfold init, init_with in H. rewrite getitem_beta_schedule_linear in H.
  cbn [bind call_with_kw] in H. rewrite String.eqb_refl in H.
  destruct (linear_beta_schedule T mb) as [b|e]; cbn [bind] in H;
    try discriminate.
  repeat match type of H with
         | context [np_op ?f ?a ?c] =>
             let E := fresh "E" in
             destruct (np_op f a c) eqn:E; cbn [bind] in H; try discriminate
         end.
  injection H as <-.
  cbn [betas num_timesteps alphas_cumprod alphas_cumprod_prev sqrt_alphas_cumprod
       sqrt_one_minus_alphas_cumprod log_one_minus_alphas_cumprod
       sqrt_recip_alphas_cumprod sqrt_recipm1_alphas_cumprod posterior_variance
       posterior_log_variance_clipped posterior_mean_coef1 posterior_mean_coef2].
  rewrite E, E1, E3. cbn [bind].
  repeat split; try reflexivity; assumption.
Qed.

(** C9: whatever its arguments, an engine that was built holds the beta
    table of the linear schedule, every coefficient array is computed from
    that table, and the cosine entry of the registry plays no part. *)
Theorem engine_tables_from_linear_schedule
        (cosine' : schedule_fn) (d : denoiser) (o T k : Z) (mb smin smax : R)
        (g : GaussianDiffusion) :
  init d o T k mb smin smax = Ok g ->
  linear_beta_schedule T mb = Ok (betas g)
  /\ init_with (setitem beta_schedule "cosine" cosine') d o T k mb smin smax = Ok g
  /\ num_timesteps g = Z.of_nat (length (betas g))
  /\ alphas_cumprod g = cumprod (map (fun b => 1 - b) (betas g))
  /\ alphas_cumprod_prev g = 1 :: removelast (alphas_cumprod g)
  /\ sqrt_alphas_cumprod g = map sqrt (alphas_cumprod g)
  /\ sqrt_one_minus_alphas_cumprod g = map sqrt (map (fun a => 1 - a) (alphas_cumprod g))
  /\ log_one_minus_alphas_cumprod g = map ln (map (fun a => 1 - a) (alphas_cumprod g))
  /\ sqrt_recip_alphas_cumprod g = map (fun a => sqrt (1 / a)) (alphas_cumprod g)
  /\ sqrt_recipm1_alphas_cumprod g = map (fun a => sqrt (1 / a - 1)) (alphas_cumprod g)
  /\ (pv_num <- np_op Rmult (betas g) (map (fun a => 1 - a) (alphas_cumprod_prev g)) ;;
      np_op Rdiv pv_num (map (fun a => 1 - a) (alphas_cumprod g)))
     = Ok (posterior_variance g)
  /\ posterior_log_variance_clipped g
     = map (fun v => ln (Rmax v 1e-20)) (posterior_variance g)
  /\ (c1_num <- np_op Rmult (betas g) (map sqrt (alphas_cumprod_prev g)) ;;
      np_op Rdiv c1_num (map (fun a => 1 - a) (alphas_cumprod g)))
     = Ok (posterior_mean_coef1 g)
  /\ (c2_num <- np_op Rmult (map (fun a => 1 - a) (alphas_cumprod_prev g))
                      (map sqrt (map (fun b => 1 - b) (betas g))) ;;
      np_op Rdiv c2_num (map (fun a => 1 - a) (alphas_cumprod g)))
     = Ok (posterior_mean_coef2 g).
Proof.
  intros H. split; [|split; [rewrite init_ignores_cosine; exact H|]];
    apply (init_tables _ _ _ _ _ _ _ _ H).
Qed.

Lemma engine_tables_from_linear_schedule_witness :
  exists g, init (fun _ _ _ => []) 128 1000 1000 0.02 (-12) 2 = Ok g
            /\ linear_beta_schedule 1000 0.02 = Ok (betas g)
            /\ init_with (setitem beta_schedule "cosine" (fun _ _ => Ok []))
                         (fun _ _ _ => []) 128 1000 1000 0.02 (-12) 2 = Ok g.
Proof.
  destruct (init_ok (fun _ _ _ => []) 128 1000 1000 0.02 (-12) 2 ltac:(lia)) as (g & Hg).
  exists g. split; [exact Hg|].
  destruct (engine_tables_from_linear_schedule
              (fun _ _ => Ok []) _ _ _ _ _ _ _ g Hg) as (Hb & Hc & _).
  split; assumption.
Defined.

(** ** Broadcasting of tensors in closed form *)

Lemma map2_map_diag {A B C D : Type} (f : B -> C -> D) (g : A -> B) (h : A -> C)
      (l : list A) :
  map2 f (map g l) (map h l) = map (fun a => f (g a) (h a)) l.
Proof.
  induction l as [|a l IH]; simpl; [reflexivity|]. rewrite IH. reflexivity.
Qed.

Lemma length_column (vs : list R) : length (column vs) = length vs.
Proof. apply length_map. Qed.

Lemma tmap_column (g : R -> R) (vs : list R) :
  tmap g (column vs) = column (map g vs).
Proof.
  unfold tmap, column. rewrite !map_map. reflexivity.
Qed.

(** A single scalar against a whole row, sample or tensor. *)
Lemma row_scalar_l (f : R -> R -> R) (v : R) (r : row) :
  bzip (fun a b => Ok (f a b)) [v] r = Ok (map (f v) r).
Proof.
  rewrite bzip_singleton_l. apply mapM_total.
Qed.

Lemma row_scalar_r (f : R -> R -> R) (r : row) (v : R) :
  bzip (fun a b => Ok (f a b)) r [v] = Ok (map (fun u => f u v) r).
Proof.
  rewrite bzip_singleton_r. apply mapM_total.
Qed.

Lemma sample_scalar_l (f : R -> R -> R) (v : R) (s : sample) :
  bzip (bzip (fun a b => Ok (f a b))) [[v]] s = Ok (map (map (f v)) s).
Proof.
  rewrite bzip_singleton_l. apply mapM_ext_ok.
  apply Forall_forall. intros r _. apply row_scalar_l.
Qed.

Lemma sample_scalar_r (f : R -> R -> R) (s : sample) (v : R) :
  bzip (bzip (fun a b => Ok (f a b))) s [[v]] = Ok (map (map (fun u => f u v)) s).
Proof.
  rewrite bzip_singleton_r. apply mapM_ext_ok.
  apply Forall_forall. intros r _. apply row_scalar_r.
Qed.

Lemma tensor_scalar_l (f : R -> R -> R) (v : R) (x : tensor) :
  tensor_op f [[[v]]] x = Ok (tmap (f v) x).
Proof.
  unfold tensor_op. rewrite bzip_singleton_l. apply mapM_ext_ok.
  apply Forall_forall. intros s _. apply sample_scalar_l.
Qed.

Lemma tensor_scalar_r (f : R -> R -> R) (x : tensor) (v : R) :
  tensor_op f x [[[v]]] = Ok (tmap (fun u => f u v) x).
Proof.
  unfold tensor_op. rewrite bzip_singleton_r. apply mapM_ext_ok.
  apply Forall_forall. intros s _. apply sample_scalar_r.
Qed.

(** Two columns of one length. *)
Lemma tensor_op_columns (f : R -> R -> R) (a b : list R) :
  length a = length b ->
  tensor_op f (column a) (column b) = Ok (column (map2 f a b)).
Proof.
  intros H. unfold tensor_op.
  rewrite bzip_same_length by (rewrite !length_column; exact H).
  revert b H. induction a as [|u a IH]; intros [|v b] H; simpl in *;
    try discriminate; [reflexivity|].
  rewrite IH by lia. reflexivity.
Qed.

Lemma tensor_op_columns_map {K : Type} (f : R -> R -> R) (c1 c2 : K -> R) (ks : list K) :
  tensor_op f (column (map c1 ks)) (column (map c2 ks))
  = Ok (column (map (fun k => f (c1 k) (c2 k)) ks)).
Proof.
  rewrite tensor_op_columns by (rewrite !length_map; reflexivity).
  rewrite map2_map_diag. reflexivity.
Qed.

Lemma tmap_column_map {K : Type} (g : R -> R) (c : K -> R) (ks : list K) :
  tmap g (column (map c ks)) = column (map (fun k => g (c k)) ks).
Proof.
  rewrite tmap_column, map_map. reflexivity.
Qed.

Section Pointwise.

Context {K E : Type}.

Lemma tmap_pointwise (g : R -> R) (F : K -> E -> R)
      (ks : list K) (z : list (list (list E))) :
  tmap g (pointwise F ks z) = pointwise (fun k e => g (F k e)) ks z.
Proof.
  unfold tmap, pointwise. revert z.
  induction ks as [|k ks IH]; intros [|s z]; simpl; try reflexivity.
  rewrite IH. f_equal. rewrite map_map.
  apply map_ext. intros r. rewrite !map_map. reflexivity.
Qed.

Lemma pointwise_ext (P : K -> Prop) (F G : K -> E -> R)
      (ks : list K) (z : list (list (list E))) :
  Forall P ks ->
  (forall k e, P k -> F k e = G k e) ->
  pointwise F ks z = pointwise G ks z.
Proof.
  intros HP Hext. unfold pointwise. revert z.
  induction HP as [|k ks Hk _ IH]; intros [|s z]; simpl; try reflexivity.
  rewrite IH. f_equal.
  apply map_ext. intros r. apply map_ext. intros e. apply Hext, Hk.
Qed.

Lemma sample_op_pointwise (f : R -> R -> R) (F G : E -> R) (s : list (list E)) :
  bzip (bzip (fun a b => Ok (f a b))) (map (map F) s) (map (map G) s)
  = Ok (map (map (fun e => f (F e) (G e))) s).
Proof.
  rewrite bzip_same_length by (rewrite !length_map; reflexivity).
  induction s as [|r s IH]; simpl; [reflexivity|].
  rewrite bzip_same_length by (rewrite !length_map; reflexivity).
  rewrite zip_with_total by (rewrite !length_map; reflexivity).
  cbn [bind]. rewrite IH. cbn [bind]. rewrite map2_map_diag. reflexivity.
Qed.

Lemma tensor_op_pointwise (f : R -> R -> R) (F G : K -> E -> R)
      (ks : list K) (z : list (list (list E))) :
  tensor_op f (pointwise F ks z) (pointwise G ks z)
  = Ok (pointwise (fun k e => f (F k e) (G k e)) ks z).
Proof.
  unfold tensor_op, pointwise.
  rewrite bzip_same_length by (rewrite !length_map2; reflexivity).
  revert z. induction ks as [|k ks IH]; intros [|s z]; simpl; try reflexivity.
  rewrite sample_op_pointwise. cbn [bind]. rewrite IH. reflexivity.
Qed.

Variables (t t' : list K) (z : list (list (list E))).
Hypothesis Hlen : length t' = length z.
Hypothesis Hbroadcast : t' = broadcast_to (length z) t.

Lemma broadcast_cases :
  t' = t \/ exists t0, t = [t0] /\ t' = List.repeat t0 (length z).
Proof.
  rewrite Hbroadcast. unfold broadcast_to.
  destruct (length t =? length z)%nat; [left; reflexivity|].
  destruct t as [|t0 [|t1 l]]; [left; reflexivity| |left; reflexivity].
  right. exists t0. split; reflexivity.
Qed.

Lemma pointwise_repeat (F : K -> E -> R) (t0 : K) (w : list (list (list E))) :
  pointwise F (List.repeat t0 (length w)) w = map (map (map (F t0))) w.
Proof.
  unfold pointwise. induction w as [|s w IH]; simpl; [reflexivity|].
  rewrite IH. reflexivity.
Qed.

Lemma tensor_op_column_pointwise (f : R -> R -> R) (c : K -> R) (F : K -> E -> R) :
  tensor_op f (column (map c t)) (pointwise F t' z)
  = Ok (pointwise (fun k e => f (c k) (F k e)) t' z).
Proof.
  destruct broadcast_cases as [->|(t0 & -> & ->)].
  - unfold tensor_op, pointwise.
    rewrite bzip_same_length
      by (rewrite length_column, length_map, length_map2; lia).
    clear Hbroadcast. revert z Hlen.
    induction t as [|k ks IH]; intros [|s w] Hw; simpl in *;
      try discriminate; [reflexivity|].
    rewrite sample_scalar_l. cbn [bind].
    rewrite IH by lia. cbn [bind]. rewrite map_map.
    f_equal. f_equal. apply map_ext. intros r. rewrite map_map. reflexivity.
  - cbn [map column]. rewrite tensor_scalar_l, !pointwise_repeat.
    unfold tmap. rewrite map_map. f_equal.
    apply map_ext. intros s. rewrite map_map.
    apply map_ext. intros r. rewrite map_map. reflexivity.
Qed.

Lemma tensor_op_pointwise_column (f : R -> R -> R) (F : K -> E -> R) (c : K -> R) :
  tensor_op f (pointwise F t' z) (column (map c t))
  = Ok (pointwise (fun k e => f (F k e) (c k)) t' z).
Proof.
  destruct broadcast_cases as [->|(t0 & -> & ->)].
  - unfold tensor_op, pointwise.
    rewrite bzip_same_length
      by (rewrite length_column, length_map, length_map2; lia).
    clear Hbroadcast. revert z Hlen.
    induction t as [|k ks IH]; intros [|s w] Hw; simpl in *;
      try discriminate; [reflexivity|].
    rewrite sample_scalar_r. cbn [bind].
    rewrite IH by lia. cbn [bind]. rewrite map_map.
    f_equal. f_equal. apply map_ext. intros r. rewrite map_map. reflexivity.
  - cbn [map column]. rewrite tensor_scalar_r, !pointwise_repeat.
    unfold tmap. rewrite map_map. f_equal.
    apply map_ext. intros s. rewrite map_map.
    apply map_ext. intros r. rewrite map_map. reflexivity.
Qed.

End Pointwise.

(** ** The normaliser *)

Lemma spec_bound_channel (v : R) (o : Z) : (1 <= o)%Z -> spec_bound v o = [[[v]]].
Proof.
  intros H. unfold spec_bound.
  destruct (Z.leb_spec 1 o); [reflexivity|lia].
Qed.

Lemma init_spec_bounds (d : denoiser) (o T k : Z) (mb smin smax : R)
      (g : GaussianDiffusion) :
  init d o T k mb smin smax = Ok g ->
  spec_min g = spec_bound smin o /\ spec_max g = spec_bound smax o.
Proof.
  intros H. unfold init, init_with in H. rewrite getitem_beta_schedule_linear in H.
  cbn [bind call_with_kw] in H. rewrite String.eqb_refl in H.
  destruct (linear_beta_schedule T mb) as [b|e]; cbn [bind] in H;
    try discriminate.
  repeat match type of H with
         | context [np_op ?f ?a ?c] =>
             destruct (np_op f a c); cbn [bind] in H; try discriminate
         end.
  injection H as <-. split; reflexivity.
Qed.

Lemma tmap_tmap (f g : R -> R) (x : tensor) :
  tmap f (tmap g x) = tmap (fun v => f (g v)) x.
Proof.
  unfold tmap. rewrite map_map. apply map_ext. intros s.
  rewrite map_map. apply map_ext. intros r. apply map_map.
Qed.

Lemma tmap_ext (f g : R -> R) (x : tensor) :
  (forall v, f v = g v) -> tmap f x = tmap g x.
Proof.
  intros H. unfold tmap.
  apply map_ext. intros s. apply map_ext. intros r. apply map_ext. exact H.
Qed.

Lemma tmap_id (x : tensor) : tmap (fun v => v) x = x.
Proof.
  unfold tmap. rewrite <- (map_id x) at 2. apply map_ext. intros s.
  rewrite <- (map_id s) at 2. apply map_ext. intros r. apply map_id.
Qed.

(** With scalar bounds both maps act entry by entry. *)
Lemma norm_spec_scalar (self : GaussianDiffusion) (lo hi : R) (x : tensor) :
  spec_min self = [[[lo]]] -> spec_max self = [[[hi]]] ->
  norm_spec self x = Ok (tmap (fun v => (v - lo) / (hi - lo) * 2 - 1) x).
Proof.
  intros Hlo Hhi. unfold norm_spec, tsub, tdiv. rewrite Hlo, Hhi.
  rewrite !tensor_scalar_r. cbn [bind tmap map].
  rewrite tensor_scalar_r. cbn [bind]. rewrite !tmap_tmap. reflexivity.
Qed.

Lemma denorm_spec_scalar (self : GaussianDiffusion) (lo hi : R) (y : tensor) :
  spec_min self = [[[lo]]] -> spec_max self = [[[hi]]] ->
  denorm_spec self y = Ok (tmap (fun v => (v + 1) / 2 * (hi - lo) + lo) y).
Proof.
  intros Hlo Hhi. unfold denorm_spec, tsub, tmul, tadd. rewrite Hlo, Hhi.
  rewrite !tensor_scalar_r. cbn [bind tmap map].
  rewrite tensor_scalar_r. cbn [bind].
  rewrite tensor_scalar_r. rewrite !tmap_tmap. reflexivity.
Qed.

(** C5, in exact arithmetic: on an engine with at least one output channel
    and distinct bounds, normalising and denormalising give back the tensor,
    entry for entry and for every real entry, inside [spec_min, spec_max] or
    not.  (On binary32 numbers the round trip is approximate only, and not
    within 1e-5: [denorm_spec_norm_spec_float32_exceeds_tolerance].) *)
Theorem denorm_spec_norm_spec
        (d : denoiser) (o T k : Z) (mb smin smax : R) (self : GaussianDiffusion)
        (x : tensor) :
  init d o T k mb smin smax = Ok self ->
  (1 <= o)%Z ->
  smax <> smin ->
  exists y, norm_spec self x = Ok y /\ denorm_spec self y = Ok x.
Proof.
  intros Hinit Ho Hne.
  destruct (init_spec_bounds _ _ _ _ _ _ _ _ Hinit) as [Hlo Hhi].
  rewrite spec_bound_channel in Hlo, Hhi by assumption.
  eexists. split; [apply (norm_spec_scalar self smin smax); assumption|].
  rewrite (denorm_spec_scalar self smin smax) by assumption.
  rewrite tmap_tmap. f_equal. rewrite <- (tmap_id x) at 2.
  apply tmap_ext. intros v. field. lra.
Qed.

Lemma denorm_spec_norm_spec_witness :
  exists self y,
    init (fun _ _ _ => []) 128 1 1 0.02 (-12) 2 = Ok self
    /\ norm_spec self [[[-12; -5; 2]]] = Ok y
    /\ denorm_spec self y = Ok [[[-12; -5; 2]]].
Proof.
  eexists.
  destruct (denorm_spec_norm_spec (fun _ _ _ => []) 128 1 1 0.02 (-12) 2 _
              [[[-12; -5; 2]]] eq_refl ltac:(lia) ltac:(lra)) as (y & Hn & Hd).
  exists y. split; [reflexivity|]. split; assumption.
Defined.

(** The same round trip on binary32 numbers, as the code runs it.  With the
    bounds -100 and 100, the entry 10903358 * 2^-19 (about 20.7965), which
    lies between them, comes back as 10903364 * 2^-19: off by 6 * 2^-19,
    about 1.14e-5, more than the tolerance 1e-5. *)
Lemma denorm_spec_norm_spec_float32_exceeds_tolerance :
  valid_binary 24 128 (S754_finite false 10903358 (-19)) = true
  /\ f32_leb (f32_of_Z (-100)) (S754_finite false 10903358 (-19)) = true
  /\ f32_leb (S754_finite false 10903358 (-19)) (f32_of_Z 100) = true
  /\ f32_value (S754_finite false 10903358 (-19)) = Some (10903358 # 524288)%Q
  /\ f32_value (denorm_spec_f32 (f32_of_Z (-100)) (f32_of_Z 100)
                  (norm_spec_f32 (f32_of_Z (-100)) (f32_of_Z 100)
                                 (S754_finite false 10903358 (-19))))
     = Some (10903364 # 524288)%Q
  /\ (1 # 100000 < Qabs ((10903364 # 524288) - (10903358 # 524288)))%Q.
Proof.
  repeat split; vm_compute; reflexivity.
Qed.

(** ** Table lookups *)

Lemma gather1_in_table (a : list R) (i : Z) :
  in_table a i -> gather1 a i = Ok (lookup a i).
Proof.
  intros [Hlo Hhi]. unfold gather1, lookup.
  destruct (Z.ltb_spec i 0); [lia|].
  destruct (nth_error a (Z.to_nat i)) as [v|] eqn:E.
  - rewrite (nth_error_nth _ _ _ E). reflexivity.
  - apply nth_error_None in E. lia.
Qed.

Lemma extract_in_table (a : list R) (t : list Z) :
  Forall (in_table a) t -> extract a t = Ok (column (map (lookup a) t)).
Proof.
  intros H. unfold extract.
  rewrite (mapM_ext_ok _ (lookup a)); [reflexivity|].
  eapply Forall_impl; [|exact H]. intros i. apply gather1_in_table.
Qed.

Lemma lookup_map (f : R -> R) (a : list R) (i : Z) :
  in_table a i -> lookup (map f a) i = f (lookup a i).
Proof.
  intros [Hlo Hhi]. unfold lookup. apply nth_map_lt. lia.
Qed.

Lemma in_table_map (f : R -> R) (a : list R) (i : Z) :
  in_table a i -> in_table (map f a) i.
Proof.
  unfold in_table. rewrite length_map. auto.
Qed.

Lemma extract_map (f : R -> R) (a : list R) (t : list Z) :
  Forall (in_table a) t ->
  extract (map f a) t = Ok (column (map (fun i => f (lookup a i)) t)).
Proof.
  intros H. rewrite extract_in_table.
  - f_equal. f_equal. apply map_ext_in. intros i Hi.
    apply lookup_map. rewrite Forall_forall in H. auto.
  - eapply Forall_impl; [|exact H]. intros i. apply in_table_map.
Qed.

(** ** Tensors of one shape, entry by entry *)

Lemma length_tzip (x y : tensor) :
  same_shape x y -> length (tzip x y) = length x.
Proof.
  intros H. unfold tzip. rewrite length_map2.
  apply Forall2_length in H. unfold sample, row in *. lia.
Qed.

Lemma row_fst_combine (r1 r2 : row) :
  length r1 = length r2 -> map fst (combine r1 r2) = r1.
Proof.
  revert r2. induction r1 as [|u r1 IH]; intros [|v r2] H; simpl in *;
    try discriminate; [reflexivity|].
  rewrite IH by lia. reflexivity.
Qed.

Lemma row_snd_combine (r1 r2 : row) :
  length r1 = length r2 -> map snd (combine r1 r2) = r2.
Proof.
  revert r2. induction r1 as [|u r1 IH]; intros [|v r2] H; simpl in *;
    try discriminate; [reflexivity|].
  rewrite IH by lia. reflexivity.
Qed.

Lemma sample_fst_combine (s1 s2 : sample) :
  Forall2 (fun r1 r2 : row => length r1 = length r2) s1 s2 ->
  map (map (fun e => fst e)) (map2 (@combine R R) s1 s2) = s1
  /\ map (map (fun e => snd e)) (map2 (@combine R R) s1 s2) = s2.
Proof.
  induction 1 as [|r1 r2 s1 s2 Hr _ [IH1 IH2]]; simpl; [split; reflexivity|].
  rewrite IH1, IH2.
  rewrite (row_fst_combine r1 r2 Hr : map (fun e => fst e) _ = _).
  rewrite (row_snd_combine r1 r2 Hr : map (fun e => snd e) _ = _).
  split; reflexivity.
Qed.

Lemma pointwise_tzip {K : Type} (ks : list K) (x y : tensor) :
  same_shape x y -> length ks = length x ->
  pointwise (fun _ e => fst e) ks (tzip x y) = x
  /\ pointwise (fun _ e => snd e) ks (tzip x y) = y.
Proof.
  intros H. unfold pointwise, tzip. revert ks.
  induction H as [|s1 s2 x y Hs _ IH]; intros [|k ks] Hk; simpl in *;
    try discriminate; [split; reflexivity|].
  destruct (IH ks ltac:(lia)) as [IH1 IH2].
  destruct (sample_fst_combine _ _ Hs) as [H1 H2].
  rewrite IH1, IH2, H1, H2. split; reflexivity.
Qed.

Lemma length_broadcast_to {A : Type} (n : nat) (l : list A) :
  length l = n \/ length l = 1%nat -> length (broadcast_to n l) = n.
Proof.
  intros H. unfold broadcast_to.
  destruct (Nat.eqb_spec (length l) n) as [E|N]; [exact E|].
  destruct H as [H|H]; [contradiction|].
  destruct l as [|a [|b l]]; try discriminate.
  apply repeat_length.
Qed.

Lemma Forall_broadcast_to {A : Type} (P : A -> Prop) (n : nat) (l : list A) :
  Forall P l -> Forall P (broadcast_to n l).
Proof.
  intros H. unfold broadcast_to.
  destruct (length l =? n)%nat; [exact H|].
  destruct l as [|a [|b l]]; try exact H.
  apply Forall_forall. intros v Hv. apply repeat_spec in Hv. subst v.
  inversion H. assumption.
Qed.

(** ** The forward process and its inverse *)

Lemma sqrt_recip_times_sqrt (a : R) : 0 < a -> sqrt (1 / a) * sqrt a = 1.
Proof.
  intros Ha. rewrite <- sqrt_mult.
  - replace (1 / a * a) with 1 by (field; lra). apply sqrt_1.
  - apply Rlt_le, Rdiv_lt_0_compat; lra.
  - lra.
Qed.

Lemma sqrt_recip_times_sqrt_one_minus (a : R) :
  0 < a <= 1 -> sqrt (1 / a) * sqrt (1 - a) = sqrt (1 / a - 1).
Proof.
  intros Ha. rewrite <- sqrt_mult.
  - f_equal. field. lra.
  - apply Rlt_le, Rdiv_lt_0_compat; lra.
  - lra.
Qed.

Lemma predict_start_pointwise (a u v : R) :
  0 < a <= 1 ->
  sqrt (1 / a) * (sqrt a * u + sqrt (1 - a) * v) - sqrt (1 / a - 1) * v = u.
Proof.
  intros Ha.
  rewrite <- (sqrt_recip_times_sqrt_one_minus a Ha).
  pose proof (sqrt_recip_times_sqrt a ltac:(lra)) as H1.
  replace (sqrt (1 / a) * (sqrt a * u + sqrt (1 - a) * v))
    with ((sqrt (1 / a) * sqrt a) * u + sqrt (1 / a) * sqrt (1 - a) * v) by ring.
  rewrite H1. ring.
Qed.

(** C1: on an engine that was built, for a start tensor and a noise tensor
    of one shape and timesteps (one per sample, or one for the whole batch)
    whose cumulative alpha lies in (0, 1], [q_sample] succeeds and
    [predict_start_from_noise] gives back the start tensor exactly. *)
Theorem predict_start_from_noise_q_sample
        (d : denoiser) (o T k : Z) (mb smin smax : R) (self : GaussianDiffusion)
        (x_start noise fresh : tensor) (t : list Z) :
  init d o T k mb smin smax = Ok self ->
  same_shape x_start noise ->
  length t = length x_start \/ length t = 1%nat ->
  Forall (fun ti => in_table (alphas_cumprod self) ti
                    /\ 0 < lookup (alphas_cumprod self) ti <= 1) t ->
  exists x_t,
    q_sample self x_start t (Some noise) fresh = Ok x_t
    /\ predict_start_from_noise self x_t t noise = Ok x_start.
Proof.
  intros Hinit Hshape Hlen Ht.
  destruct (init_tables _ _ _ _ _ _ _ _ Hinit)
    as (_ & _ & _ & _ & Hs & Hs1 & _ & Hr & Hrm1 & _).
  set (ac := alphas_cumprod self) in *.
  assert (Hin : Forall (in_table ac) t).
  { eapply Forall_impl; [|exact Ht]. intros i [H _]. exact H. }
  set (z := tzip x_start noise).
  set (t' := broadcast_to (length z) t).
  assert (Hz : length z = length x_start) by (apply length_tzip; exact Hshape).
  assert (Hlen' : length t' = length z).
  { apply length_broadcast_to. rewrite Hz. exact Hlen. }
  destruct (pointwise_tzip t' x_start noise Hshape ltac:(lia)) as [Hx Hn].
  fold z in Hx, Hn.
  unfold q_sample, predict_start_from_noise, tmul, tadd, tsub, default.
  rewrite Hs, Hs1, Hr, Hrm1, map_map.
  rewrite !extract_map by assumption.
  rewrite <- Hx, <- Hn. cbn [bind].
  rewrite !(tensor_op_column_pointwise t t' z Hlen' eq_refl). cbn [bind].
  rewrite tensor_op_pointwise.
  eexists. split; [reflexivity|].
  rewrite !(tensor_op_column_pointwise t t' z Hlen' eq_refl). cbn [bind].
  rewrite tensor_op_pointwise. f_equal.
  apply (pointwise_ext (fun ti => 0 < lookup ac ti <= 1)).
  - apply Forall_broadcast_to.
    eapply Forall_impl; [|exact Ht]. intros i [_ H]. exact H.
  - intros ti [u v] Hti. cbn [fst snd]. apply predict_start_pointwise, Hti.
Qed.

Lemma predict_start_from_noise_q_sample_witness :
  exists self x_t,
    init (fun _ _ _ => []) 128 1 1 0.02 (-12) 2 = Ok self
    /\ q_sample self [[[0.5; -1]]] [0%Z] (Some [[[1; 0.25]]]) [] = Ok x_t
    /\ predict_start_from_noise self x_t [0%Z] [[[1; 0.25]]] = Ok [[[0.5; -1]]].
Proof.
  eexists.
  assert (Hinit : init (fun _ _ _ => []) 128 1 1 0.02 (-12) 2 = Ok ?[self])
    by reflexivity.
  destruct (predict_start_from_noise_q_sample
              _ _ _ _ _ _ _ _ [[[0.5; -1]]] [[[1; 0.25]]] [] [0%Z] Hinit)
    as (x_t & Hq & Hp).
  - repeat constructor.
  - left. reflexivity.
  - constructor; [|constructor]. split.
    + unfold in_table. simpl. lia.
    + unfold lookup. simpl. lra.
  - exists x_t. split; [exact Hinit|]. split; assumption.
Defined.

(** ** The PLMS extrapolation is the DDIM update *)

Lemma plms_step_pointwise (a p u v : R) :
  0 < a < 1 -> 0 < p < 1 ->
  u + (p - a) * (1 / (sqrt a * (sqrt a + sqrt p)) * u
                 - 1 / (sqrt a * (sqrt ((1 - p) * a) + sqrt ((1 - a) * p))) * v)
  = sqrt p * (u / sqrt a + (sqrt ((1 - p) / p) - sqrt ((1 - a) / a)) * v).
Proof.
  intros Ha Hp.
  rewrite !sqrt_mult by lra.
  rewrite !sqrt_div by lra.
  pose proof (sqrt_lt_R0 a ltac:(lra)) as Hsa.
  pose proof (sqrt_lt_R0 p ltac:(lra)) as Hsp.
  pose proof (sqrt_lt_R0 (1 - a) ltac:(lra)) as Hq.
  pose proof (sqrt_lt_R0 (1 - p) ltac:(lra)) as Hm.
  pose proof (sqrt_sqrt a ltac:(lra)) as Ea.
  pose proof (sqrt_sqrt p ltac:(lra)) as Ep.
  pose proof (sqrt_sqrt (1 - a) ltac:(lra)) as Eq.
  pose proof (sqrt_sqrt (1 - p) ltac:(lra)) as Em.
  set (sa := sqrt a) in *. set (sp := sqrt p) in *.
  set (q := sqrt (1 - a)) in *. set (m := sqrt (1 - p)) in *.
  assert (Hden : 0 < m * sa + q * sp) by nra.
  assert (Hpa : p - a = (sp - sa) * (sa + sp)) by (rewrite <- Ea, <- Ep; ring).
  assert (Hpa' : p - a = - ((m * sa - q * sp) * (m * sa + q * sp))).
  { replace ((m * sa - q * sp) * (m * sa + q * sp))
      with ((m * m) * (sa * sa) - (q * q) * (sp * sp)) by ring.
    rewrite Em, Eq, Ea, Ep. ring. }
  replace ((p - a) * (1 / (sa * (sa + sp)) * u - 1 / (sa * (m * sa + q * sp)) * v))
    with ((p - a) * (1 / (sa * (sa + sp))) * u - (p - a) * (1 / (sa * (m * sa + q * sp))) * v)
    by ring.
  rewrite Hpa at 1. rewrite Hpa'.
  field. repeat split; lra.
Qed.

Lemma extract_prev_timestep (a : list R) (t : list Z) (interval : Z) :
  Forall (fun ti => in_table a (Z.max (ti - interval) 0)) t ->
  extract a (prev_timestep t interval)
  = Ok (column (map (fun ti => lookup a (Z.max (ti - interval) 0)) t)).
Proof.
  intros H. unfold prev_timestep. rewrite extract_in_table.
  - rewrite map_map. reflexivity.
  - apply Forall_map. exact H.
Qed.

(** C2: for a state and a noise prediction of one shape and timesteps (one
    per sample, or one for the batch) whose cumulative alphas, at [t] and at
    [max(t - interval, 0)], lie in (0, 1), [get_x_pred] returns the value of
    the DDIM update rule. *)
Theorem get_x_pred_equals_ddim_rule
        (self : GaussianDiffusion) (interval : Z) (x n : tensor) (t : list Z) :
  same_shape x n ->
  length t = length x \/ length t = 1%nat ->
  Forall (fun ti =>
            (in_table (alphas_cumprod self) ti
             /\ 0 < lookup (alphas_cumprod self) ti < 1)
            /\ (in_table (alphas_cumprod self) (Z.max (ti - interval) 0)
                /\ 0 < lookup (alphas_cumprod self) (Z.max (ti - interval) 0) < 1)) t ->
  exists a_t a_prev x_prev,
    extract (alphas_cumprod self) t = Ok a_t
    /\ extract (alphas_cumprod self) (prev_timestep t interval) = Ok a_prev
    /\ get_x_pred self interval x n t = Ok x_prev
    /\ ddim_rule a_t a_prev x n = Ok x_prev.
Proof.
  intros Hshape Hlen Ht.
  set (ac := alphas_cumprod self) in *.
  assert (Hin : Forall (in_table ac) t).
  { eapply Forall_impl; [|exact Ht]. intros i [[H _] _]. exact H. }
  assert (Hin' : Forall (fun ti => in_table ac (Z.max (ti - interval) 0)) t).
  { eapply Forall_impl; [|exact Ht]. intros i [_ [H _]]. exact H. }
  set (z := tzip x n).
  set (t' := broadcast_to (length z) t).
  assert (Hz : length z = length x) by (apply length_tzip; exact Hshape).
  assert (Hlen' : length t' = length z).
  { apply length_broadcast_to. rewrite Hz. exact Hlen. }
  destruct (pointwise_tzip t' x n Hshape ltac:(lia)) as [Hx Hn].
  fold z in Hx, Hn.
  pose proof (tensor_op_column_pointwise t t' z Hlen' eq_refl) as Hcp.
  pose proof (tensor_op_pointwise_column t t' z Hlen' eq_refl) as Hpc.
  do 3 eexists.
  split; [apply extract_in_table; exact Hin|].
  split; [apply extract_prev_timestep; exact Hin'|].
  unfold get_x_pred, ddim_rule, tadd, tsub, tmul, tdiv, tsqrt.
  rewrite extract_in_table, extract_prev_timestep by assumption.
  rewrite <- Hx, <- Hn. cbn [bind].
  split.
  - repeat first [ rewrite tmap_column_map
                 | rewrite tensor_op_columns_map; cbn [bind]
                 | rewrite Hcp; cbn [bind]
                 | rewrite tmap_pointwise
                 | rewrite tensor_op_pointwise; cbn [bind] ].
    reflexivity.
  - repeat first [ rewrite tmap_column_map
                 | rewrite tensor_op_columns_map; cbn [bind]
                 | rewrite Hcp; cbn [bind]
                 | rewrite Hpc; cbn [bind]
                 | rewrite tmap_pointwise
                 | rewrite tensor_op_pointwise; cbn [bind] ].
    f_equal. symmetry.
    apply (pointwise_ext
             (fun ti => 0 < lookup ac ti < 1
                        /\ 0 < lookup ac (Z.max (ti - interval) 0) < 1)).
    + apply Forall_broadcast_to.
      eapply Forall_impl; [|exact Ht]. intros i [[_ H1] [_ H2]]. split; assumption.
    + intros ti [u v] [Ha Hp]. cbn [fst snd].
      apply plms_step_pointwise; assumption.
Qed.

Lemma get_x_pred_equals_ddim_rule_witness :
  exists self a_t a_prev x_prev,
    init (fun _ _ _ => []) 128 2 2 0.02 (-12) 2 = Ok self
    /\ extract (alphas_cumprod self) [1%Z] = Ok a_t
    /\ extract (alphas_cumprod self) (prev_timestep [1%Z] 1) = Ok a_prev
    /\ a_t <> a_prev
    /\ get_x_pred self 1 [[[0.5; -1]]] [[[1; 0.25]]] [1%Z] = Ok x_prev
    /\ ddim_rule a_t a_prev [[[0.5; -1]]] [[[1; 0.25]]] = Ok x_prev.
Proof.
  eexists.
  assert (Hinit : init (fun _ _ _ => []) 128 2 2 0.02 (-12) 2 = Ok ?[self])
    by reflexivity.
  match type of Hinit with
  | _ = Ok ?s =>
      destruct (get_x_pred_equals_ddim_rule s 1 [[[0.5; -1]]] [[[1; 0.25]]] [1%Z])
      as (a_t & a_prev & x_prev & Ht & Hp & Hg & Hd)
  end.
  - repeat constructor.
  - left. reflexivity.
  - constructor; [|constructor].
    unfold in_table, lookup. simpl. repeat split; try lia; lra.
  - exists a_t, a_prev, x_prev. split; [exact Hinit|].
    split; [exact Ht|]. split; [exact Hp|]. split; [|split; assumption].
    intros E. rewrite E, <- Hp in Ht.
    unfold extract, prev_timestep, gather1 in Ht. simpl in Ht.
    injection Ht as Hv. lra.
Defined.

(** ** The final ancestral step ignores the fresh noise *)

Lemma zip_with_length {A B C : Type} (f : A -> B -> result C)
      (xs : list A) (ys : list B) (zs : list C) :
  zip_with f xs ys = Ok zs -> length zs = length xs /\ length xs = length ys.
Proof.
  revert ys zs. induction xs as [|x xs IH]; intros [|y ys] zs H; simpl in H;
    try discriminate.
  - injection H as <-. split; reflexivity.
  - destruct (f x y) as [c|]; cbn [bind] in H; [|discriminate].
    destruct (zip_with f xs ys) as [cs|] eqn:E; cbn [bind] in H; [|discriminate].
    injection H as <-. destruct (IH _ _ E). simpl. split; congruence.
Qed.

Lemma mapM_length {A B : Type} (f : A -> result B) (l : list A) (bs : list B) :
  mapM f l = Ok bs -> length bs = length l.
Proof.
  revert bs. induction l as [|a l IH]; intros bs H; simpl in H.
  - injection H as <-. reflexivity.
  - destruct (f a) as [b|]; cbn [bind] in H; [|discriminate].
    destruct (mapM f l) as [bs'|] eqn:E; cbn [bind] in H; [|discriminate].
    injection H as <-. simpl. rewrite (IH _ eq_refl). reflexivity.
Qed.

(** Combining a result of a binary operation with a neutral image of its
    right operand gives the result back, along every axis of broadcasting. *)
Section Absorb.

Context {A B C : Type}.
Variables (f : A -> B -> result C) (g : C -> B -> result C) (h : B -> B).
Hypothesis Hneutral : forall x y z, f x y = Ok z -> g z (h y) = Ok z.

Lemma zip_with_absorb (xs : list A) (ys : list B) (zs : list C) :
  zip_with f xs ys = Ok zs -> zip_with g zs (map h ys) = Ok zs.
Proof.
  revert ys zs. induction xs as [|x xs IH]; intros [|y ys] zs H; simpl in H;
    try discriminate.
  - injection H as <-. reflexivity.
  - destruct (f x y) as [c|] eqn:Ec; cbn [bind] in H; [|discriminate].
    destruct (zip_with f xs ys) as [cs|] eqn:E; cbn [bind] in H; [|discriminate].
    injection H as <-. simpl.
    rewrite (Hneutral _ _ _ Ec), (IH _ _ E). reflexivity.
Qed.

Lemma mapM_absorb_l (x : A) (ys : list B) (zs : list C) :
  mapM (fun y => f x y) ys = Ok zs -> zip_with g zs (map h ys) = Ok zs.
Proof.
  revert zs. induction ys as [|y ys IH]; intros zs H; simpl in H.
  - injection H as <-. reflexivity.
  - destruct (f x y) as [c|] eqn:Ec; cbn [bind] in H; [|discriminate].
    destruct (mapM (fun y => f x y) ys) as [cs|] eqn:E; cbn [bind] in H;
      [|discriminate].
    injection H as <-. simpl.
    rewrite (Hneutral _ _ _ Ec), (IH _ eq_refl). reflexivity.
Qed.

Lemma mapM_absorb_r (xs : list A) (y : B) (zs : list C) :
  mapM (fun x => f x y) xs = Ok zs -> mapM (fun z => g z (h y)) zs = Ok zs.
Proof.
  revert zs. induction xs as [|x xs IH]; intros zs H; simpl in H.
  - injection H as <-. reflexivity.
  - destruct (f x y) as [c|] eqn:Ec; cbn [bind] in H; [|discriminate].
    destruct (mapM (fun x => f x y) xs) as [cs|] eqn:E; cbn [bind] in H;
      [|discriminate].
    injection H as <-. simpl.
    rewrite (Hneutral _ _ _ Ec), (IH _ eq_refl). reflexivity.
Qed.

Lemma bzip_absorb (xs : list A) (ys : list B) (zs : list C) :
  bzip f xs ys = Ok zs -> bzip g zs (map h ys) = Ok zs.
Proof.
  intros H.
  destruct (Nat.eq_dec (length xs) (length ys)) as [E|N].
  - rewrite bzip_same_length in H by exact E.
    destruct (zip_with_length _ _ _ _ H) as [Hz _].
    rewrite bzip_same_length by (rewrite length_map; congruence).
    apply (zip_with_absorb xs), H.
  - destruct xs as [|x [|x' xs]].
    + destruct ys as [|y [|y' ys]]; try (simpl in N; congruence).
      * rewrite bzip_singleton_r in H. cbn [map]. rewrite bzip_singleton_r.
        exact (mapM_absorb_r _ _ _ H).
      * unfold bzip in H. simpl in H. discriminate.
    + rewrite bzip_singleton_l in H.
      rewrite bzip_same_length
        by (rewrite length_map; apply (mapM_length _ _ _ H)).
      exact (mapM_absorb_l _ _ _ H).
    + destruct ys as [|y [|y' ys]].
      * unfold bzip in H. simpl in H. discriminate.
      * rewrite bzip_singleton_r in H. cbn [map]. rewrite bzip_singleton_r.
        exact (mapM_absorb_r _ _ _ H).
      * unfold bzip in H.
        destruct (length (x :: x' :: xs) =? length (y :: y' :: ys))%nat eqn:E.
        -- apply Nat.eqb_eq in E. contradiction.
        -- discriminate.
Qed.

End Absorb.

Lemma tadd_zeros (m1 m2 mean : tensor) :
  tadd m1 m2 = Ok mean -> tadd mean (tmap (fun _ => 0) m2) = Ok mean.
Proof.
  unfold tadd, tensor_op, tmap. apply bzip_absorb.
  intros s1 s2 s. apply bzip_absorb.
  intros r1 r2 r. apply bzip_absorb.
  intros u v w H. injection H as <-. f_equal. ring.
Qed.

Lemma pointwise_entries {K : Type} (ks : list K) (x : tensor) :
  length ks = length x -> pointwise (fun _ e => e) ks x = x.
Proof.
  unfold pointwise. revert x.
  induction ks as [|k ks IH]; intros [|s x] H; simpl in *; try discriminate;
    [reflexivity|].
  rewrite IH by lia. f_equal.
  rewrite <- (map_id s) at 2. apply map_ext. intros r. apply map_id.
Qed.

Lemma pointwise_constant {K : Type} (c : R) (ks : list K) (x : tensor) :
  length ks = length x -> pointwise (fun _ _ => c) ks x = tmap (fun _ => c) x.
Proof.
  unfold pointwise, tmap. revert x.
  induction ks as [|k ks IH]; intros [|s x] H; simpl in *; try discriminate;
    [reflexivity|].
  rewrite IH by lia. reflexivity.
Qed.

Lemma tmap_constant_same_shape (c : R) (x y : tensor) :
  same_shape x y -> tmap (fun _ => c) x = tmap (fun _ => c) y.
Proof.
  unfold tmap. induction 1 as [|s1 s2 x y Hs _ IH]; simpl; [reflexivity|].
  rewrite IH. f_equal.
  induction Hs as [|r1 r2 s1 s2 Hr _ IHs]; simpl; [reflexivity|].
  rewrite IHs. f_equal.
  revert r2 Hr. induction r1 as [|u r1 IHr]; intros [|v r2] Hr; simpl in *;
    try discriminate; [reflexivity|].
  rewrite (IHr r2) by lia. reflexivity.
Qed.

Lemma broadcast_to_same_length {A : Type} (n : nat) (l : list A) :
  length l = n -> broadcast_to n l = l.
Proof.
  intros H. unfold broadcast_to. rewrite H, Nat.eqb_refl. reflexivity.
Qed.

(** A column against a tensor with as many samples. *)
Lemma tensor_op_column (f : R -> R -> R) (cs : list R) (x : tensor) :
  length cs = length x ->
  tensor_op f (column cs) x = Ok (pointwise f cs x).
Proof.
  intros H.
  pose proof (tensor_op_column_pointwise
                cs cs x H (eq_sym (broadcast_to_same_length _ _ H))
                f (fun k => k) (fun _ e => e)) as E.
  rewrite map_id, pointwise_entries in E by exact H. exact E.
Qed.

Lemma extract_inv (a : list R) (t : list Z) (c : tensor) :
  extract a t = Ok c -> exists vs, c = column vs /\ length vs = length t.
Proof.
  unfold extract. intros H.
  destruct (mapM (gather1 a) t) as [vs|] eqn:E; cbn [bind] in H; [|discriminate].
  injection H as <-. exists vs. split; [reflexivity|].
  apply (mapM_length _ _ _ E).
Qed.

Lemma q_posterior_inv (self : GaussianDiffusion) (x_start x_t : tensor) (t : list Z)
      (mean var lv : tensor) :
  q_posterior self x_start x_t t = Ok (mean, var, lv) ->
  exists m1 m2 c2s lvs,
    length c2s = length t
    /\ tmul (column c2s) x_t = Ok m2
    /\ tadd m1 m2 = Ok mean
    /\ lv = column lvs
    /\ length lvs = length t.
Proof.
  unfold q_posterior. intros H.
  destruct (extract (posterior_mean_coef1 self) t) as [c1|]; cbn [bind] in H;
    [|discriminate].
  destruct (tmul c1 x_start) as [m1|]; cbn [bind] in H; [|discriminate].
  destruct (extract (posterior_mean_coef2 self) t) as [c2|] eqn:E2;
    cbn [bind] in H; [|discriminate].
  destruct (tmul c2 x_t) as [m2|] eqn:Em2; cbn [bind] in H; [|discriminate].
  destruct (tadd m1 m2) as [pm|] eqn:Epm; cbn [bind] in H; [|discriminate].
  destruct (extract (posterior_variance self) t) as [pv|]; cbn [bind] in H;
    [|discriminate].
  destruct (extract (posterior_log_variance_clipped self) t) as [plv|] eqn:Elv;
    cbn [bind] in H; [|discriminate].
  injection H as <- <- <-.
  destruct (extract_inv _ _ _ E2) as (c2s & -> & Hc2).
  destruct (extract_inv _ _ _ Elv) as (lvs & -> & Hlv).
  exists m1, m2, c2s, lvs. repeat split; assumption.
Qed.

Lemma p_mean_variance_inv (self : GaussianDiffusion) (x : tensor) (t : list Z)
      (cond : tensor) (reference_mel : option tensor) (s s' : mstate)
      (mean var lv : tensor) :
  p_mean_variance self x t cond reference_mel s = (Ok (mean, var, lv), s') ->
  exists m1 m2 c2s lvs,
    length c2s = length t
    /\ tmul (column c2s) x = Ok m2
    /\ tadd m1 m2 = Ok mean
    /\ lv = column lvs
    /\ length lvs = length t.
Proof.
  unfold p_mean_variance, bindM, lift, call_denoise. intros H.
  destruct (cat x cond) as [inp|]; [|discriminate].
  destruct (predict_start_from_noise self x t _) as [xr|]; [|discriminate].
  destruct (q_posterior self _ x t) as [[[pm pv] plv]|] eqn:E; [|discriminate].
  injection H as <- <- <- _.
  apply (q_posterior_inv _ _ _ _ _ _ _ E).
Qed.

(** At timestep 0 the mask is 0 and the sample is the posterior mean. *)
Lemma p_sample_at_zero (self : GaussianDiffusion) (x : tensor) (t : list Z)
      (cond : tensor) (reference_mel : option tensor)
      (repeat_noise : bool) (z : tensor) (s : mstate) :
  Forall (fun ti => ti = 0%Z) t ->
  length t = length x ->
  same_shape (noise_like (length x) repeat_noise z) x ->
  p_sample self x t cond reference_mel repeat_noise z s
  = (' (mean, _, _) <~ p_mean_variance self x t cond reference_mel ;; ret mean) s.
Proof.
  intros Hzero Hlen Hshape. unfold p_sample, bindM.
  destruct (p_mean_variance self x t cond reference_mel s) as [[[[mean var] lv]|e] s']
    eqn:E; [|reflexivity].
  destruct (p_mean_variance_inv _ _ _ _ _ _ _ _ _ _ E)
    as (m1 & m2 & c2s & lvs & Hc2 & Hm2 & Hmean & -> & Hlvs).
  set (noise := noise_like (length x) repeat_noise z) in *.
  assert (Hn : length noise = length x).
  { apply Forall2_length in Hshape. exact Hshape. }
  unfold lift, nonzero_mask, ret. rewrite Hlen, Nat.eqb_refl.
  unfold texp, tmul. rewrite !tmap_column.
  rewrite tensor_op_columns by (rewrite !length_map; congruence).
  cbn [bind].
  rewrite tensor_op_column by (rewrite length_map2, !length_map; lia).
  cbn [bind]. f_equal.
  unfold tmul in Hm2. rewrite tensor_op_column in Hm2 by congruence.
  injection Hm2 as <-.
  rewrite <- (tadd_zeros _ _ _ Hmean) at 1. f_equal.
  rewrite tmap_pointwise, pointwise_constant by congruence.
  rewrite <- (tmap_constant_same_shape 0 noise x Hshape).
  rewrite <- (pointwise_constant 0 (map2 Rmult
       (map (fun ti : Z => 1 - (if (ti =? 0)%Z then 1 else 0)) t)
       (map exp (map (fun v => 0.5 * v) lvs))) noise)
    by (rewrite length_map2, !length_map; lia).
  apply (pointwise_ext (fun w => w = 0)).
  - clear - Hzero Hlvs. revert lvs Hlvs.
    induction Hzero as [|ti t Hti _ IH]; intros [|l lvs] Hl; simpl in *;
      try discriminate; constructor.
    + subst ti. simpl. ring.
    + apply IH. lia.
  - intros w e Hw. rewrite Hw. ring.
Qed.

(** C7: when every timestep of the batch is 0, two runs of [p_sample] that
    differ in the fresh noise only give the same result, the posterior
    mean. *)
Theorem p_sample_at_zero_ignores_noise
        (self : GaussianDiffusion) (x : tensor) (t : list Z)
        (cond : tensor) (reference_mel : option tensor)
        (repeat_noise : bool) (z1 z2 : tensor) (s : mstate) :
  Forall (fun ti => ti = 0%Z) t ->
  length t = length x ->
  same_shape (noise_like (length x) repeat_noise z1) x ->
  same_shape (noise_like (length x) repeat_noise z2) x ->
  p_sample self x t cond reference_mel repeat_noise z1 s
  = p_sample self x t cond reference_mel repeat_noise z2 s
  /\ p_sample self x t cond reference_mel repeat_noise z1 s
     = (' (mean, _, _) <~ p_mean_variance self x t cond reference_mel ;; ret mean) s.
Proof.
  intros Hzero Hlen H1 H2.
  rewrite !p_sample_at_zero by assumption. split; reflexivity.
Qed.

Lemma p_sample_at_zero_ignores_noise_witness :
  exists self,
    init (fun _ _ _ => [[[0]]]) 128 1 1 0.02 (-12) 2 = Ok self
    /\ p_sample self [[[0.5]]] [0%Z] [[[1]]] None false [[[3]]] fresh_state
       = p_sample self [[[0.5]]] [0%Z] [[[1]]] None false [[[-2]]] fresh_state
    /\ p_sample self [[[0.5]]] [0%Z] [[[1]]] None false [[[3]]] fresh_state
       = (' (mean, _, _) <~ p_mean_variance self [[[0.5]]] [0%Z] [[[1]]] None ;;
          ret mean) fresh_state.
Proof.
  eexists. split; [reflexivity|].
  apply p_sample_at_zero_ignores_noise.
  - repeat constructor.
  - reflexivity.
  - repeat constructor.
  - repeat constructor.
Defined.

(** The final step of a one-step engine does produce a tensor. *)
Example p_sample_at_zero_runs :
  exists self mean s',
    init (fun _ _ _ => [[[0]]]) 128 1 1 0.02 (-12) 2 = Ok self
    /\ p_sample self [[[0.5]]] [0%Z] [[[1]]] None false [[[3]]] fresh_state
       = (Ok mean, s')
    /\ length (calls s') = 1%nat.
Proof.
  eexists. eexists. eexists. split; [reflexivity|].
  rewrite p_sample_at_zero by (repeat constructor).
  split; [reflexivity|reflexivity].
Qed.

(** ** The PLMS sampler: oracle calls and noise history *)

Ltac run_M :=
  unfold bindM, lift, ret, raise, get_noise_list, set_noise_list, call_denoise;
  cbn [fst snd calls noise_list].

(** Case analysis on the innermost fallible step of a run. *)
Ltac destruct_step :=
  match goal with
  | |- context [match ?r with Ok _ => _ | Err _ => _ end] =>
      lazymatch r with
      | context [match _ with Ok _ => _ | Err _ => _ end] => fail
      | _ => destruct r eqn:?
      end
  end.

Lemma py_max_single (e k : Z) :
  py_max [e] k = Ok (if (e <? k)%Z then TInt k else TTensor [e]).
Proof. reflexivity. Qed.

Lemma py_max_batch (v : list Z) (k : Z) :
  length v <> 1%nat -> py_max v k = Err RuntimeError.
Proof.
  destruct v as [|e [|e' v]]; simpl; intros H; try reflexivity. congruence.
Qed.

(** What a step of [p_sample_plms] does to the deque: a step that returns
    has appended the noise prediction of its first oracle call, a step that
    raises has left the deque alone. *)
Lemma p_sample_plms_noise_list (self : GaussianDiffusion) (x : tensor) (t : list Z)
      (interval : Z) (cond : tensor) (reference_mel : option tensor) (s : mstate) :
  match p_sample_plms self x t interval cond reference_mel s with
  | (Ok _, s') =>
      exists input,
        cat x cond = Ok input
        /\ noise_list s'
           = deque_append 4 (noise_list s)
                          (denoise_fn self input (TTensor t) reference_mel)
  | (Err _, s') => noise_list s' = noise_list s
  end.
Proof.
  unfold p_sample_plms. run_M.
  destruct (cat x cond) as [input|]; [|reflexivity].
  destruct (noise_list s) as [|n1 [|n2 [|n3 l]]] eqn:Hl; cbn [length];
    repeat destruct_step; cbn [fst snd calls noise_list];
    try reflexivity; exists input; split; reflexivity.
Qed.

Lemma deque_append_cases {A : Type} (d : list A) (v : A) :
  deque_append 4 d v
  = if (length d <? 4)%nat then d ++ [v] else tl d ++ [v].
Proof.
  unfold deque_append. rewrite length_app. cbn [length].
  destruct (Nat.ltb_spec 4 (length d + 1)), (Nat.ltb_spec (length d) 4);
    try lia; try reflexivity.
  destruct d; [simpl in *; lia|reflexivity].
Qed.

Lemma length_deque_append {A : Type} (d : list A) (v : A) :
  (length d <= 4)%nat ->
  length (deque_append 4 d v) = Nat.min (S (length d)) 4.
Proof.
  intros H. rewrite deque_append_cases.
  destruct (Nat.ltb_spec (length d) 4).
  - rewrite length_app. simpl. lia.
  - rewrite length_app. destruct d; simpl in *; lia.
Qed.

Lemma for_each_app {A S : Type} (pre post : list A) (body : A -> S -> M S) (x : S)
      (s : mstate) :
  for_each (pre ++ post) body x s
  = (x' <~ for_each pre body x ;; for_each post body x') s.
Proof.
  revert x s. induction pre as [|i pre IH]; intros x s; simpl.
  - reflexivity.
  - unfold bindM. unfold bindM in IH.
    destruct (body i x s) as [[x'|e] s1]; [|reflexivity].
    apply IH.
Qed.

(** The deque along a loop of PLMS steps: a loop that completes has pushed
    one entry per step onto a deque that holds four at most, and a loop that
    raises leaves a deque within the bound. *)
Lemma plms_loop_history (self : GaussianDiffusion) (b : nat) (interval : Z)
      (cond : tensor) (reference_mel : option tensor)
      (items : list Z) (x : tensor) (s : mstate) :
  (length (noise_list s) <= 4)%nat ->
  match for_each items
                 (fun i x => p_sample_plms self x (List.repeat i b) interval
                                           cond reference_mel) x s with
  | (Ok _, s') =>
      length (noise_list s') = Nat.min (length (noise_list s) + length items) 4
  | (Err _, s') => (length (noise_list s') <= 4)%nat
  end.
Proof.
  revert x s. induction items as [|i items IH]; intros x s Hs.
  - simpl. unfold ret. cbn [length]. lia.
  - cbn [for_each]. unfold bindM.
    pose proof (p_sample_plms_noise_list self x (List.repeat i b) interval
                                         cond reference_mel s) as Hstep.
    destruct (p_sample_plms self x (List.repeat i b) interval cond reference_mel s)
      as [[x'|e] s1].
    + destruct Hstep as (input & _ & Hs1).
      assert (Hlen1 : length (noise_list s1) = Nat.min (S (length (noise_list s))) 4).
      { rewrite Hs1. apply length_deque_append, Hs. }
      specialize (IH x' s1 ltac:(lia)).
      destruct (for_each items _ x' s1) as [[y|e] s2]; cbn [length]; lia.
    + rewrite Hstep. exact Hs.
Qed.

Lemma forward_sample_pndm (self : GaussianDiffusion) (ext : solvers) (rng : draws)
      (b : nat) (cond : tensor) (reference_mel : option tensor)
      (infer_speedup : Z) (use_tqdm : bool) (t : Z) (x : tensor) :
  (1 < infer_speedup)%Z ->
  forward_sample self ext rng b cond reference_mel infer_speedup (Some "pndm"%string)
                 use_tqdm t x
  = (_ <~ set_noise_list [] ;;
     for_each (rev (py_range t infer_speedup))
              (fun i x => p_sample_plms self x (List.repeat i b) infer_speedup
                                        cond reference_mel) x).
Proof.
  intros H. unfold forward_sample.
  destruct (Z.ltb_spec 1 infer_speedup); [|lia].
  change (String.eqb "pndm" "dpm-solver") with false.
  change (String.eqb "pndm" "unipc") with false.
  change (String.eqb "pndm" "pndm") with true.
  cbv iota. unfold tqdm_tqdm. destruct use_tqdm; reflexivity.
Qed.

(** C8: a step of [p_sample_plms] that returns has pushed exactly one entry,
    the noise prediction of its first oracle call, dropping the oldest entry
    of a deque that already held four; a [pndm] run starts by emptying the
    deque, whatever it held, and after every prefix of its steps the deque
    holds four entries at most (one per step until the bound is reached). *)
Theorem plms_history_bounded_fifo
        (self : GaussianDiffusion) (ext : solvers) (rng : draws) (b : nat)
        (cond : tensor) (reference_mel : option tensor)
        (infer_speedup : Z) (use_tqdm : bool) (t : Z) (x : tensor) (s : mstate)
        (pre post : list Z) :
  (1 < infer_speedup)%Z ->
  rev (py_range t infer_speedup) = pre ++ post ->
  let body := fun i x => p_sample_plms self x (List.repeat i b) infer_speedup
                                       cond reference_mel in
  let started := _ <~ set_noise_list [] ;; for_each pre body x in
  (forall i y s0 y' s1,
      body i y s0 = (Ok y', s1) ->
      exists input,
        cat y cond = Ok input
        /\ noise_list s1
           = let noise_pred :=
               denoise_fn self input (TTensor (List.repeat i b)) reference_mel in
             if (length (noise_list s0) <? 4)%nat
             then noise_list s0 ++ [noise_pred]
             else tl (noise_list s0) ++ [noise_pred])
  /\ noise_list (snd (set_noise_list [] s)) = []
  /\ forward_sample self ext rng b cond reference_mel infer_speedup
                    (Some "pndm"%string) use_tqdm t x s
     = (y <~ started ;; for_each post body y) s
  /\ match started s with
     | (Ok _, s') => length (noise_list s') = Nat.min (length pre) 4
     | (Err _, s') => (length (noise_list s') <= 4)%nat
     end.
Proof.
  intros Hspeed Hsteps body started.
  split; [|split; [reflexivity|split]].
  - intros i y s0 y' s1 Hstep.
    pose proof (p_sample_plms_noise_list self y (List.repeat i b) infer_speedup
                                         cond reference_mel s0) as H.
    unfold body in Hstep. rewrite Hstep in H.
    destruct H as (input & Hcat & Hs1). exists input. split; [exact Hcat|].
    rewrite Hs1. apply deque_append_cases.
  - rewrite forward_sample_pndm by exact Hspeed. rewrite Hsteps.
    unfold started, bindM, set_noise_list.
    rewrite for_each_app. unfold bindM. fold body.
    destruct (for_each pre body x _) as [[y|e] s1]; reflexivity.
  - unfold started. unfold bindM, set_noise_list.
    pose proof (plms_loop_history self b infer_speedup cond reference_mel pre x
                  {| calls := calls s; noise_list := [] |}) as H.
    cbn [noise_list length] in H. specialize (H ltac:(lia)).
    exact H.
Qed.

Lemma plms_history_bounded_fifo_witness :
  exists self,
    init (fun _ ts _ => match ts with
                        | TTensor [i] => [[[IZR i]]]
                        | _ => [[[0]]]
                        end) 128 9 9 0.02 (-12) 2 = Ok self
    /\ (1 < 2)%Z
    /\ rev (py_range 9 2) = [8; 6; 4; 2; 0]%Z ++ []
    /\ let run :=
         forward_sample self
                        {| dpm_solver_sample := fun _ x _ _ _ => ret x;
                           uni_pc_sample := fun _ x _ _ _ => ret x |}
                        {| randn_init := [[[0.5]]];
                           randn_step := fun _ => [[[0]]];
                           randint := [] |}
                        1 [[[1]]] None 2 (Some "pndm"%string) true 9 [[[0.5]]]
                        {| calls := []; noise_list := [[[[7]]]; [[[7]]]; [[[7]]]] |} in
       match fst run with Ok _ => True | Err _ => False end
       /\ noise_list (snd run) = [[[[6]]]; [[[4]]]; [[[2]]]; [[[0]]]]
       /\ length (noise_list (snd run)) = Nat.min (length [8; 6; 4; 2; 0]%Z) 4.
Proof.
  eexists.
  assert (Hinit : init (fun _ ts _ => match ts with
                                      | TTensor [i] => [[[IZR i]]]
                                      | _ => [[[0]]]
                                      end) 128 9 9 0.02 (-12) 2 = Ok ?[self])
    by reflexivity.
  split; [exact Hinit|]. split; [lia|]. split; [reflexivity|].
  intros run.
  assert (Hok : match fst run with Ok _ => True | Err _ => False end) by exact I.
  split; [exact Hok|]. split; [reflexivity|].
  match type of Hinit with
  | _ = Ok ?g =>
      destruct (plms_history_bounded_fifo
                  g
                  {| dpm_solver_sample := fun _ x _ _ _ => ret x;
                     uni_pc_sample := fun _ x _ _ _ => ret x |}
                  {| randn_init := [[[0.5]]];
                     randn_step := fun _ => [[[0]]];
                     randint := [] |}
                  1 [[[1]]] None 2 true 9 [[[0.5]]]
                  {| calls := []; noise_list := [[[[7]]]; [[[7]]]; [[[7]]]] |}
                  [8; 6; 4; 2; 0]%Z [] ltac:(lia) eq_refl)
      as (_ & _ & Hdecomp & Hbound)
  end.
  fold run in Hdecomp. unfold bindM at 1 in Hdecomp.
  match type of Hbound with
  | match ?started with _ => _ end =>
      destruct started as [[y0|e] s0]
  end.
  - cbn [for_each] in Hdecomp. unfold ret in Hdecomp.
    rewrite Hdecomp. exact Hbound.
  - rewrite Hdecomp in Hok. destruct Hok.
Defined.

(** A five-step run on a nine-step engine whose denoiser answers with its
    timestep: the run completes, makes six oracle calls (two in the bootstrap
    step) and ends with the last four predictions, the first one evicted. *)
Example plms_run_evicts_oldest :
  exists self,
    init (fun _ ts _ => match ts with
                        | TTensor [i] => [[[IZR i]]]
                        | _ => [[[0]]]
                        end) 128 9 9 0.02 (-12) 2 = Ok self
    /\ let run :=
         forward_sample self
                        {| dpm_solver_sample := fun _ x _ _ _ => ret x;
                           uni_pc_sample := fun _ x _ _ _ => ret x |}
                        {| randn_init := [[[0.5]]];
                           randn_step := fun _ => [[[0]]];
                           randint := [] |}
                        1 [[[1]]] None 2 (Some "pndm"%string) true 9 [[[0.5]]]
                        {| calls := []; noise_list := [[[[7]]]; [[[7]]]; [[[7]]]] |} in
       match fst run with Ok _ => True | Err _ => False end
       /\ noise_list (snd run) = [[[[6]]]; [[[4]]]; [[[2]]]; [[[0]]]]
       /\ map call_t (calls (snd run))
          = [TTensor [8%Z]; TTensor [6%Z]; TTensor [6%Z]; TTensor [4%Z];
             TTensor [2%Z]; TTensor [0%Z]].
Proof.
  eexists. split; [reflexivity|].
  intros run. split; [exact I|]. split; reflexivity.
Qed.

(** The oracle calls of the bootstrap step, when the step gets as far as its
    second call. *)
Lemma p_sample_plms_bootstrap_calls (self : GaussianDiffusion) (x : tensor) (t : list Z)
      (interval : Z) (cond : tensor) (reference_mel : option tensor) (s : mstate)
      (input x_pred input' : tensor) (t_next : timestep) :
  noise_list s = [] ->
  cat x cond = Ok input ->
  get_x_pred self interval x (denoise_fn self input (TTensor t) reference_mel) t
  = Ok x_pred ->
  cat x_pred cond = Ok input' ->
  py_max (map (fun ti => ti - interval)%Z t) 0 = Ok t_next ->
  calls (snd (p_sample_plms self x t interval cond reference_mel s))
  = calls s ++ [ {| call_input := input;
                    call_t := TTensor t;
                    call_reference := reference_mel |};
                 {| call_input := input';
                    call_t := t_next;
                    call_reference := reference_mel |} ].
Proof.
  intros Hl Hcat Hpred Hcat' Hmax.
  unfold p_sample_plms. run_M.
  rewrite Hcat, Hl. cbn [length]. rewrite Hpred, Hcat', Hmax.
  cbn [fst snd calls noise_list].
  repeat destruct_step; cbn [fst snd calls noise_list];
    rewrite <- app_assoc; reflexivity.
Qed.

(** With more than one sample (or none) in the batch, the bootstrap step
    raises when it compares the tensor [t - interval] with 0, after its first
    oracle call and before the second. *)
Lemma p_sample_plms_bootstrap_batch (self : GaussianDiffusion) (x : tensor) (t : list Z)
      (interval : Z) (cond : tensor) (reference_mel : option tensor) (s : mstate)
      (input x_pred input' : tensor) :
  noise_list s = [] ->
  length t <> 1%nat ->
  cat x cond = Ok input ->
  get_x_pred self interval x (denoise_fn self input (TTensor t) reference_mel) t
  = Ok x_pred ->
  cat x_pred cond = Ok input' ->
  p_sample_plms self x t interval cond reference_mel s
  = (Err RuntimeError,
     {| calls := calls s ++ [ {| call_input := input;
                                 call_t := TTensor t;
                                 call_reference := reference_mel |} ];
        noise_list := [] |}).
Proof.
  intros Hl Ht Hcat Hpred Hcat'.
  unfold p_sample_plms. run_M.
  rewrite Hcat, Hl. cbn [length]. rewrite Hpred, Hcat'.
  rewrite py_max_batch by (rewrite length_map; exact Ht).
  reflexivity.
Qed.

(** C3, as stated, fails: at timestep 0 with interval 10 the extra call of
    the bootstrap step is issued at the Python int 0, not at the unclamped
    [0 - 10]. *)
Lemma p_sample_plms_bootstrap_floors_at_zero :
  exists self y s',
    init (fun _ _ _ => [[[0]]]) 128 1 1 0.02 (-12) 2 = Ok self
    /\ noise_list fresh_state = []
    /\ p_sample_plms self [[[0.5]]] [0%Z] 10 [[[1]]] None fresh_state = (Ok y, s')
    /\ map call_t (calls s') = [TTensor [0%Z]; TInt 0]
    /\ TInt 0 <> TTensor [(0 - 10)%Z].
Proof.
  eexists. eexists. eexists. split; [reflexivity|]. split; [reflexivity|].
  split; [reflexivity|]. split; [reflexivity|]. discriminate.
Qed.

(** C3 (amended): in the bootstrap branch (empty history), on a batch of one
    sample at timestep [t0], the extra oracle call is issued at
    [max(t0 - interval, 0)]: at the tensor [t0 - interval] when that is not
    negative, and at the int 0 when it is. *)
Theorem p_sample_plms_bootstrap_second_call
        (self : GaussianDiffusion) (x : tensor) (t0 interval : Z)
        (cond : tensor) (reference_mel : option tensor) (s : mstate)
        (input x_pred input' : tensor) :
  noise_list s = [] ->
  cat x cond = Ok input ->
  get_x_pred self interval x (denoise_fn self input (TTensor [t0]) reference_mel) [t0]
  = Ok x_pred ->
  cat x_pred cond = Ok input' ->
  calls (snd (p_sample_plms self x [t0] interval cond reference_mel s))
  = calls s ++ [ {| call_input := input;
                    call_t := TTensor [t0];
                    call_reference := reference_mel |};
                 {| call_input := input';
                    call_t := if (t0 - interval <? 0)%Z
                              then TInt 0
                              else TTensor [(t0 - interval)%Z];
                    call_reference := reference_mel |} ].
Proof.
  intros Hl Hcat Hpred Hcat'.
  apply (p_sample_plms_bootstrap_calls self x [t0] interval cond reference_mel s
           input x_pred input'); try assumption.
  apply py_max_single.
Qed.

Lemma p_sample_plms_bootstrap_second_call_witness :
  exists self,
    init (fun _ _ _ => [[[0]]]) 128 1 1 0.02 (-12) 2 = Ok self
    /\ map call_t
           (calls (snd (p_sample_plms self [[[0.5]]] [0%Z] 10 [[[1]]] None fresh_state)))
       = [TTensor [0%Z]; TInt 0].
Proof.
  eexists. split; [reflexivity|].
  match goal with
  | |- context [p_sample_plms ?self _ _ _ _ _ _] =>
      pose proof (p_sample_plms_bootstrap_second_call
                    self [[[0.5]]] 0 10 [[[1]]] None fresh_state
                    _ _ _ eq_refl eq_refl eq_refl eq_refl) as H
  end.
  etransitivity; [apply f_equal; exact H|reflexivity].
Defined.

(** ** The raw ancestral path of the entry point *)

Lemma forward_sample_ancestral_tqdm
      (self : GaussianDiffusion) (ext : solvers) (rng : draws) (b : nat)
      (cond : tensor) (reference_mel : option tensor)
      (infer_speedup : Z) (method : option string) (t : Z) (x : tensor) (s : mstate) :
  method = None \/ (infer_speedup <= 1)%Z ->
  forward_sample self ext rng b cond reference_mel infer_speedup method true t x s
  = (Err TypeError, s).
Proof.
  intros H. unfold forward_sample.
  destruct method as [m|].
  - destruct H as [H|H]; [discriminate|].
    destruct (Z.ltb_spec 1 infer_speedup); [lia|]. reflexivity.
  - reflexivity.
Qed.

(** C10: an inference call that reaches the raw ancestral loop (no method,
    or a speed-up of 1 or less) with the progress bar on raises [TypeError]
    at the call of the [tqdm] module, before any sampling step: no oracle
    call is made and the state is untouched. *)
Theorem forward_ancestral_tqdm_raises
        (self : GaussianDiffusion) (ext : solvers) (rng : draws)
        (condition : tensor) (reference_mel gt_spec : option tensor)
        (infer_speedup : Z) (method : option string) (k_step_arg : option Z)
        (t : Z) (x : tensor) (s : mstate) :
  forward_start self rng gt_spec k_step_arg = Ok (t, x) ->
  (1 <= t)%Z ->
  method = None \/ (infer_speedup <= 1)%Z ->
  forward self ext rng condition reference_mel gt_spec true infer_speedup method
          k_step_arg true s
  = (Err TypeError, s).
Proof.
  intros Hstart _ Hpath. unfold forward. cbn [negb].
  unfold bindM at 1. unfold lift at 1. rewrite Hstart.
  unfold bindM. rewrite forward_sample_ancestral_tqdm by exact Hpath.
  reflexivity.
Qed.

Lemma forward_ancestral_tqdm_raises_witness :
  exists self,
    init (fun _ _ _ => [[[0]]]) 128 1 1 0.02 (-12) 2 = Ok self
    /\ forward self
               {| dpm_solver_sample := fun _ x _ _ _ => ret x;
                  uni_pc_sample := fun _ x _ _ _ => ret x |}
               {| randn_init := [[[0.5]]];
                  randn_step := fun _ => [[[0]]];
                  randint := [] |}
               [[[1]]] None None true 10 None None true fresh_state
       = (Err TypeError, fresh_state).
Proof.
  eexists. split; [reflexivity|].
  apply (forward_ancestral_tqdm_raises _ _ _ _ _ _ _ _ _ 1 [[[0.5]]]).
  - reflexivity.
  - lia.
  - left. reflexivity.
Defined.

(** Without the progress bar the same call runs the ancestral loop. *)
Example forward_ancestral_without_tqdm_runs :
  exists self y s',
    init (fun _ _ _ => [[[0]]]) 128 1 1 0.02 (-12) 2 = Ok self
    /\ forward self
               {| dpm_solver_sample := fun _ x _ _ _ => ret x;
                  uni_pc_sample := fun _ x _ _ _ => ret x |}
               {| randn_init := [[[0.5]]];
                  randn_step := fun _ => [[[0]]];
                  randint := [] |}
               [[[1]]] None None true 10 None None false fresh_state
       = (Ok (Spec y), s')
    /\ length (calls s') = 1%nat.
Proof.
  eexists. eexists. eexists. split; [reflexivity|].
  split; reflexivity.
Qed.

(** ** The coefficient tables of a built engine *)

Lemma linspace_length (start stop : R) (num : Z) (y : ndarray) :
  linspace start stop num = Ok y -> length y = Z.to_nat num.
Proof.
  unfold linspace. destruct (Z.ltb_spec num 0) as [?|Hnum]; [discriminate|].
  intros Hy. injection Hy as <-.
  assert (Hlen : forall f g : R -> R,
             length (map f (map g (arange (Z.to_nat num)))) = Z.to_nat num).
  { intros f g. rewrite !length_map. apply length_arange. }
  destruct (Z.ltb_spec 1 num).
  - rewrite length_set_last.
    + destruct (0 <? num - 1)%Z; apply Hlen.
    + intros E. apply (f_equal (@length R)) in E.
      destruct (0 <? num - 1)%Z; rewrite Hlen in E; simpl in E; lia.
  - destruct (0 <? num - 1)%Z; apply Hlen.
Qed.

(** The tables the constructor computes with numpy broadcasting, in closed
    form, for an engine of one timestep or more. *)
Lemma init_posterior_tables (d : denoiser) (o T k : Z) (mb smin smax : R)
      (g : GaussianDiffusion) :
  init d o T k mb smin smax = Ok g ->
  (1 <= T)%Z ->
  length (betas g) = Z.to_nat T
  /\ posterior_variance g
     = map2 Rdiv (map2 Rmult (betas g) (map (fun a => 1 - a) (alphas_cumprod_prev g)))
            (map (fun a => 1 - a) (alphas_cumprod g))
  /\ posterior_mean_coef1 g
     = map2 Rdiv (map2 Rmult (betas g) (map sqrt (alphas_cumprod_prev g)))
            (map (fun a => 1 - a) (alphas_cumprod g))
  /\ posterior_mean_coef2 g
     = map2 Rdiv (map2 Rmult (map (fun a => 1 - a) (alphas_cumprod_prev g))
                       (map sqrt (map (fun b => 1 - b) (betas g))))
            (map (fun a => 1 - a) (alphas_cumprod g)).
Proof.
  intros Hinit HT.
  destruct (init_tables _ _ _ _ _ _ _ _ Hinit)
    as (Hb & _ & Hac & Hprev & _ & _ & _ & _ & _ & Hpv & _ & Hc1 & Hc2).
  assert (Hlen : length (betas g) = Z.to_nat T).
  { apply (linspace_length 1e-4 mb). exact Hb. }
  assert (Hlac : length (alphas_cumprod g) = length (betas g)).
  { rewrite Hac, length_cumprod, length_map. reflexivity. }
  assert (Hlprev : length (alphas_cumprod_prev g) = length (betas g)).
  { rewrite Hprev. cbn [length]. rewrite length_removelast, Hlac. lia. }
  split; [exact Hlen|].
  rewrite !np_op_same_length in Hpv, Hc1, Hc2
    by (repeat first [rewrite length_map | rewrite length_map2]; lia).
  cbn [bind] in Hpv, Hc1, Hc2.
  rewrite !np_op_same_length in Hpv, Hc1, Hc2
    by (repeat first [rewrite length_map | rewrite length_map2]; lia).
  injection Hpv as <-. injection Hc1 as <-. injection Hc2 as <-.
  repeat split; reflexivity.
Qed.

Lemma init_lengths (d : denoiser) (o T k : Z) (mb smin smax : R)
      (g : GaussianDiffusion) :
  init d o T k mb smin smax = Ok g ->
  (1 <= T)%Z ->
  num_timesteps g = T
  /\ Forall (fun table => length table = Z.to_nat T)
            [ betas g; alphas_cumprod g; alphas_cumprod_prev g;
              sqrt_alphas_cumprod g; sqrt_one_minus_alphas_cumprod g;
              log_one_minus_alphas_cumprod g; sqrt_recip_alphas_cumprod g;
              sqrt_recipm1_alphas_cumprod g; posterior_variance g;
              posterior_log_variance_clipped g; posterior_mean_coef1 g;
              posterior_mean_coef2 g ].
Proof.
  intros Hinit HT.
  destruct (init_posterior_tables _ _ _ _ _ _ _ _ Hinit HT)
    as (Hlen & Hpv & Hc1 & Hc2).
  destruct (init_tables _ _ _ _ _ _ _ _ Hinit)
    as (_ & Hn & Hac & Hprev & Hs & Hs1 & Hl1 & Hr & Hrm1 & _ & Hplv & _ & _).
  assert (Hlac : length (alphas_cumprod g) = Z.to_nat T).
  { rewrite Hac, length_cumprod, length_map. exact Hlen. }
  assert (Hlprev : length (alphas_cumprod_prev g) = Z.to_nat T).
  { rewrite Hprev. cbn [length]. rewrite length_removelast, Hlac. lia. }
  split; [rewrite Hn, Hlen; lia|].
  assert (Hlpv : length (posterior_variance g) = Z.to_nat T).
  { rewrite Hpv. repeat first [rewrite length_map | rewrite length_map2]. lia. }
  repeat constructor; try assumption.
  - rewrite Hs, length_map. exact Hlac.
  - rewrite Hs1, !length_map. exact Hlac.
  - rewrite Hl1, !length_map. exact Hlac.
  - rewrite Hr, length_map. exact Hlac.
  - rewrite Hrm1, length_map. exact Hlac.
  - rewrite Hplv, length_map. exact Hlpv.
  - rewrite Hc1. repeat first [rewrite length_map | rewrite length_map2]. lia.
  - rewrite Hc2. repeat first [rewrite length_map | rewrite length_map2]. lia.
Qed.

(** X1: on an engine built with one timestep or more, [num_timesteps] is the
    requested count and every coefficient table has exactly that many
    entries. *)
Theorem init_table_lengths (d : denoiser) (o T k : Z) (mb smin smax : R)
        (g : GaussianDiffusion) :
  init d o T k mb smin smax = Ok g ->
  (1 <= T)%Z ->
  num_timesteps g = T
  /\ Forall (fun table => length table = Z.to_nat T)
            [ betas g; alphas_cumprod g; alphas_cumprod_prev g;
              sqrt_alphas_cumprod g; sqrt_one_minus_alphas_cumprod g;
              log_one_minus_alphas_cumprod g; sqrt_recip_alphas_cumprod g;
              sqrt_recipm1_alphas_cumprod g; posterior_variance g;
              posterior_log_variance_clipped g; posterior_mean_coef1 g;
              posterior_mean_coef2 g ].
Proof.
  apply init_lengths.
Qed.

Lemma init_table_lengths_witness :
  exists g, init (fun _ _ _ => []) 128 1000 1000 0.02 (-12) 2 = Ok g
            /\ num_timesteps g = 1000%Z
            /\ length (alphas_cumprod g) = 1000%nat
            /\ length (posterior_mean_coef2 g) = 1000%nat.
Proof.
  destruct (init_ok (fun _ _ _ => []) 128 1000 1000 0.02 (-12) 2 ltac:(lia)) as (g & Hg).
  exists g. split; [exact Hg|].
  destruct (init_table_lengths _ _ _ _ _ _ _ g Hg ltac:(lia)) as (Hn & Hall).
  split; [exact Hn|].
  rewrite Forall_forall in Hall.
  split; apply Hall; simpl; tauto.
Defined.

Lemma removelast_cons_nonempty {A : Type} (a : A) (l : list A) :
  l <> [] -> removelast (a :: l) = a :: removelast l.
Proof.
  destruct l; [congruence|reflexivity].
Qed.

Lemma cumprod_from_step (acc : R) (a : ndarray) (i : nat) :
  (i < length a)%nat ->
  nth i (cumprod_from acc a) 0
  = nth i (acc :: removelast (cumprod_from acc a)) 0 * nth i a 0.
Proof.
  revert acc i. induction a as [|v a IH]; intros acc i Hi; simpl in Hi; [lia|].
  destruct i as [|j].
  - reflexivity.
  - cbn [cumprod_from].
    rewrite removelast_cons_nonempty.
    + cbn [nth]. apply IH. lia.
    + intros E. apply (f_equal (@length R)) in E.
      rewrite length_cumprod_from in E. simpl in E. lia.
Qed.

Lemma alphas_cumprod_step (d : denoiser) (o T k : Z) (mb smin smax : R)
      (g : GaussianDiffusion) (t : Z) :
  init d o T k mb smin smax = Ok g ->
  (0 <= t < T)%Z ->
  lookup (alphas_cumprod g) t
  = lookup (alphas_cumprod_prev g) t * (1 - lookup (betas g) t)
  /\ lookup (alphas_cumprod_prev g) t
     = (if (t =? 0)%Z then 1 else lookup (alphas_cumprod g) (t - 1)).
Proof.
  intros Hinit Ht.
  destruct (init_tables _ _ _ _ _ _ _ _ Hinit) as (Hb & _ & Hac & Hprev & _).
  assert (Hlen : length (betas g) = Z.to_nat T).
  { apply (linspace_length 1e-4 mb). exact Hb. }
  unfold lookup. split.
  - rewrite Hprev, Hac. unfold cumprod.
    rewrite cumprod_from_step by (rewrite length_map; lia).
    f_equal. apply (nth_map_lt (fun b => 1 - b)). lia.
  - rewrite Hprev. destruct (Z.eqb_spec t 0) as [->|Hne]; [reflexivity|].
    replace (Z.to_nat t) with (S (Z.to_nat (t - 1))) by lia.
    cbn [nth]. rewrite removelast_firstn_len, nth_firstn.
    assert (Hlac : length (alphas_cumprod g) = Z.to_nat T).
    { rewrite Hac, length_cumprod, length_map. exact Hlen. }
    destruct (Nat.ltb_spec (Z.to_nat (t - 1)) (pred (length (alphas_cumprod g))));
      [reflexivity|lia].
Qed.

(** X2: the cumulative products obey alpha_bar[t] = alpha_bar_prev[t] *
    (1 - beta[t]) at every timestep, where alpha_bar_prev is alpha_bar
    shifted by one step and starts at 1. *)
Theorem alphas_cumprod_recurrence (d : denoiser) (o T k : Z) (mb smin smax : R)
        (g : GaussianDiffusion) (t : Z) :
  init d o T k mb smin smax = Ok g ->
  (0 <= t < T)%Z ->
  lookup (alphas_cumprod g) t
  = lookup (alphas_cumprod_prev g) t * (1 - lookup (betas g) t)
  /\ lookup (alphas_cumprod_prev g) t
     = (if (t =? 0)%Z then 1 else lookup (alphas_cumprod g) (t - 1)).
Proof.
  apply alphas_cumprod_step.
Qed.

Lemma alphas_cumprod_recurrence_witness :
  exists g, init (fun _ _ _ => []) 128 1000 1000 0.02 (-12) 2 = Ok g
            /\ lookup (alphas_cumprod g) 500
               = lookup (alphas_cumprod g) 499 * (1 - lookup (betas g) 500).
Proof.
  destruct (init_ok (fun _ _ _ => []) 128 1000 1000 0.02 (-12) 2 ltac:(lia)) as (g & Hg).
  exists g. split; [exact Hg|].
  destruct (alphas_cumprod_recurrence _ _ _ _ _ _ _ g 500 Hg ltac:(lia)) as (H1 & H2).
  rewrite H1, H2. reflexivity.
Defined.

(** The betas of the linear schedule lie between 1e-4 and [max_beta]. *)
Lemma linear_beta_schedule_bounds (T : Z) (max_beta : R) (b : ndarray) (i : nat) :
  linear_beta_schedule T max_beta = Ok b ->
  1e-4 <= max_beta ->
  (i < length b)%nat ->
  1e-4 <= nth i b 0 <= max_beta.
Proof.
  intros Hb Hmax Hi.
  pose proof (linspace_length _ _ _ _ Hb) as Hlen.
  destruct (Z_lt_le_dec T 2) as [Hsmall|Hbig].
  - assert (T = 1%Z) by lia. subst T.
    rewrite linear_beta_schedule_one in Hb. injection Hb as <-.
    destruct i as [|i]; [|simpl in Hi; lia]. simpl. lra.
  - destruct (linspace_progression 1e-4 max_beta T Hbig) as (y & Hy & _ & Hnth).
    unfold linear_beta_schedule in Hb. rewrite Hy in Hb. injection Hb as <-.
    rewrite Hnth by lia.
    assert (Hpos : 0 < IZR (T - 1)) by (apply IZR_lt; lia).
    assert (Hi0 : 0 <= INR i) by apply pos_INR.
    assert (Hi1 : INR i <= IZR (T - 1)).
    { rewrite INR_IZR_INZ. apply IZR_le. lia. }
    assert (H0 : 0 <= INR i * ((max_beta - 1e-4) / IZR (T - 1))).
    { apply Rmult_le_pos; [exact Hi0|]. apply Rle_mult_inv_pos; lra. }
    assert (H1 : INR i * ((max_beta - 1e-4) / IZR (T - 1)) <= max_beta - 1e-4).
    { replace (INR i * ((max_beta - 1e-4) / IZR (T - 1)))
        with ((max_beta - 1e-4) * (INR i / IZR (T - 1))) by (field; lra).
      rewrite <- (Rmult_1_r (max_beta - 1e-4)) at 2.
      apply Rmult_le_compat_l; [lra|].
      apply Rmult_le_reg_r with (IZR (T - 1)); [exact Hpos|].
      replace (INR i / IZR (T - 1) * IZR (T - 1)) with (INR i) by (field; lra).
      lra. }
    lra.
Qed.

Lemma cumprod_from_bounds (acc : R) (a : ndarray) :
  0 < acc <= 1 ->
  Forall (fun v => 0 < v < 1) a ->
  Forall (fun c => 0 < c < 1) (cumprod_from acc a).
Proof.
  intros Hacc Ha. revert acc Hacc.
  induction Ha as [|v a Hv _ IH]; intros acc Hacc; simpl; constructor.
  - nra.
  - apply IH. nra.
Qed.

Lemma Forall_nth_lt (P : R -> Prop) (l : list R) :
  (forall i, (i < length l)%nat -> P (nth i l 0)) -> Forall P l.
Proof.
  intros H. apply Forall_forall. intros v Hv.
  destruct (In_nth _ _ 0 Hv) as (i & Hi & <-). apply H, Hi.
Qed.

Lemma alphas_cumprod_bounds
      (d : denoiser) (o T k : Z) (mb smin smax : R) (g : GaussianDiffusion) (t : Z) :
  init d o T k mb smin smax = Ok g ->
  1e-4 <= mb < 1 ->
  (0 <= t < T)%Z ->
  in_table (alphas_cumprod g) t
  /\ 1e-4 <= lookup (betas g) t <= mb
  /\ 0 < lookup (alphas_cumprod g) t < 1.
Proof.
  intros Hinit Hmb Ht.
  destruct (init_tables _ _ _ _ _ _ _ _ Hinit) as (Hb & _ & Hac & _).
  assert (Hlen : length (betas g) = Z.to_nat T).
  { apply (linspace_length 1e-4 mb). exact Hb. }
  assert (Hlac : length (alphas_cumprod g) = Z.to_nat T).
  { rewrite Hac, length_cumprod, length_map. exact Hlen. }
  split; [unfold in_table; lia|].
  split.
  - apply (linear_beta_schedule_bounds T mb); [exact Hb|lra|lia].
  - assert (Hall : Forall (fun c => 0 < c < 1) (alphas_cumprod g)).
    { rewrite Hac. apply cumprod_from_bounds; [lra|].
      apply Forall_map. apply Forall_nth_lt. intros i Hi.
      pose proof (linear_beta_schedule_bounds T mb _ i Hb ltac:(lra) Hi). lra. }
    rewrite Forall_forall in Hall. apply Hall. unfold lookup.
    apply nth_In. lia.
Qed.

(** X3: on an engine built with 1e-4 <= max_beta < 1, every beta lies in
    [1e-4, max_beta] and every cumulative alpha lies strictly between 0 and
    1, so the hypotheses of the inversion and extrapolation theorems hold at
    every timestep of the table. *)
Theorem alphas_cumprod_in_unit_interval
        (d : denoiser) (o T k : Z) (mb smin smax : R) (g : GaussianDiffusion) (t : Z) :
  init d o T k mb smin smax = Ok g ->
  1e-4 <= mb < 1 ->
  (0 <= t < T)%Z ->
  in_table (alphas_cumprod g) t
  /\ 1e-4 <= lookup (betas g) t <= mb
  /\ 0 < lookup (alphas_cumprod g) t < 1.
Proof.
  apply alphas_cumprod_bounds.
Qed.

Lemma alphas_cumprod_in_unit_interval_witness :
  exists g, init (fun _ _ _ => []) 128 1000 1000 0.02 (-12) 2 = Ok g
            /\ 0 < lookup (alphas_cumprod g) 999 < 1.
Proof.
  destruct (init_ok (fun _ _ _ => []) 128 1000 1000 0.02 (-12) 2 ltac:(lia)) as (g & Hg).
  exists g. split; [exact Hg|].
  apply (alphas_cumprod_in_unit_interval _ _ _ _ _ _ _ g 999 Hg); [lra|lia].
Defined.

(** X4, in exact arithmetic: under the same condition the cumulative alphas,
    as real numbers, decrease strictly with the timestep: each noising step
    keeps less of the signal.  (The float table of the code rounds these
    products; with [max_beta] close to 1 they underflow to 0 late in the
    table, and from there on the table is constant.) *)
Theorem alphas_cumprod_strictly_decreasing
        (d : denoiser) (o T k : Z) (mb smin smax : R) (g : GaussianDiffusion) :
  init d o T k mb smin smax = Ok g ->
  1e-4 <= mb < 1 ->
  strictly_decreasing (alphas_cumprod g).
Proof.
  intros Hinit Hmb i Hi.
  destruct (init_tables _ _ _ _ _ _ _ _ Hinit) as (Hb & _ & Hac & _).
  assert (Hlen : length (betas g) = Z.to_nat T).
  { apply (linspace_length 1e-4 mb). exact Hb. }
  assert (Hlac : length (alphas_cumprod g) = Z.to_nat T).
  { rewrite Hac, length_cumprod, length_map. exact Hlen. }
  assert (HT : (Z.of_nat (S i) < T)%Z) by lia.
  destruct (alphas_cumprod_step _ _ _ _ _ _ _ g (Z.of_nat (S i)) Hinit
              ltac:(lia)) as (H1 & H2).
  destruct (Z.eqb_spec (Z.of_nat (S i)) 0) as [E|_]; [lia|].
  destruct (alphas_cumprod_bounds _ _ _ _ _ _ _ g (Z.of_nat (S i)) Hinit Hmb
              ltac:(lia)) as (_ & Hbeta & _).
  destruct (alphas_cumprod_bounds _ _ _ _ _ _ _ g (Z.of_nat i) Hinit Hmb
              ltac:(lia)) as (_ & _ & Hprev).
  unfold lookup in *.
  replace (Z.to_nat (Z.of_nat (S i) - 1)) with i in H2 by lia.
  rewrite Nat2Z.id in *.
  rewrite H1, H2. nra.
Qed.

Lemma alphas_cumprod_strictly_decreasing_witness :
  exists g, init (fun _ _ _ => []) 128 1000 1000 0.02 (-12) 2 = Ok g
            /\ strictly_decreasing (alphas_cumprod g).
Proof.
  destruct (init_ok (fun _ _ _ => []) 128 1000 1000 0.02 (-12) 2 ltac:(lia)) as (g & Hg).
  exists g. split; [exact Hg|].
  apply (alphas_cumprod_strictly_decreasing _ _ _ _ _ _ _ g Hg). lra.
Defined.

(** X5: under the same condition the two coefficients of [q_sample] square
    to 1 together at every timestep, so noising keeps unit variance. *)
Theorem q_sample_coefficients_unit
        (d : denoiser) (o T k : Z) (mb smin smax : R) (g : GaussianDiffusion) (t : Z) :
  init d o T k mb smin smax = Ok g ->
  1e-4 <= mb < 1 ->
  (0 <= t < T)%Z ->
  (lookup (sqrt_alphas_cumprod g) t) ^ 2
  + (lookup (sqrt_one_minus_alphas_cumprod g) t) ^ 2 = 1.
Proof.
  intros Hinit Hmb Ht.
  destruct (alphas_cumprod_bounds _ _ _ _ _ _ _ g t Hinit Hmb Ht) as (Hin & _ & Ha).
  destruct (init_tables _ _ _ _ _ _ _ _ Hinit) as (_ & _ & _ & _ & Hs & Hs1 & _).
  rewrite Hs, Hs1, map_map, !lookup_map by assumption.
  simpl. rewrite !Rmult_1_r, !sqrt_sqrt by lra. ring.
Qed.

Lemma q_sample_coefficients_unit_witness :
  exists g, init (fun _ _ _ => []) 128 1000 1000 0.02 (-12) 2 = Ok g
            /\ (lookup (sqrt_alphas_cumprod g) 999) ^ 2
               + (lookup (sqrt_one_minus_alphas_cumprod g) 999) ^ 2 = 1.
Proof.
  destruct (init_ok (fun _ _ _ => []) 128 1000 1000 0.02 (-12) 2 ltac:(lia)) as (g & Hg).
  exists g. split; [exact Hg|].
  apply (q_sample_coefficients_unit _ _ _ _ _ _ _ g 999 Hg); [lra|lia].
Defined.

(** The first beta of the linear schedule is 1e-4. *)
Lemma linear_beta_schedule_first (T : Z) (max_beta : R) (b : ndarray) :
  linear_beta_schedule T max_beta = Ok b ->
  (1 <= T)%Z ->
  exists bs, b = 1e-4 :: bs.
Proof.
  intros Hb HT.
  pose proof (linspace_length _ _ _ _ Hb) as Hlen.
  destruct b as [|b0 bs]; [simpl in Hlen; lia|].
  exists bs. f_equal.
  destruct (Z_lt_le_dec T 2) as [Hsmall|Hbig].
  - assert (T = 1%Z) by lia. subst T.
    rewrite linear_beta_schedule_one in Hb. injection Hb as <- _. simpl. lra.
  - destruct (linspace_progression 1e-4 max_beta T Hbig) as (y & Hy & _ & Hnth).
    unfold linear_beta_schedule in Hb. rewrite Hy in Hb. injection Hb as ->.
    specialize (Hnth 0%nat ltac:(lia)). simpl in Hnth. lra.
Qed.

Lemma Rmax_floor (v : R) : v <= 0 -> Rmax v 1e-20 = 1e-20.
Proof.
  intros H. apply Rmax_right. lra.
Qed.

(** The entries of the posterior tables at timestep 0. *)
Lemma posterior_tables_at_zero (d : denoiser) (o T k : Z) (mb smin smax : R)
      (g : GaussianDiffusion) :
  init d o T k mb smin smax = Ok g ->
  (1 <= T)%Z ->
  lookup (posterior_variance g) 0 = 0
  /\ lookup (posterior_log_variance_clipped g) 0 = ln 1e-20
  /\ lookup (posterior_mean_coef1 g) 0 = 1
  /\ lookup (posterior_mean_coef2 g) 0 = 0.
Proof.
  intros Hinit HT.
  destruct (init_posterior_tables _ _ _ _ _ _ _ _ Hinit HT)
    as (_ & Hpv & Hc1 & Hc2).
  destruct (init_tables _ _ _ _ _ _ _ _ Hinit)
    as (Hb & _ & Hac & Hprev & _ & _ & _ & _ & _ & _ & Hplv & _).
  destruct (linear_beta_schedule_first _ _ _ Hb HT) as (bs & Ebs).
  rewrite Hplv, Hpv, Hc1, Hc2, Hprev, Hac, Ebs.
  unfold lookup. cbn [Z.to_nat Pos.to_nat map cumprod cumprod_from map2 nth].
  assert (E0 : 1e-4 * (1 - 1) / (1 - 1 * (1 - 1e-4)) = 0) by (field; lra).
  repeat split.
  - exact E0.
  - rewrite E0. rewrite Rmax_floor by lra. reflexivity.
  - rewrite sqrt_1. field; lra.
  - field; lra.
Qed.

(** X6: at timestep 0 the posterior variance is 0, its clipped logarithm
    sits on the floor log(1e-20), and the posterior mean puts weight 1 on
    the predicted start and weight 0 on the current state. *)
Theorem posterior_at_timestep_zero (d : denoiser) (o T k : Z) (mb smin smax : R)
        (g : GaussianDiffusion) :
  init d o T k mb smin smax = Ok g ->
  (1 <= T)%Z ->
  lookup (posterior_variance g) 0 = 0
  /\ lookup (posterior_log_variance_clipped g) 0 = ln 1e-20
  /\ lookup (posterior_mean_coef1 g) 0 = 1
  /\ lookup (posterior_mean_coef2 g) 0 = 0.
Proof.
  apply posterior_tables_at_zero.
Qed.

Lemma posterior_at_timestep_zero_witness :
  exists g, init (fun _ _ _ => []) 128 1000 1000 0.02 (-12) 2 = Ok g
            /\ lookup (posterior_mean_coef1 g) 0 = 1
            /\ lookup (posterior_log_variance_clipped g) 0 = ln 1e-20.
Proof.
  destruct (init_ok (fun _ _ _ => []) 128 1000 1000 0.02 (-12) 2 ltac:(lia)) as (g & Hg).
  exists g. split; [exact Hg|].
  destruct (posterior_at_timestep_zero _ _ _ _ _ _ _ g Hg ltac:(lia))
    as (_ & Hl & H1 & _).
  split; assumption.
Defined.

(** ** The last ancestral step *)

Lemma same_shape_tmap_l (f : R -> R) (x y : tensor) :
  same_shape x y -> same_shape (tmap f x) y.
Proof.
  unfold same_shape, tmap. induction 1 as [|s1 s2 x y Hs _ IH]; simpl;
    constructor; [|exact IH].
  induction Hs as [|r1 r2 s1 s2 Hr _ IHs]; simpl; constructor; [|exact IHs].
  rewrite length_map. exact Hr.
Qed.

Lemma clamp_entries_in (lo hi : R) (x : tensor) :
  lo <= hi -> entries_in lo hi (clamp lo hi x).
Proof.
  intros H. unfold entries_in, clamp, tmap.
  apply Forall_map, Forall_forall. intros s _.
  apply Forall_map, Forall_forall. intros r _.
  apply Forall_map, Forall_forall. intros v _.
  unfold Rmin, Rmax.
  destruct (Rle_dec v lo); destruct (Rle_dec _ hi); lra.
Qed.

Lemma Forall_in_table_zero (a : list R) (t : list Z) :
  (0 < length a)%nat -> Forall (fun ti => ti = 0%Z) t -> Forall (in_table a) t.
Proof.
  intros Ha Ht. eapply Forall_impl; [|exact Ht].
  intros ti ->. unfold in_table. lia.
Qed.

(** At timestep 0 the posterior mean is the predicted start itself. *)
Lemma q_posterior_at_zero (d : denoiser) (o T k : Z) (mb smin smax : R)
      (self : GaussianDiffusion) (x_start x_t : tensor) (t : list Z) :
  init d o T k mb smin smax = Ok self ->
  (1 <= T)%Z ->
  Forall (fun ti => ti = 0%Z) t ->
  length t = length x_t ->
  same_shape x_start x_t ->
  q_posterior self x_start x_t t
  = Ok (x_start,
        column (map (lookup (posterior_variance self)) t),
        column (map (lookup (posterior_log_variance_clipped self)) t)).
Proof.
  intros Hinit HT Hzero Hlen Hshape.
  destruct (init_lengths _ _ _ _ _ _ _ _ Hinit HT) as (_ & Hall).
  rewrite Forall_forall in Hall.
  assert (Hpos : forall table,
             In table [ betas self; alphas_cumprod self; alphas_cumprod_prev self;
                        sqrt_alphas_cumprod self; sqrt_one_minus_alphas_cumprod self;
                        log_one_minus_alphas_cumprod self; sqrt_recip_alphas_cumprod self;
                        sqrt_recipm1_alphas_cumprod self; posterior_variance self;
                        posterior_log_variance_clipped self; posterior_mean_coef1 self;
                        posterior_mean_coef2 self ] ->
             Forall (in_table table) t).
  { intros table Hin. apply Forall_in_table_zero; [|exact Hzero].
    rewrite (Hall table Hin). lia. }
  destruct (posterior_tables_at_zero _ _ _ _ _ _ _ _ Hinit HT) as (_ & _ & H1 & H2).
  set (z := tzip x_start x_t).
  assert (Hz : length z = length x_start) by (apply length_tzip; exact Hshape).
  assert (Hxx : length x_start = length x_t).
  { apply Forall2_length in Hshape. exact Hshape. }
  assert (Hlen' : length t = length z) by congruence.
  destruct (pointwise_tzip t x_start x_t Hshape ltac:(congruence)) as [Hx Hn].
  fold z in Hx, Hn.
  pose proof (tensor_op_column_pointwise
                t t z Hlen' (eq_sym (broadcast_to_same_length _ _ Hlen'))) as Hcp.
  unfold q_posterior, tmul, tadd.
  rewrite !extract_in_table by (apply Hpos; simpl; tauto).
  cbn [bind].
  match goal with |- _ = ?r => set (rhs := r) end.
  rewrite <- Hx, <- Hn.
  rewrite !Hcp. cbn [bind]. rewrite tensor_op_pointwise. cbn [bind].
  subst rhs. do 2 f_equal. f_equal. etransitivity; [|exact Hx].
  apply (pointwise_ext (fun ti => ti = 0%Z)); [exact Hzero|].
  intros ti [u v] ->. cbn [fst snd]. rewrite H1, H2. ring.
Qed.

(** X7: the last step of ancestral sampling (every timestep 0) returns the
    denoiser's prediction of the start, clamped to [-1, 1]; it makes one
    oracle call and leaves the noise history alone. *)
Theorem p_sample_last_step_is_clamped_prediction
        (d : denoiser) (o T k : Z) (mb smin smax : R) (self : GaussianDiffusion)
        (x : tensor) (t : list Z) (cond : tensor) (reference_mel : option tensor)
        (repeat_noise : bool) (z : tensor) (s : mstate) (input x_recon : tensor) :
  init d o T k mb smin smax = Ok self ->
  (1 <= T)%Z ->
  Forall (fun ti => ti = 0%Z) t ->
  length t = length x ->
  same_shape (noise_like (length x) repeat_noise z) x ->
  cat x cond = Ok input ->
  predict_start_from_noise self x t (denoise_fn self input (TTensor t) reference_mel)
  = Ok x_recon ->
  same_shape x_recon x ->
  p_sample self x t cond reference_mel repeat_noise z s
  = (Ok (clamp (-1) 1 x_recon),
     {| calls := calls s ++ [ {| call_input := input;
                                 call_t := TTensor t;
                                 call_reference := reference_mel |} ];
        noise_list := noise_list s |})
  /\ entries_in (-1) 1 (clamp (-1) 1 x_recon).
Proof.
  intros Hinit HT Hzero Hlen Hnoise Hcat Hpred Hshape.
  split; [|apply clamp_entries_in; lra].
  rewrite p_sample_at_zero by assumption.
  unfold p_mean_variance. run_M. rewrite Hcat, Hpred.
  rewrite (q_posterior_at_zero _ _ _ _ _ _ _ self _ x t Hinit HT Hzero Hlen)
    by (apply same_shape_tmap_l; exact Hshape).
  reflexivity.
Qed.

Lemma p_sample_last_step_is_clamped_prediction_witness :
  exists self y,
    init (fun _ _ _ => [[[0]]]) 128 1 1 0.02 (-12) 2 = Ok self
    /\ fst (p_sample self [[[0.5]]] [0%Z] [[[1]]] None false [[[3]]] fresh_state)
       = Ok y
    /\ entries_in (-1) 1 y.
Proof.
  eexists.
  assert (Hinit : init (fun _ _ _ => [[[0]]]) 128 1 1 0.02 (-12) 2 = Ok ?[self])
    by reflexivity.
  match type of Hinit with
  | _ = Ok ?g =>
      destruct (p_sample_last_step_is_clamped_prediction
                  _ _ _ _ _ _ _ g [[[0.5]]] [0%Z] [[[1]]] None false [[[3]]]
                  fresh_state _ _ Hinit ltac:(lia)
                  ltac:(repeat constructor) eq_refl ltac:(repeat constructor)
                  eq_refl eq_refl ltac:(repeat constructor))
      as (Hrun & Hin)
  end.
  eexists. split; [exact Hinit|]. split; [rewrite Hrun; reflexivity|exact Hin].
Defined.

(** ** Timesteps outside the tables *)

Lemma gather1_ok_in_table (a : list R) (i : Z) (v : R) :
  gather1 a i = Ok v -> in_table a i.
Proof.
  unfold gather1, in_table. destruct (Z.ltb_spec i 0); [discriminate|].
  destruct (nth_error a (Z.to_nat i)) eqn:E; [|discriminate].
  intros _. assert (Hlt : (Z.to_nat i < length a)%nat).
  { apply nth_error_Some. congruence. }
  lia.
Qed.

Lemma gather1_error (a : list R) (i : Z) (e : pyerror) :
  gather1 a i = Err e -> e = RuntimeError.
Proof.
  unfold gather1. destruct (i <? 0)%Z; [congruence|].
  destruct (nth_error a (Z.to_nat i)); congruence.
Qed.

Lemma extract_out_of_table (a : list R) (t : list Z) :
  Exists (fun ti => ~ in_table a ti) t -> extract a t = Err RuntimeError.
Proof.
  intros H. unfold extract.
  assert (E : mapM (gather1 a) t = Err RuntimeError).
  { induction H as [ti t Hti|ti t _ IH]; cbn [mapM].
    - destruct (gather1 a ti) as [v|e] eqn:Eg.
      + exfalso. apply Hti. exact (gather1_ok_in_table _ _ _ Eg).
      + rewrite (gather1_error _ _ _ Eg). reflexivity.
    - destruct (gather1 a ti) as [v|e] eqn:Eg.
      + cbn [bind]. rewrite IH. reflexivity.
      + rewrite (gather1_error _ _ _ Eg). reflexivity. }
  rewrite E. reflexivity.
Qed.

Lemma in_table_dec (a : list R) (i : Z) : {in_table a i} + {~ in_table a i}.
Proof.
  unfold in_table.
  destruct (Z_le_dec 0 i); destruct (Z_lt_dec i (Z.of_nat (length a)));
    (left; lia) || (right; lia).
Qed.

(** X8: [extract] gathers one table entry per timestep into a column of
    shape [b, 1, 1, 1] when every timestep is an index of the table, and
    raises [RuntimeError] as soon as one is negative or past the end. *)
Theorem extract_in_or_out_of_table (a : list R) (t : list Z) :
  (Forall (in_table a) t ->
   extract a t = Ok (map (fun ti => [[lookup a ti]]) t))
  /\ (~ Forall (in_table a) t -> extract a t = Err RuntimeError).
Proof.
  split.
  - intros H. rewrite extract_in_table by exact H.
    unfold column. rewrite map_map. reflexivity.
  - intros H. apply extract_out_of_table.
    apply neg_Forall_Exists_neg; [|exact H].
    intros i. apply in_table_dec.
Qed.

Lemma extract_in_or_out_of_table_witness :
  extract [0.5; 0.25; 0.125] [2; 0]%Z = Ok [[[0.125]]; [[0.5]]]
  /\ extract [0.5; 0.25; 0.125] [2; 3]%Z = Err RuntimeError
  /\ extract [0.5; 0.25; 0.125] [(-1)%Z] = Err RuntimeError.
Proof.
  destruct (extract_in_or_out_of_table [0.5; 0.25; 0.125] [2; 0]%Z) as [H1 _].
  destruct (extract_in_or_out_of_table [0.5; 0.25; 0.125] [2; 3]%Z) as [_ H2].
  destruct (extract_in_or_out_of_table [0.5; 0.25; 0.125] [(-1)%Z]) as [_ H3].
  split; [|split].
  - apply H1. repeat constructor; unfold in_table; simpl; lia.
  - apply H2. intros H. inversion H as [|? ? _ H']. inversion H' as [|? ? Hin _].
    unfold in_table in Hin. simpl in Hin. lia.
  - apply H3. intros H. inversion H as [|? ? Hin _].
    unfold in_table in Hin. lia.
Defined.

Lemma length_alphas_cumprod (d : denoiser) (o T k : Z) (mb smin smax : R)
      (g : GaussianDiffusion) :
  init d o T k mb smin smax = Ok g ->
  length (alphas_cumprod g) = Z.to_nat T /\ (0 <= T)%Z.
Proof.
  intros Hinit.
  destruct (init_tables _ _ _ _ _ _ _ _ Hinit) as (Hb & _ & Hac & _).
  split.
  - rewrite Hac, length_cumprod, length_map.
    apply (linspace_length 1e-4 mb). exact Hb.
  - destruct (Z_lt_le_dec T 0) as [Hneg|Hok]; [|exact Hok].
    rewrite linear_beta_schedule_negative in Hb by exact Hneg. discriminate.
Qed.

Lemma q_sample_out_of_range (d : denoiser) (o T k : Z) (mb smin smax : R)
      (self : GaussianDiffusion) (x_start : tensor) (t : list Z)
      (noise : option tensor) (fresh : tensor) :
  init d o T k mb smin smax = Ok self ->
  Exists (fun ti => (ti < 0 \/ T <= ti)%Z) t ->
  q_sample self x_start t noise fresh = Err RuntimeError.
Proof.
  intros Hinit Hout.
  destruct (length_alphas_cumprod _ _ _ _ _ _ _ _ Hinit) as (Hlen & HT).
  destruct (init_tables _ _ _ _ _ _ _ _ Hinit) as (_ & _ & _ & _ & Hs & _).
  unfold q_sample. rewrite extract_out_of_table; [reflexivity|].
  eapply Exists_impl; [|exact Hout].
  intros ti Hti. unfold in_table. rewrite Hs, length_map, Hlen.
  cbv beta in Hti. lia.
Qed.

(** X9: [q_sample] on a built engine raises [RuntimeError] whenever some
    timestep of the batch is negative or not below the number of
    timesteps, whatever the tensors are. *)
Theorem q_sample_timestep_out_of_range
        (d : denoiser) (o T k : Z) (mb smin smax : R)
        (self : GaussianDiffusion) (x_start : tensor) (t : list Z)
        (noise : option tensor) (fresh : tensor) :
  init d o T k mb smin smax = Ok self ->
  Exists (fun ti => (ti < 0 \/ T <= ti)%Z) t ->
  q_sample self x_start t noise fresh = Err RuntimeError.
Proof.
  apply q_sample_out_of_range.
Qed.

Lemma q_sample_timestep_out_of_range_witness :
  exists self,
    init (fun _ _ _ => []) 128 1000 1000 0.02 (-12) 2 = Ok self
    /\ q_sample self [[[0.5]]; [[0.25]]] [3; 1000]%Z None [[[1]]; [[1]]]
       = Err RuntimeError.
Proof.
  destruct (init_ok (fun _ _ _ => []) 128 1000 1000 0.02 (-12) 2 ltac:(lia)) as (g & Hg).
  exists g. split; [exact Hg|].
  apply (q_sample_timestep_out_of_range _ _ _ _ _ _ _ g _ _ _ _ Hg).
  apply Exists_cons_tl, Exists_cons_hd. lia.
Defined.

(** ** Errors of the entry point *)

Lemma mapM_error_kind {A B : Type} (f : A -> result B) (l : list A) (e : pyerror) :
  (forall a e', f a = Err e' -> e' = RuntimeError) ->
  mapM f l = Err e -> e = RuntimeError.
Proof.
  intros Hf. induction l as [|a l IH]; simpl; [discriminate|].
  destruct (f a) as [b|e'] eqn:E; cbn [bind].
  - destruct (mapM f l); cbn [bind]; [discriminate|].
    intros H. injection H as <-. apply IH. reflexivity.
  - intros H. injection H as <-. exact (Hf _ _ E).
Qed.

Lemma zip_with_error_kind {A B C : Type} (f : A -> B -> result C)
      (xs : list A) (ys : list B) (e : pyerror) :
  (forall a b e', f a b = Err e' -> e' = RuntimeError) ->
  zip_with f xs ys = Err e -> e = RuntimeError.
Proof.
  intros Hf. revert ys. induction xs as [|x xs IH]; intros [|y ys]; simpl;
    try congruence.
  destruct (f x y) as [c|e'] eqn:E; cbn [bind].
  - destruct (zip_with f xs ys) eqn:Ez; cbn [bind]; [discriminate|].
    intros H. injection H as <-. apply (IH ys). exact Ez.
  - intros H. injection H as <-. exact (Hf _ _ _ E).
Qed.

Lemma bzip_error_kind {A B C : Type} (f : A -> B -> result C)
      (xs : list A) (ys : list B) (e : pyerror) :
  (forall a b e', f a b = Err e' -> e' = RuntimeError) ->
  bzip f xs ys = Err e -> e = RuntimeError.
Proof.
  intros Hf. unfold bzip.
  destruct (length xs =? length ys)%nat; [apply zip_with_error_kind, Hf|].
  destruct xs as [|x [|x' xs]].
  - destruct ys as [|y [|y' ys]]; try congruence.
    apply mapM_error_kind. intros a e'. apply Hf.
  - apply mapM_error_kind. intros b e'. apply Hf.
  - destruct ys as [|y [|y' ys]]; try congruence.
    apply mapM_error_kind. intros a e'. apply Hf.
Qed.

Lemma tensor_op_error_kind (f : R -> R -> R) (x y : tensor) (e : pyerror) :
  tensor_op f x y = Err e -> e = RuntimeError.
Proof.
  unfold tensor_op. apply bzip_error_kind.
  intros s1 s2 e1. apply bzip_error_kind.
  intros r1 r2 e2. apply bzip_error_kind.
  intros u v e3. discriminate.
Qed.

Lemma norm_spec_error_kind (self : GaussianDiffusion) (x : tensor) (e : pyerror) :
  norm_spec self x = Err e -> e = RuntimeError.
Proof.
  unfold norm_spec, tsub, tdiv.
  destruct (tensor_op Rminus x (spec_min self)) eqn:E1; cbn [bind];
    [|intros H; injection H as <-; exact (tensor_op_error_kind _ _ _ _ E1)].
  destruct (tensor_op Rminus (spec_max self) (spec_min self)) eqn:E2; cbn [bind];
    [|intros H; injection H as <-; exact (tensor_op_error_kind _ _ _ _ E2)].
  destruct (tensor_op Rdiv a a0) eqn:E3; cbn [bind];
    [discriminate|intros H; injection H as <-; exact (tensor_op_error_kind _ _ _ _ E3)].
Qed.

(** X10: an inference call that starts from a ground-truth spectrogram with
    a start step outside 1..T raises [RuntimeError] while it builds its
    initial state: the denoiser is never called and the noise history is
    untouched. *)
Theorem forward_start_step_out_of_range
        (d : denoiser) (o T k : Z) (mb smin smax : R)
        (self : GaussianDiffusion) (ext : solvers) (rng : draws)
        (condition : tensor) (reference_mel : option tensor) (gt : tensor)
        (infer_speedup : Z) (method : option string) (k_step_arg : Z)
        (use_tqdm : bool) (s : mstate) :
  init d o T k mb smin smax = Ok self ->
  (k_step_arg < 1 \/ T < k_step_arg)%Z ->
  forward self ext rng condition reference_mel (Some gt) true infer_speedup method
          (Some k_step_arg) use_tqdm s
  = (Err RuntimeError, s).
Proof.
  intros Hinit Hk. unfold forward. cbn [negb].
  unfold bindM at 1. unfold lift at 1.
  assert (E : forward_start self rng (Some gt) (Some k_step_arg) = Err RuntimeError).
  { unfold forward_start.
    destruct (norm_spec self gt) as [ns|e] eqn:En; cbn [bind].
    - rewrite (q_sample_out_of_range _ _ _ _ _ _ _ self _ _ _ _ Hinit);
        [reflexivity|].
      apply Exists_cons_hd. lia.
    - rewrite (norm_spec_error_kind _ _ _ En). reflexivity. }
  rewrite E. reflexivity.
Qed.

Lemma forward_start_step_out_of_range_witness :
  exists self,
    init (fun _ _ _ => []) 128 1000 1000 0.02 (-12) 2 = Ok self
    /\ forward self
               {| dpm_solver_sample := fun _ x _ _ _ => ret x;
                  uni_pc_sample := fun _ x _ _ _ => ret x |}
               {| randn_init := [[[0.5]]];
                  randn_step := fun _ => [[[0]]];
                  randint := [] |}
               [[[1]]] None (Some [[[-3]]]) true 10 (Some "ddim"%string)
               (Some 0%Z) true fresh_state
       = (Err RuntimeError, fresh_state).
Proof.
  destruct (init_ok (fun _ _ _ => []) 128 1000 1000 0.02 (-12) 2 ltac:(lia)) as (g & Hg).
  exists g. split; [exact Hg|].
  apply (forward_start_step_out_of_range _ _ _ _ _ _ _ g _ _ _ _ _ _ _ _ _ _ Hg).
  left. lia.
Defined.

(** X11: with a speed-up above 1, a method name other than [dpm-solver],
    [unipc], [pndm] and [ddim] makes an inference call raise
    [NotImplementedError] once its initial state is built, before any oracle
    call. *)
Theorem forward_unknown_method
        (self : GaussianDiffusion) (ext : solvers) (rng : draws)
        (condition : tensor) (reference_mel gt_spec : option tensor)
        (infer_speedup : Z) (m : string) (k_step_arg : option Z)
        (use_tqdm : bool) (t : Z) (x : tensor) (s : mstate) :
  forward_start self rng gt_spec k_step_arg = Ok (t, x) ->
  (1 < infer_speedup)%Z ->
  ~ In m ["dpm-solver"; "unipc"; "pndm"; "ddim"]%string ->
  forward self ext rng condition reference_mel gt_spec true infer_speedup (Some m)
          k_step_arg use_tqdm s
  = (Err NotImplementedError, s).
Proof.
  intros Hstart Hspeed Hm. unfold forward. cbn [negb].
  unfold bindM at 1. unfold lift at 1. rewrite Hstart.
  unfold bindM, forward_sample.
  destruct (Z.ltb_spec 1 infer_speedup); [|lia].
  repeat match goal with
         | |- context [String.eqb m ?name] =>
             destruct (String.eqb_spec m name) as [->|_];
             [exfalso; apply Hm; simpl; tauto|]
         end.
  reflexivity.
Qed.

Lemma forward_unknown_method_witness :
  exists self,
    init (fun _ _ _ => []) 128 1 1 0.02 (-12) 2 = Ok self
    /\ forward self
               {| dpm_solver_sample := fun _ x _ _ _ => ret x;
                  uni_pc_sample := fun _ x _ _ _ => ret x |}
               {| randn_init := [[[0.5]]];
                  randn_step := fun _ => [[[0]]];
                  randint := [] |}
               [[[1]]] None None true 10 (Some "plms"%string) None false fresh_state
       = (Err NotImplementedError, fresh_state).
Proof.
  eexists. split; [reflexivity|].
  apply (forward_unknown_method _ _ _ _ _ _ _ _ _ _ 1 [[[0.5]]]).
  - reflexivity.
  - lia.
  - simpl. intros [H|[H|[H|[H|[]]]]]; discriminate.
Defined.

(** ** Oracle calls of the DDIM and PLMS runs *)

Lemma length_py_range (stop step : Z) :
  length (py_range stop step) = Z.to_nat ((stop + step - 1) / step).
Proof.
  unfold py_range. rewrite length_map, length_seq. reflexivity.
Qed.

Lemma forward_sample_ddim (self : GaussianDiffusion) (ext : solvers) (rng : draws)
      (b : nat) (cond : tensor) (reference_mel : option tensor)
      (infer_speedup : Z) (use_tqdm : bool) (t : Z) (x : tensor) :
  (1 < infer_speedup)%Z ->
  forward_sample self ext rng b cond reference_mel infer_speedup (Some "ddim"%string)
                 use_tqdm t x
  = for_each (rev (py_range t infer_speedup))
             (fun i x => p_sample_ddim self x (List.repeat i b) infer_speedup
                                       cond reference_mel) x.
Proof.
  intros H. unfold forward_sample.
  destruct (Z.ltb_spec 1 infer_speedup); [|lia].
  change (String.eqb "ddim" "dpm-solver") with false.
  change (String.eqb "ddim" "unipc") with false.
  change (String.eqb "ddim" "pndm") with false.
  change (String.eqb "ddim" "ddim") with true.
  cbv iota. unfold tqdm_tqdm. destruct use_tqdm; reflexivity.
Qed.

(** A DDIM step that returns has made one oracle call, at its own timestep,
    and has not touched the noise history. *)
Lemma p_sample_ddim_step (self : GaussianDiffusion) (x : tensor) (t : list Z)
      (interval : Z) (cond : tensor) (reference_mel : option tensor)
      (s s' : mstate) (y : tensor) :
  p_sample_ddim self x t interval cond reference_mel s = (Ok y, s') ->
  map call_t (calls s') = map call_t (calls s) ++ [TTensor t]
  /\ noise_list s' = noise_list s.
Proof.
  unfold p_sample_ddim. run_M.
  repeat destruct_step; cbn [fst snd calls noise_list]; try discriminate.
  intros H. injection H as _ <-. cbn [calls noise_list].
  rewrite map_app. split; reflexivity.
Qed.

Lemma ddim_loop_calls (self : GaussianDiffusion) (b : nat) (interval : Z)
      (cond : tensor) (reference_mel : option tensor)
      (items : list Z) (x y : tensor) (s s' : mstate) :
  for_each items
           (fun i x => p_sample_ddim self x (List.repeat i b) interval
                                     cond reference_mel) x s = (Ok y, s') ->
  map call_t (calls s')
  = map call_t (calls s) ++ map (fun i => TTensor (List.repeat i b)) items
  /\ noise_list s' = noise_list s.
Proof.
  revert x s. induction items as [|i items IH]; intros x s H.
  - simpl in H. unfold ret in H. injection H as _ <-.
    rewrite app_nil_r. split; reflexivity.
  - cbn [for_each] in H. unfold bindM in H.
    destruct (p_sample_ddim self x (List.repeat i b) interval cond reference_mel s)
      as [[x1|e] s1] eqn:E; [|discriminate].
    destruct (p_sample_ddim_step _ _ _ _ _ _ _ _ _ E) as (Hc & Hn).
    destruct (IH _ _ H) as (Hc' & Hn').
    rewrite Hc', Hc, Hn', Hn. cbn [map]. rewrite <- app_assoc.
    split; reflexivity.
Qed.

(** X12: a [ddim] run that returns has called the denoiser exactly once per
    step, at the timesteps of [range(0, t, speedup)] from the largest down
    to 0, each repeated over the batch; that is ceil(t / speedup) calls, and
    the noise history is as it was. *)
Theorem ddim_run_oracle_calls
        (self : GaussianDiffusion) (ext : solvers) (rng : draws) (b : nat)
        (cond : tensor) (reference_mel : option tensor)
        (infer_speedup : Z) (use_tqdm : bool) (t : Z) (x y : tensor) (s s' : mstate) :
  (1 < infer_speedup)%Z ->
  forward_sample self ext rng b cond reference_mel infer_speedup (Some "ddim"%string)
                 use_tqdm t x s = (Ok y, s') ->
  map call_t (calls s')
  = map call_t (calls s)
        ++ map (fun i => TTensor (List.repeat i b)) (rev (py_range t infer_speedup))
  /\ length (calls s')
     = (length (calls s) + Z.to_nat ((t + infer_speedup - 1) / infer_speedup))%nat
  /\ noise_list s' = noise_list s.
Proof.
  intros Hspeed Hrun. rewrite forward_sample_ddim in Hrun by exact Hspeed.
  destruct (ddim_loop_calls _ _ _ _ _ _ _ _ _ _ Hrun) as (Hc & Hn).
  split; [exact Hc|]. split; [|exact Hn].
  apply (f_equal (@length timestep)) in Hc.
  rewrite length_app, !length_map, length_rev, length_py_range in Hc. exact Hc.
Qed.

Lemma ddim_run_oracle_calls_witness :
  exists self y s',
    init (fun _ _ _ => [[[0]]]) 128 5 5 0.02 (-12) 2 = Ok self
    /\ forward_sample self
                      {| dpm_solver_sample := fun _ x _ _ _ => ret x;
                         uni_pc_sample := fun _ x _ _ _ => ret x |}
                      {| randn_init := [[[0.5]]];
                         randn_step := fun _ => [[[0]]];
                         randint := [] |}
                      1 [[[1]]] None 2 (Some "ddim"%string) true 5 [[[0.5]]]
                      fresh_state
       = (Ok y, s')
    /\ map call_t (calls s') = [TTensor [4%Z]; TTensor [2%Z]; TTensor [0%Z]]
    /\ noise_list s' = [].
Proof.
  eexists.
  assert (Hinit : init (fun _ _ _ => [[[0]]]) 128 5 5 0.02 (-12) 2 = Ok ?[self])
    by reflexivity.
  match type of Hinit with
  | _ = Ok ?g =>
      assert (Hrun : forward_sample
                       g
                       {| dpm_solver_sample := fun _ x _ _ _ => ret x;
                          uni_pc_sample := fun _ x _ _ _ => ret x |}
                       {| randn_init := [[[0.5]]];
                          randn_step := fun _ => [[[0]]];
                          randint := [] |}
                       1 [[[1]]] None 2 (Some "ddim"%string) true 5 [[[0.5]]]
                       fresh_state
                     = (Ok ?[y], ?[s']))
        by (rewrite forward_sample_ddim by lia; reflexivity)
  end.
  destruct (ddim_run_oracle_calls _ _ _ _ _ _ 2 _ _ _ _ _ _ ltac:(lia) Hrun)
    as (Hc & _ & Hn).
  eexists. eexists. split; [exact Hinit|]. split; [exact Hrun|].
  split; [exact Hc|exact Hn].
Defined.

Lemma deque_append_nonempty {A : Type} (d : list A) (v : A) :
  deque_append 4 d v <> [].
Proof.
  rewrite deque_append_cases.
  destruct (length d <? 4)%nat; intros E; apply app_eq_nil in E;
    destruct E; discriminate.
Qed.

(** A PLMS step that returns has made two oracle calls when the history
    was empty and one otherwise. *)
Lemma p_sample_plms_call_count (self : GaussianDiffusion) (x : tensor) (t : list Z)
      (interval : Z) (cond : tensor) (reference_mel : option tensor)
      (s s' : mstate) (y : tensor) :
  p_sample_plms self x t interval cond reference_mel s = (Ok y, s') ->
  length (calls s')
  = (length (calls s) + match noise_list s with [] => 2 | _ => 1 end)%nat
  /\ noise_list s' <> [].
Proof.
  intros H. split.
  - revert H. unfold p_sample_plms. run_M.
    destruct (cat x cond) as [input|]; [|discriminate].
    destruct (noise_list s) as [|n1 [|n2 [|n3 l]]] eqn:Hl; cbn [length];
      repeat destruct_step; cbn [fst snd calls noise_list]; try discriminate;
      intros H; injection H as _ <-; cbn [calls];
      rewrite !length_app; simpl; lia.
  - pose proof (p_sample_plms_noise_list self x t interval cond reference_mel s) as Hn.
    rewrite H in Hn. destruct Hn as (input & _ & ->).
    apply deque_append_nonempty.
Qed.

Lemma plms_loop_call_count (self : GaussianDiffusion) (b : nat) (interval : Z)
      (cond : tensor) (reference_mel : option tensor)
      (items : list Z) (x y : tensor) (s s' : mstate) :
  for_each items
           (fun i x => p_sample_plms self x (List.repeat i b) interval
                                     cond reference_mel) x s = (Ok y, s') ->
  length (calls s')
  = (length (calls s) + length items
     + match noise_list s, items with
       | [], _ :: _ => 1
       | _, _ => 0
       end)%nat.
Proof.
  revert x s. induction items as [|i items IH]; intros x s H.
  - simpl in H. unfold ret in H. injection H as _ <-.
    destruct (noise_list s); simpl; lia.
  - cbn [for_each] in H. unfold bindM in H.
    destruct (p_sample_plms self x (List.repeat i b) interval cond reference_mel s)
      as [[x1|e] s1] eqn:E; [|discriminate].
    destruct (p_sample_plms_call_count _ _ _ _ _ _ _ _ _ E) as (Hc & Hne).
    rewrite (IH _ _ H), Hc.
    destruct (noise_list s1) as [|n l] eqn:E1; [congruence|].
    destruct (noise_list s); destruct items; simpl; lia.
Qed.

(** X13: a [pndm] run of n >= 1 steps that returns has called the denoiser
    n + 1 times: only its first step, which finds the history empty, makes
    the extra bootstrap call. *)
Theorem pndm_run_call_count
        (self : GaussianDiffusion) (ext : solvers) (rng : draws) (b : nat)
        (cond : tensor) (reference_mel : option tensor)
        (infer_speedup : Z) (use_tqdm : bool) (t : Z) (x y : tensor) (s s' : mstate) :
  (1 < infer_speedup)%Z ->
  forward_sample self ext rng b cond reference_mel infer_speedup (Some "pndm"%string)
                 use_tqdm t x s = (Ok y, s') ->
  let n := Z.to_nat ((t + infer_speedup - 1) / infer_speedup) in
  length (calls s')
  = (length (calls s) + n + (if (n =? 0)%nat then 0 else 1))%nat.
Proof.
  intros Hspeed Hrun n. rewrite forward_sample_pndm in Hrun by exact Hspeed.
  unfold bindM, set_noise_list in Hrun.
  rewrite (plms_loop_call_count _ _ _ _ _ _ _ _ _ _ Hrun).
  cbn [calls noise_list]. rewrite length_rev, length_py_range. fold n.
  assert (Hn : length (rev (py_range t infer_speedup)) = n).
  { rewrite length_rev. apply length_py_range. }
  destruct (rev (py_range t infer_speedup)); simpl in Hn; subst n;
    rewrite <- Hn; reflexivity.
Qed.

Lemma pndm_run_call_count_witness :
  exists self y s',
    init (fun _ _ _ => [[[0]]]) 128 5 5 0.02 (-12) 2 = Ok self
    /\ forward_sample self
                      {| dpm_solver_sample := fun _ x _ _ _ => ret x;
                         uni_pc_sample := fun _ x _ _ _ => ret x |}
                      {| randn_init := [[[0.5]]];
                         randn_step := fun _ => [[[0]]];
                         randint := [] |}
                      1 [[[1]]] None 2 (Some "pndm"%string) true 5 [[[0.5]]]
                      fresh_state
       = (Ok y, s')
    /\ length (calls s') = 4%nat.
Proof.
  eexists.
  assert (Hinit : init (fun _ _ _ => [[[0]]]) 128 5 5 0.02 (-12) 2 = Ok ?[self])
    by reflexivity.
  match type of Hinit with
  | _ = Ok ?g =>
      assert (Hrun : forward_sample
                       g
                       {| dpm_solver_sample := fun _ x _ _ _ => ret x;
                          uni_pc_sample := fun _ x _ _ _ => ret x |}
                       {| randn_init := [[[0.5]]];
                          randn_step := fun _ => [[[0]]];
                          randint := [] |}
                       1 [[[1]]] None 2 (Some "pndm"%string) true 5 [[[0.5]]]
                       fresh_state
                     = (Ok ?[y], ?[s']))
        by (rewrite forward_sample_pndm by lia; reflexivity)
  end.
  pose proof (pndm_run_call_count _ _ _ _ _ _ 2 _ _ _ _ _ _ ltac:(lia) Hrun) as Hc.
  eexists. eexists. split; [exact Hinit|]. split; [exact Hrun|]. exact Hc.
Defined.

(** ** The multistep weights and the last deterministic step *)

Lemma tmap_as_pointwise (g : R -> R) (x : tensor) :
  tmap g x = pointwise (fun (_ : unit) e => g e) (List.repeat tt (length x)) x.
Proof.
  symmetry. exact (pointwise_repeat (fun (_ : unit) e => g e) tt x).
Qed.

(** Two entry-wise images of one tensor combine entry by entry. *)
Lemma tensor_op_tmap_diag (f : R -> R -> R) (g h : R -> R) (x : tensor) :
  tensor_op f (tmap g x) (tmap h x) = Ok (tmap (fun v => f (g v) (h v)) x).
Proof.
  rewrite !tmap_as_pointwise. apply tensor_op_pointwise.
Qed.

Lemma tensor_op_tmap_self (f : R -> R -> R) (g : R -> R) (x : tensor) :
  tensor_op f (tmap g x) x = Ok (tmap (fun v => f (g v) v) x).
Proof.
  rewrite <- (tmap_id x) at 2. apply tensor_op_tmap_diag.
Qed.

Lemma index_back_constant {A : Type} (d : list A) (v : A) (k : nat) :
  Forall (fun n => n = v) d ->
  (1 <= k <= length d)%nat ->
  index_back d k = Ok v.
Proof.
  intros Hall Hk. unfold index_back.
  destruct (nth_error (rev d) (k - 1)) as [n|] eqn:E.
  - apply nth_error_In, in_rev in E.
    rewrite Forall_forall in Hall. rewrite (Hall _ E). reflexivity.
  - apply nth_error_None in E. rewrite length_rev in E. lia.
Qed.

(** X14: the multistep weights of [p_sample_plms] sum to one: when every
    entry of a non-empty history equals the current noise prediction, the
    step is the plain extrapolation [get_x_pred] with that prediction. *)
Theorem p_sample_plms_constant_history
        (self : GaussianDiffusion) (x : tensor) (t : list Z) (interval : Z)
        (cond : tensor) (reference_mel : option tensor) (s : mstate)
        (input : tensor) :
  cat x cond = Ok input ->
  noise_list s <> [] ->
  Forall (fun n => n = denoise_fn self input (TTensor t) reference_mel)
         (noise_list s) ->
  fst (p_sample_plms self x t interval cond reference_mel s)
  = get_x_pred self interval x (denoise_fn self input (TTensor t) reference_mel) t.
Proof.
  intros Hcat Hne Hall.
  set (np := denoise_fn self input (TTensor t) reference_mel) in *.
  unfold p_sample_plms. run_M. rewrite Hcat. fold np.
  assert (Hidx : forall k, (1 <= k <= length (noise_list s))%nat ->
                           index_back (noise_list s) k = Ok np).
  { intros k Hk. apply index_back_constant; assumption. }
  assert (Hid : forall c : R -> R, (forall v, c v = v) -> tmap c np = np).
  { intros c Hc. rewrite <- (tmap_id np) at 2. apply tmap_ext, Hc. }
  destruct (noise_list s) as [|n1 [|n2 [|n3 l]]] eqn:Hl; [congruence| | |];
    cbn [length];
    rewrite ?Hidx by (cbn [length]; lia); cbn [bind];
    unfold tsub, tadd.
  - rewrite tensor_op_tmap_self. cbn [bind]. rewrite tmap_tmap.
    rewrite (Hid (fun v => (3 * v - v) / 2)) by (intros v; field).
    destruct (get_x_pred self interval x np t); reflexivity.
  - rewrite tensor_op_tmap_diag. cbn [bind]. rewrite tensor_op_tmap_diag.
    cbn [bind]. rewrite tmap_tmap.
    rewrite (Hid (fun v => (23 * v - 16 * v + 5 * v) / 12)) by (intros v; field).
    destruct (get_x_pred self interval x np t); reflexivity.
  - rewrite tensor_op_tmap_diag. cbn [bind]. rewrite tensor_op_tmap_diag.
    cbn [bind]. rewrite tensor_op_tmap_diag. cbn [bind]. rewrite tmap_tmap.
    rewrite (Hid (fun v => (55 * v - 59 * v + 37 * v - 9 * v) / 24))
      by (intros v; field).
    destruct (get_x_pred self interval x np t); reflexivity.
Qed.

Lemma p_sample_plms_constant_history_witness :
  exists self,
    init (fun _ _ _ => [[[0.25]]]) 128 2 2 0.02 (-12) 2 = Ok self
    /\ fst (p_sample_plms self [[[0.5]]] [1%Z] 1 [[[1]]] None
                          {| calls := []; noise_list := [[[[0.25]]]; [[[0.25]]]] |})
       = get_x_pred self 1 [[[0.5]]]
                    (denoise_fn self [[[0.5]; [1]]] (TTensor [1%Z]) None) [1%Z]
    /\ get_x_pred self 1 [[[0.5]]] [[[0.25]]] [1%Z]
       <> get_x_pred self 1 [[[0.5]]] [[[0.5]]] [1%Z].
Proof.
  eexists.
  assert (Hinit : init (fun _ _ _ => [[[0.25]]]) 128 2 2 0.02 (-12) 2 = Ok ?[self])
    by reflexivity.
  split; [exact Hinit|]. split.
  - match type of Hinit with
    | _ = Ok ?g =>
        apply (p_sample_plms_constant_history
                 g [[[0.5]]] [1%Z] 1 [[[1]]] None
                 {| calls := []; noise_list := [[[[0.25]]]; [[[0.25]]]] |}
                 [[[0.5]; [1]]])
    end.
    + reflexivity.
    + discriminate.
    + repeat constructor.
  - match goal with
    | |- ?l <> ?r =>
        assert (Hl : l = Ok ?[a]) by reflexivity;
        assert (Hr : r = Ok ?[b]) by reflexivity
    end.
    rewrite Hl, Hr. intros H. injection H as H.
    match type of H with
    | ?u + ?d * (?au - ?bv1) = ?u + ?d * (?au - ?bv2) =>
        match bv1 with
        | ?B * _ =>
            assert (Hd : d <> 0) by (simpl; lra);
            assert (HB : B <> 0);
            [|assert (E : d * B = 0) by lra;
              apply Rmult_integral in E; destruct E; contradiction]
        end
    end.
    apply Rgt_not_eq. unfold Rdiv. rewrite Rmult_1_l.
    apply Rinv_0_lt_compat.
    apply Rmult_lt_0_compat; [|apply Rplus_lt_0_compat];
      apply sqrt_lt_R0; simpl; lra.
Defined.

Lemma alphas_cumprod_first (d : denoiser) (o T k : Z) (mb smin smax : R)
      (g : GaussianDiffusion) :
  init d o T k mb smin smax = Ok g ->
  (1 <= T)%Z ->
  in_table (alphas_cumprod g) 0 /\ lookup (alphas_cumprod g) 0 = 1 * (1 - 1e-4).
Proof.
  intros Hinit HT.
  destruct (init_tables _ _ _ _ _ _ _ _ Hinit) as (Hb & _ & Hac & _).
  destruct (length_alphas_cumprod _ _ _ _ _ _ _ _ Hinit) as (Hlen & _).
  destruct (linear_beta_schedule_first _ _ _ Hb HT) as (bs & Ebs).
  split; [unfold in_table; lia|].
  rewrite Hac, Ebs. reflexivity.
Qed.

(** At timestep 0 with a non-negative interval the previous timestep is 0
    again, and the extrapolation adds a zero increment. *)
Lemma get_x_pred_at_zero (d : denoiser) (o T k : Z) (mb smin smax : R)
      (self : GaussianDiffusion) (interval : Z) (x n : tensor) (t : list Z) :
  init d o T k mb smin smax = Ok self ->
  (1 <= T)%Z ->
  (0 <= interval)%Z ->
  Forall (fun ti => ti = 0%Z) t ->
  length t = length x \/ length t = 1%nat ->
  same_shape x n ->
  get_x_pred self interval x n t = Ok x.
Proof.
  intros Hinit HT Hint Hzero Hlen Hshape.
  destruct (alphas_cumprod_first _ _ _ _ _ _ _ _ Hinit HT) as (Hin0 & _).
  set (ac := alphas_cumprod self) in *.
  assert (Hin : Forall (in_table ac) t).
  { eapply Forall_impl; [|exact Hzero]. intros ti ->. exact Hin0. }
  assert (Hin' : Forall (fun ti => in_table ac (Z.max (ti - interval) 0)) t).
  { eapply Forall_impl; [|exact Hzero]. intros ti ->.
    replace (Z.max (0 - interval) 0) with 0%Z by lia. exact Hin0. }
  set (z := tzip x n).
  set (t' := broadcast_to (length z) t).
  assert (Hz : length z = length x) by (apply length_tzip; exact Hshape).
  assert (Hlen' : length t' = length z).
  { apply length_broadcast_to. rewrite Hz. exact Hlen. }
  destruct (pointwise_tzip t' x n Hshape ltac:(lia)) as [Hx Hn].
  fold z in Hx, Hn.
  pose proof (tensor_op_column_pointwise t t' z Hlen' eq_refl) as Hcp.
  unfold get_x_pred, tadd, tsub, tmul, tsqrt.
  rewrite extract_in_table, extract_prev_timestep by assumption.
  match goal with |- _ = ?r => set (rhs := r) end.
  rewrite <- Hx, <- Hn. cbn [bind].
  repeat first [ rewrite tmap_column_map
               | rewrite tensor_op_columns_map; cbn [bind]
               | rewrite Hcp; cbn [bind]
               | rewrite tmap_pointwise
               | rewrite tensor_op_pointwise; cbn [bind] ].
  subst rhs. f_equal. etransitivity; [|exact Hx].
  apply (pointwise_ext (fun ti => ti = 0%Z)).
  - apply Forall_broadcast_to. exact Hzero.
  - intros ti [u v] ->. cbn [fst snd].
    replace (Z.max (0 - interval) 0) with 0%Z by lia. ring.
Qed.

(** X15: on a built engine, the extrapolation at timestep 0 (with a
    non-negative interval) returns the state unchanged, whatever the noise
    prediction: the step from 0 to max(0 - interval, 0) = 0 moves nothing. *)
Theorem get_x_pred_at_timestep_zero
        (d : denoiser) (o T k : Z) (mb smin smax : R)
        (self : GaussianDiffusion) (interval : Z) (x n : tensor) (t : list Z) :
  init d o T k mb smin smax = Ok self ->
  (1 <= T)%Z ->
  (0 <= interval)%Z ->
  Forall (fun ti => ti = 0%Z) t ->
  length t = length x \/ length t = 1%nat ->
  same_shape x n ->
  get_x_pred self interval x n t = Ok x.
Proof.
  apply get_x_pred_at_zero.
Qed.

Lemma get_x_pred_at_timestep_zero_witness :
  exists self,
    init (fun _ _ _ => []) 128 1 1 0.02 (-12) 2 = Ok self
    /\ get_x_pred self 10 [[[0.5; -1]]] [[[1; 0.25]]] [0%Z] = Ok [[[0.5; -1]]].
Proof.
  eexists.
  assert (Hinit : init (fun _ _ _ => []) 128 1 1 0.02 (-12) 2 = Ok ?[self])
    by reflexivity.
  split; [exact Hinit|].
  apply (get_x_pred_at_timestep_zero _ _ _ _ _ _ _ _ 10 _ _ _ Hinit).
  - lia.
  - lia.
  - repeat constructor.
  - left. reflexivity.
  - repeat constructor.
Defined.

(** X16: the last step of a [ddim] run (timestep 0, non-negative interval)
    calls the denoiser once and returns the state unchanged, when the
    prediction has the shape of the state. *)
Theorem p_sample_ddim_at_timestep_zero
        (d : denoiser) (o T k : Z) (mb smin smax : R)
        (self : GaussianDiffusion) (x : tensor) (t : list Z) (interval : Z)
        (cond : tensor) (reference_mel : option tensor) (s : mstate)
        (input : tensor) :
  init d o T k mb smin smax = Ok self ->
  (1 <= T)%Z ->
  (0 <= interval)%Z ->
  Forall (fun ti => ti = 0%Z) t ->
  length t = length x \/ length t = 1%nat ->
  cat x cond = Ok input ->
  same_shape x (denoise_fn self input (TTensor t) reference_mel) ->
  p_sample_ddim self x t interval cond reference_mel s
  = (Ok x,
     {| calls := calls s ++ [ {| call_input := input;
                                 call_t := TTensor t;
                                 call_reference := reference_mel |} ];
        noise_list := noise_list s |}).
Proof.
  intros Hinit HT Hint Hzero Hlen Hcat Hshape.
  set (n := denoise_fn self input (TTensor t) reference_mel) in *.
  destruct (alphas_cumprod_first _ _ _ _ _ _ _ _ Hinit HT) as (Hin0 & Ha0).
  set (ac := alphas_cumprod self) in *.
  assert (Hin : Forall (in_table ac) t).
  { eapply Forall_impl; [|exact Hzero]. intros ti ->. exact Hin0. }
  assert (Hin' : Forall (fun ti => in_table ac (Z.max (ti - interval) 0)) t).
  { eapply Forall_impl; [|exact Hzero]. intros ti ->.
    replace (Z.max (0 - interval) 0) with 0%Z by lia. exact Hin0. }
  set (z := tzip x n).
  set (t' := broadcast_to (length z) t).
  assert (Hz : length z = length x) by (apply length_tzip; exact Hshape).
  assert (Hlen' : length t' = length z).
  { apply length_broadcast_to. rewrite Hz. exact Hlen. }
  destruct (pointwise_tzip t' x n Hshape ltac:(lia)) as [Hx Hn].
  fold z in Hx, Hn.
  pose proof (tensor_op_column_pointwise t t' z Hlen' eq_refl) as Hcp.
  pose proof (tensor_op_pointwise_column t t' z Hlen' eq_refl) as Hpc.
  unfold p_sample_ddim. run_M.
  rewrite extract_in_table, extract_prev_timestep by assumption.
  rewrite Hcat. fold n.
  assert (E : ddim_rule (column (map (lookup ac) t))
                        (column (map (fun ti => lookup ac (Z.max (ti - interval) 0)) t))
                        x n = Ok x).
  { unfold ddim_rule, tadd, tsub, tmul, tdiv, tsqrt.
    match goal with |- _ = ?r => set (rhs := r) end.
    rewrite <- Hx, <- Hn.
    repeat first [ rewrite tmap_column_map
                 | rewrite tensor_op_columns_map; cbn [bind]
                 | rewrite Hcp; cbn [bind]
                 | rewrite Hpc; cbn [bind]
                 | rewrite tmap_pointwise
                 | rewrite tensor_op_pointwise; cbn [bind] ].
    subst rhs. f_equal. etransitivity; [|exact Hx].
    apply (pointwise_ext (fun ti => ti = 0%Z)).
    - apply Forall_broadcast_to. exact Hzero.
    - intros ti [u v] ->. cbn [fst snd].
      replace (Z.max (0 - interval) 0) with 0%Z by lia.
      rewrite Ha0.
      assert (Hs : 0 < sqrt (1 * (1 - 1e-4))) by (apply sqrt_lt_R0; lra).
      field. lra. }
  f_equal. exact E.
Qed.

Lemma p_sample_ddim_at_timestep_zero_witness :
  exists self s',
    init (fun _ _ _ => [[[0.25]]]) 128 1 1 0.02 (-12) 2 = Ok self
    /\ p_sample_ddim self [[[0.5]]] [0%Z] 10 [[[1]]] None fresh_state
       = (Ok [[[0.5]]], s')
    /\ length (calls s') = 1%nat.
Proof.
  eexists.
  assert (Hinit : init (fun _ _ _ => [[[0.25]]]) 128 1 1 0.02 (-12) 2 = Ok ?[self])
    by reflexivity.
  eexists. split; [exact Hinit|].
  split.
  - apply (p_sample_ddim_at_timestep_zero _ _ _ _ _ _ _ _ _ _ 10 _ _ _ [[[0.5]; [1]]]
             Hinit).
    + lia.
    + lia.
    + repeat constructor.
    + left. reflexivity.
    + reflexivity.
    + repeat constructor.
  - reflexivity.
Defined.

(** ** The cosine schedule *)







(** ** The normaliser, continued *)

Lemma entries_in_tmap (lo hi lo' hi' : R) (g : R -> R) (x : tensor) :
  (forall v, lo <= v <= hi -> lo' <= g v <= hi') ->
  entries_in lo hi x -> entries_in lo' hi' (tmap g x).
Proof.
  intros Hg. unfold entries_in, tmap. intros H.
  apply Forall_map. eapply Forall_impl; [|exact H]. intros s Hs.
  apply Forall_map. eapply Forall_impl; [|exact Hs]. intros r Hr.
  apply Forall_map. eapply Forall_impl; [|exact Hr]. intros v Hv.
  apply Hg, Hv.
Qed.

(** X18: on an engine with at least one output channel and spec_min <
    spec_max, [norm_spec] maps a tensor with entries in [spec_min, spec_max]
    to a tensor with entries in [-1, 1]. *)
Theorem norm_spec_range
        (d : denoiser) (o T k : Z) (mb smin smax : R) (self : GaussianDiffusion)
        (x : tensor) :
  init d o T k mb smin smax = Ok self ->
  (1 <= o)%Z ->
  smin < smax ->
  entries_in smin smax x ->
  exists y, norm_spec self x = Ok y /\ entries_in (-1) 1 y.
Proof.
  intros Hinit Ho Hlt Hx.
  destruct (init_spec_bounds _ _ _ _ _ _ _ _ Hinit) as [Hlo Hhi].
  rewrite spec_bound_channel in Hlo, Hhi by assumption.
  eexists. split; [apply (norm_spec_scalar self smin smax); assumption|].
  apply (entries_in_tmap smin smax); [|exact Hx].
  intros v Hv.
  assert (Hq : 0 <= (v - smin) / (smax - smin) <= 1).
  { split.
    - apply Rle_mult_inv_pos; lra.
    - apply Rmult_le_reg_r with (smax - smin); [lra|].
      replace ((v - smin) / (smax - smin) * (smax - smin)) with (v - smin)
        by (field; lra).
      lra. }
  lra.
Qed.

Lemma norm_spec_range_witness :
  exists self y,
    init (fun _ _ _ => []) 128 1 1 0.02 (-12) 2 = Ok self
    /\ norm_spec self [[[-12; -5; 2]]] = Ok y
    /\ entries_in (-1) 1 y.
Proof.
  eexists.
  destruct (norm_spec_range (fun _ _ _ => []) 128 1 1 0.02 (-12) 2 _
              [[[-12; -5; 2]]] eq_refl ltac:(lia) ltac:(lra)) as (y & Hn & Hy).
  - repeat constructor; lra.
  - exists y. split; [reflexivity|]. split; assumption.
Defined.

(** X19: the round trip holds in the other direction too: denormalising and
    normalising again gives back the tensor, so the two maps are inverse
    bijections. *)
Theorem norm_spec_denorm_spec
        (d : denoiser) (o T k : Z) (mb smin smax : R) (self : GaussianDiffusion)
        (y : tensor) :
  init d o T k mb smin smax = Ok self ->
  (1 <= o)%Z ->
  smax <> smin ->
  exists x, denorm_spec self y = Ok x /\ norm_spec self x = Ok y.
Proof.
  intros Hinit Ho Hne.
  destruct (init_spec_bounds _ _ _ _ _ _ _ _ Hinit) as [Hlo Hhi].
  rewrite spec_bound_channel in Hlo, Hhi by assumption.
  eexists. split; [apply (denorm_spec_scalar self smin smax); assumption|].
  rewrite (norm_spec_scalar self smin smax) by assumption.
  rewrite tmap_tmap. f_equal. rewrite <- (tmap_id y) at 2.
  apply tmap_ext. intros v. field. lra.
Qed.

Lemma norm_spec_denorm_spec_witness :
  exists self x,
    init (fun _ _ _ => []) 128 1 1 0.02 (-12) 2 = Ok self
    /\ denorm_spec self [[[-1; 0; 1]]] = Ok x
    /\ norm_spec self x = Ok [[[-1; 0; 1]]].
Proof.
  eexists.
  destruct (norm_spec_denorm_spec (fun _ _ _ => []) 128 1 1 0.02 (-12) 2 _
              [[[-1; 0; 1]]] eq_refl ltac:(lia) ltac:(lra)) as (x & Hd & Hn).
  exists x. split; [reflexivity|]. split; assumption.
Defined.

(** ** The training loss *)

Lemma sum_nonneg (l : list R) :
  Forall (fun v => 0 <= v) l -> 0 <= fold_right Rplus 0 l.
Proof.
  induction 1 as [|v l Hv _ IH]; simpl; lra.
Qed.

Lemma sum_zero (l : list R) :
  Forall (fun v => v = 0) l -> fold_right Rplus 0 l = 0.
Proof.
  induction 1 as [|v l Hv _ IH]; simpl; lra.
Qed.

Lemma Forall_concat {A : Type} (P : A -> Prop) (ls : list (list A)) :
  Forall (Forall P) ls -> Forall P (concat ls).
Proof.
  induction 1 as [|l ls Hl _ IH]; simpl; [constructor|].
  apply Forall_app. split; assumption.
Qed.

Lemma Forall_tmap (P : R -> Prop) (g : R -> R) (x : tensor) :
  (forall v, P (g v)) -> Forall P (concat (concat (tmap g x))).
Proof.
  intros Hg. apply Forall_concat, Forall_concat. unfold tmap.
  apply Forall_map, Forall_forall. intros s _.
  apply Forall_map, Forall_forall. intros r _.
  apply Forall_map, Forall_forall. intros v _. apply Hg.
Qed.

Lemma concat_tmap (g : R -> R) (x : tensor) :
  concat (concat (tmap g x)) = map g (concat (concat x)).
Proof.
  unfold tmap. rewrite !concat_map. reflexivity.
Qed.

Lemma tensor_mean_nonneg (g : R -> R) (x : tensor) :
  concat (concat x) <> [] ->
  (forall v, 0 <= g v) -> 0 <= tensor_mean (tmap g x).
Proof.
  intros Hne Hg. unfold tensor_mean.
  assert (Hsum : 0 <= fold_right Rplus 0 (concat (concat (tmap g x)))).
  { apply sum_nonneg. apply Forall_tmap. exact Hg. }
  apply Rle_mult_inv_pos; [exact Hsum|].
  apply lt_0_INR. rewrite concat_tmap, length_map.
  destruct (concat (concat x)); [congruence|simpl; lia].
Qed.

Lemma tensor_mean_zero (g : R -> R) (x : tensor) :
  (forall v, g v = 0) -> tensor_mean (tmap g x) = 0.
Proof.
  intros Hg. unfold tensor_mean.
  rewrite sum_zero by (apply Forall_tmap; exact Hg).
  unfold Rdiv. ring.
Qed.

Lemma tensor_op_self (f : R -> R -> R) (x : tensor) :
  tensor_op f x x = Ok (tmap (fun v => f v v) x).
Proof.
  rewrite <- (tmap_id x) at 1 2. apply tensor_op_tmap_diag.
Qed.

(** X20: when the difference between the noise and the denoiser's
    prediction has an entry at least (the mean of no entries is [nan] in the
    code), a loss that [p_losses] returns, of type [l1] or [l2], is never
    negative, and it is 0 when the denoiser predicts the noise exactly. *)
Theorem p_losses_nonnegative
        (self : GaussianDiffusion) (x_start : tensor) (t : list Z) (cond : tensor)
        (reference_mel : option tensor) (noise : option tensor) (fresh : tensor)
        (loss_type : string) (s s' : mstate) (loss : R)
        (x_noisy input difference : tensor) :
  q_sample self x_start t (Some (default noise fresh)) fresh = Ok x_noisy ->
  cat x_noisy cond = Ok input ->
  tsub (default noise fresh) (denoise_fn self input (TTensor t) reference_mel)
  = Ok difference ->
  concat (concat difference) <> [] ->
  p_losses self x_start t cond reference_mel noise fresh loss_type s = (Ok loss, s') ->
  0 <= loss
  /\ (denoise_fn self input (TTensor t) reference_mel = default noise fresh ->
      loss = 0).
Proof.
  intros Hq Hcat Hd Hne. unfold p_losses. run_M.
  rewrite Hq, Hcat.
  set (x_recon := denoise_fn self input (TTensor t) reference_mel) in *.
  destruct (String.eqb loss_type "l1").
  - rewrite Hd. intros H. injection H as <- _. split.
    + apply tensor_mean_nonneg; [exact Hne|]. intros v. apply Rabs_pos.
    + intros Hp. rewrite Hp in Hd. unfold tsub in Hd.
      rewrite tensor_op_self in Hd. injection Hd as <-.
      rewrite tmap_tmap. apply tensor_mean_zero.
      intros v. replace (v - v) with 0 by ring. apply Rabs_R0.
  - destruct (String.eqb loss_type "l2"); [|discriminate].
    rewrite Hd. intros H. injection H as <- _. split.
    + apply tensor_mean_nonneg; [exact Hne|]. intros v. apply pow2_ge_0.
    + intros Hp. rewrite Hp in Hd. unfold tsub in Hd.
      rewrite tensor_op_self in Hd. injection Hd as <-.
      rewrite tmap_tmap. apply tensor_mean_zero.
      intros v. ring.
Qed.

Lemma p_losses_nonnegative_witness :
  exists self,
    init (fun _ _ _ => [[[1; 0.25]]]) 128 1 1 0.02 (-12) 2 = Ok self
    /\ concat (concat [[[1 - 1; 0.25 - 0.25]]]) <> []
    /\ let run := p_losses self [[[0.5; -1]]] [0%Z] [[[1; 1]]] None
                           (Some [[[1; 0.25]]]) [] "l2" fresh_state in
       exists loss, fst run = Ok loss /\ 0 <= loss /\ loss = 0.
Proof.
  eexists.
  assert (Hinit : init (fun _ _ _ => [[[1; 0.25]]]) 128 1 1 0.02 (-12) 2 = Ok ?[self])
    by reflexivity.
  split; [exact Hinit|]. split; [discriminate|].
  intros run.
  match type of Hinit with
  | _ = Ok ?g =>
      assert (Hq : q_sample g [[[0.5; -1]]] [0%Z] (Some [[[1; 0.25]]]) []
                   = Ok ?[x_noisy]) by reflexivity;
      match type of Hq with
      | _ = Ok ?xn =>
          assert (Hc : cat xn [[[1; 1]]] = Ok ?[input]) by reflexivity;
          match type of Hc with
          | _ = Ok ?inp =>
              assert (Hd : tsub [[[1; 0.25]]] (denoise_fn g inp (TTensor [0%Z]) None)
                           = Ok [[[1 - 1; 0.25 - 0.25]]]) by reflexivity;
              assert (Hrun : run = (Ok ?[loss], ?[s'])) by reflexivity;
              match type of Hrun with
              | _ = (Ok ?l, ?s1) =>
                  destruct (p_losses_nonnegative
                              g [[[0.5; -1]]] [0%Z] [[[1; 1]]] None
                              (Some [[[1; 0.25]]]) [] "l2" fresh_state s1 l
                              xn inp [[[1 - 1; 0.25 - 0.25]]]
                              Hq Hc Hd ltac:(discriminate) Hrun)
                    as (Hpos & Hzero)
              end
          end
      end
  end.
  eexists. rewrite Hrun. split; [reflexivity|]. split; [exact Hpos|].
  apply Hzero. reflexivity.
Defined.

(** X21: [p_losses] checks the loss type only after it has noised the input
    and called the denoiser: with a type other than [l1] and [l2] it raises
    [NotImplementedError] with one oracle call made. *)
Theorem p_losses_unknown_loss_type
        (self : GaussianDiffusion) (x_start : tensor) (t : list Z) (cond : tensor)
        (reference_mel : option tensor) (noise : option tensor) (fresh : tensor)
        (loss_type : string) (s : mstate) (x_noisy input : tensor) :
  q_sample self x_start t (Some (default noise fresh)) fresh = Ok x_noisy ->
  cat x_noisy cond = Ok input ->
  loss_type <> "l1"%string ->
  loss_type <> "l2"%string ->
  p_losses self x_start t cond reference_mel noise fresh loss_type s
  = (Err NotImplementedError,
     {| calls := calls s ++ [ {| call_input := input;
                                 call_t := TTensor t;
                                 call_reference := reference_mel |} ];
        noise_list := noise_list s |}).
Proof.
  intros Hq Hc H1 H2. unfold p_losses. run_M. rewrite Hq, Hc.
  destruct (String.eqb_spec loss_type "l1") as [E|_]; [contradiction|].
  destruct (String.eqb_spec loss_type "l2") as [E|_]; [contradiction|].
  reflexivity.
Qed.

Lemma p_losses_unknown_loss_type_witness :
  exists self s',
    init (fun _ _ _ => [[[1; 0.25]]]) 128 1 1 0.02 (-12) 2 = Ok self
    /\ p_losses self [[[0.5; -1]]] [0%Z] [[[1; 1]]] None (Some [[[1; 0.25]]]) []
                "huber" fresh_state = (Err NotImplementedError, s')
    /\ length (calls s') = 1%nat.
Proof.
  eexists.
  assert (Hinit : init (fun _ _ _ => [[[1; 0.25]]]) 128 1 1 0.02 (-12) 2 = Ok ?[self])
    by reflexivity.
  eexists. split; [exact Hinit|]. split.
  - match type of Hinit with
    | _ = Ok ?g =>
        apply (p_losses_unknown_loss_type
                 g [[[0.5; -1]]] [0%Z] [[[1; 1]]] None (Some [[[1; 0.25]]]) []
                 "huber" fresh_state _ _ eq_refl eq_refl)
    end; discriminate.
  - reflexivity.
Defined.

(** ** Mean and variance of the forward process *)




(** ** The raw ancestral loop and the timesteps of a run *)

Lemma p_sample_step (self : GaussianDiffusion) (x : tensor) (t : list Z)
      (cond : tensor) (reference_mel : option tensor) (repeat_noise : bool)
      (z : tensor) (s s' : mstate) (y : tensor) :
  p_sample self x t cond reference_mel repeat_noise z s = (Ok y, s') ->
  map call_t (calls s') = map call_t (calls s) ++ [TTensor t]
  /\ noise_list s' = noise_list s.
Proof.
  unfold p_sample, p_mean_variance. run_M.
  destruct (cat x cond) as [input|]; [|discriminate].
  destruct (predict_start_from_noise self x t _) as [xr|]; [|discriminate].
  destruct (q_posterior self _ x t) as [[[m v] lv]|]; [|discriminate].
  destruct (nonzero_mask (length x) t) as [mask|]; [|discriminate].
  repeat destruct_step; try discriminate.
  intros H. injection H as _ <-. cbn [calls noise_list].
  rewrite map_app. split; reflexivity.
Qed.

Lemma ancestral_loop_calls (self : GaussianDiffusion) (rng : draws) (b : nat)
      (cond : tensor) (reference_mel : option tensor)
      (items : list Z) (x y : tensor) (s s' : mstate) :
  for_each items
           (fun i x => p_sample self x (List.repeat i b) cond reference_mel
                                false (randn_step rng i)) x s = (Ok y, s') ->
  map call_t (calls s')
  = map call_t (calls s) ++ map (fun i => TTensor (List.repeat i b)) items
  /\ noise_list s' = noise_list s.
Proof.
  revert x s. induction items as [|i items IH]; intros x s H.
  - simpl in H. unfold ret in H. injection H as _ <-.
    rewrite app_nil_r. split; reflexivity.
  - cbn [for_each] in H. unfold bindM in H.
    destruct (p_sample self x (List.repeat i b) cond reference_mel false
                       (randn_step rng i) s) as [[x1|e] s1] eqn:E; [|discriminate].
    destruct (p_sample_step _ _ _ _ _ _ _ _ _ _ E) as (Hc & Hn).
    destruct (IH _ _ H) as (Hc' & Hn').
    rewrite Hc', Hc, Hn', Hn. cbn [map]. rewrite <- app_assoc.
    split; reflexivity.
Qed.

Lemma py_range_one (t : Z) :
  py_range t 1 = map Z.of_nat (seq 0 (Z.to_nat t)).
Proof.
  unfold py_range. replace ((t + 1 - 1) / 1)%Z with t by (rewrite Z.div_1_r; lia).
  apply map_ext. intros k. lia.
Qed.

(** X23: with the progress bar off, a raw ancestral run (no method, or a
    speed-up of 1 or less) that returns has called the denoiser once per
    timestep, at t - 1, t - 2, ..., 0, and has left the noise history
    alone. *)
Theorem ancestral_run_oracle_calls
        (self : GaussianDiffusion) (ext : solvers) (rng : draws) (b : nat)
        (cond : tensor) (reference_mel : option tensor)
        (infer_speedup : Z) (method : option string) (t : Z) (x y : tensor)
        (s s' : mstate) :
  method = None \/ (infer_speedup <= 1)%Z ->
  forward_sample self ext rng b cond reference_mel infer_speedup method false t x s
  = (Ok y, s') ->
  map call_t (calls s')
  = map call_t (calls s)
        ++ map (fun i => TTensor (List.repeat (Z.of_nat i) b)) (rev (seq 0 (Z.to_nat t)))
  /\ noise_list s' = noise_list s.
Proof.
  intros Hpath Hrun.
  assert (E : forward_sample self ext rng b cond reference_mel infer_speedup method
                             false t x s
              = for_each (rev (py_range t 1))
                         (fun i x => p_sample self x (List.repeat i b) cond
                                              reference_mel false (randn_step rng i))
                         x s).
  { unfold forward_sample. destruct method as [m|].
    - destruct Hpath as [Hm|Hs]; [discriminate|].
      destruct (Z.ltb_spec 1 infer_speedup); [lia|]. reflexivity.
    - reflexivity. }
  rewrite E in Hrun.
  destruct (ancestral_loop_calls _ _ _ _ _ _ _ _ _ _ Hrun) as (Hc & Hn).
  split; [|exact Hn].
  rewrite Hc, py_range_one, <- map_rev, map_map. reflexivity.
Qed.

Lemma ancestral_run_oracle_calls_witness :
  exists self y s',
    init (fun _ _ _ => [[[0]]]) 128 3 3 0.02 (-12) 2 = Ok self
    /\ forward_sample self
                      {| dpm_solver_sample := fun _ x _ _ _ => ret x;
                         uni_pc_sample := fun _ x _ _ _ => ret x |}
                      {| randn_init := [[[0.5]]];
                         randn_step := fun _ => [[[0.125]]];
                         randint := [] |}
                      1 [[[1]]] None 10 None false 3 [[[0.5]]] fresh_state
       = (Ok y, s')
    /\ map call_t (calls s') = [TTensor [2%Z]; TTensor [1%Z]; TTensor [0%Z]].
Proof.
  eexists.
  assert (Hinit : init (fun _ _ _ => [[[0]]]) 128 3 3 0.02 (-12) 2 = Ok ?[self])
    by reflexivity.
  match type of Hinit with
  | _ = Ok ?g =>
      assert (Hrun : forward_sample
                       g
                       {| dpm_solver_sample := fun _ x _ _ _ => ret x;
                          uni_pc_sample := fun _ x _ _ _ => ret x |}
                       {| randn_init := [[[0.5]]];
                          randn_step := fun _ => [[[0.125]]];
                          randint := [] |}
                       1 [[[1]]] None 10 None false 3 [[[0.5]]] fresh_state
                     = (Ok ?[y], ?[s']))
        by reflexivity
  end.
  destruct (ancestral_run_oracle_calls _ _ _ _ _ _ _ _ _ _ _ _ _
              (or_introl eq_refl) Hrun) as (Hc & _).
  eexists. eexists. split; [exact Hinit|]. split; [exact Hrun|]. exact Hc.
Defined.

(** X24: the timesteps a [ddim] or [pndm] run goes through,
    [range(0, t, speedup)], are exactly the multiples of the speed-up from 0
    up to, and not including, t. *)
Theorem py_range_multiples (t step i : Z) :
  (0 < step)%Z ->
  In i (py_range t step) <-> (0 <= i < t)%Z /\ (i mod step = 0)%Z.
Proof.
  intros Hstep. unfold py_range. rewrite in_map_iff. split.
  - intros (k & <- & Hk). apply in_seq in Hk.
    assert (Hq : (Z.of_nat k < (t + step - 1) / step)%Z) by lia.
    assert (Hle : (Z.of_nat k + 1 <= (t + step - 1) / step)%Z) by lia.
    assert (Hmul : (step * (Z.of_nat k + 1) <= t + step - 1)%Z).
    { etransitivity; [apply Z.mul_le_mono_nonneg_l; [lia|exact Hle]|].
      apply Z.mul_div_le. exact Hstep. }
    split; [nia|]. apply Z.mod_mul. lia.
  - intros (Hi & Hmod).
    exists (Z.to_nat (i / step)).
    assert (Hdiv : i = (step * (i / step))%Z).
    { rewrite (Z.div_mod i step) at 1 by lia. lia. }
    assert (Hq0 : (0 <= i / step)%Z) by (apply Z.div_pos; lia).
    split; [rewrite Z2Nat.id by exact Hq0; lia|].
    apply in_seq. split; [lia|]. simpl.
    assert (Hup : (i / step + 1 <= (t + step - 1) / step)%Z).
    { apply Z.div_le_lower_bound; [exact Hstep|]. lia. }
    lia.
Qed.

Lemma py_range_multiples_witness :
  (0 < 10)%Z
  /\ (In 90%Z (py_range 100 10) <-> (0 <= 90 < 100)%Z /\ (90 mod 10 = 0)%Z)
  /\ rev (py_range 100 10) = [90; 80; 70; 60; 50; 40; 30; 20; 10; 0]%Z.
Proof.
  split; [lia|]. split; [|reflexivity].
  apply (py_range_multiples 100 10 90). lia.
Defined.
